(** * Semi-supervised segmentation diffusers: a shallow embedding

    The development follows the four Python sources of the repository:

    - [scheduler.py]                 ([Module Scheduler])
    - [loss_function/dice_loss.py]   ([Module DiceLoss])
    - [segmentation_diffuser_one.py] ([Module Dataset], [Module DiffuserOne])
    - [segmentation_diffuser_two.py] ([Module Dataset], [Module DiffuserTwo])

    [Module Torch] holds the tensor operations that the sources call and
    [Module Runtime] the collaborators of a training step. Tensors are
    shapes with row-major arrays of reals (exact arithmetic stands for the
    float32 arithmetic of the code), Python exceptions are an error monad,
    and what the code mutates (random generators, the logger, the
    gradient-mode flag) is threaded as explicit state. *)

From Stdlib Require Import Reals ZArith Lia Lra.
From stdpp Require Import base option list strings gmap.

Set Default Proof Using "Type".

(** ** Python exceptions and the state-and-exception monad *)

Inductive exn :=
| KeyError (key : string)
| IndexError
| ValueError (msg : string)
| RuntimeError (msg : string)
| AttributeError (name : string)
| NameError (name : string).

Inductive result (A : Type) :=
| Ok (a : A)
| Raise (e : exn).
Arguments Ok {A} a.
Arguments Raise {A} e.

Definition is_ok {A} (r : result A) : bool :=
  match r with Ok _ => true | Raise _ => false end.

(** A computation over a mutable world [S] that may raise. The world that
    an exception leaves behind is kept: what happened before the raise
    (draws, network calls, log records) stays observable. *)
Definition M (S A : Type) : Type := S -> result A * S.

#[global] Instance M_ret {S} : MRet (M S) := fun A a s => (Ok a, s).
#[global] Instance M_bind {S} : MBind (M S) := fun A B f m s =>
  match m s with
  | (Ok a, s') => f a s'
  | (Raise e, s') => (Raise e, s')
  end.

Definition raise {S A} (e : exn) : M S A := fun s => (Raise e, s).
Definition lift {S A} (r : result A) : M S A := fun s => (r, s).
Definition get {S} : M S S := fun s => (Ok s, s).
Definition put {S} (s : S) : M S unit := fun _ => (Ok tt, s).
Definition modify {S} (f : S -> S) : M S unit := fun s => (Ok tt, f s).

#[global] Instance result_ret : MRet result := fun A a => Ok a.
#[global] Instance result_bind : MBind result := fun A B f r =>
  match r with Ok a => f a | Raise e => Raise e end.

(** Python's [l[i]] on a sequence: negative indices count from the end,
    anything outside raises [IndexError]. *)
Definition getitem {A} (l : list A) (i : Z) : result A :=
  let n := Z.of_nat (length l) in
  let j := if (i <? 0)%Z then (i + n)%Z else i in
  if (j <? 0)%Z then Raise IndexError
  else match l !! Z.to_nat j with
       | Some x => Ok x
       | None => Raise IndexError
       end.

(** Python's [d[k]] on a dict. *)
Definition dict_get {V} (d : gmap string V) (k : string) : result V :=
  match d !! k with
  | Some v => Ok v
  | None => Raise (KeyError k)
  end.

(** Inversion of a successful run, one step at a time. *)
Lemma bind_Ok {S A B} (m : M S A) (f : A -> M S B) s b s2 :
  (m ≫= f) s = (Ok b, s2) ->
  exists a s1, m s = (Ok a, s1) /\ f a s1 = (Ok b, s2).
Proof.
  unfold mbind, M_bind. destruct (m s) as [[a|e] s1]; [|discriminate].
  intros H. exists a, s1. split; [reflexivity | exact H].
Qed.

Lemma bind_run {S A B} (m : M S A) (f : A -> M S B) s a s1 :
  m s = (Ok a, s1) -> (m ≫= f) s = f a s1.
Proof. unfold mbind, M_bind. intros ->. reflexivity. Qed.

Lemma bind_raise {S A B} (m : M S A) (f : A -> M S B) s e s1 :
  m s = (Raise e, s1) -> (m ≫= f) s = (Raise e, s1).
Proof. unfold mbind, M_bind. intros ->. reflexivity. Qed.

Lemma lift_Ok {S A} (r : result A) (s : S) a s1 :
  lift r s = (Ok a, s1) -> r = Ok a /\ s1 = s.
Proof. unfold lift. intros [= -> ->]. split; reflexivity. Qed.

(** One step of a successful run whose next action is a [lift]. *)
Tactic Notation "run_lift" hyp(H) ident(x) :=
  let w := fresh "w" in let E := fresh "E" x in
  apply bind_Ok in H as (x & w & E & H); apply lift_Ok in E as [E ->].

Lemma ret_Ok {S A} (x : A) (s : S) a s1 :
  (mret x : M S A) s = (Ok a, s1) -> a = x /\ s1 = s.
Proof. unfold mret, M_ret. intros [= -> ->]. split; reflexivity. Qed.

Lemma getitem_nat {A} (l : list A) (n : nat) x :
  getitem l (Z.of_nat n) = Ok x -> l !! n = Some x.
Proof.
  unfold getitem. cbn zeta.
  destruct (Z.ltb_spec (Z.of_nat n) 0) as [E|E]; [lia|].
  destruct (Z.ltb_spec (Z.of_nat n) 0) as [E'|E']; [lia|]. rewrite Nat2Z.id.
  destruct (l !! n); [intros [= ->]; reflexivity | discriminate].
Qed.

(** The key at which [batch["image"], batch["label"], batch["unsup"]]
    stops, if any: the lookups run from left to right. *)
Definition first_missing_key {V} (batch : gmap string V) : option string :=
  match batch !! "image", batch !! "label", batch !! "unsup" with
  | None, _, _ => Some "image"
  | Some _, None, _ => Some "label"
  | Some _, Some _, None => Some "unsup"
  | Some _, Some _, Some _ => None
  end.

Lemma first_missing_key_None {V} (batch : gmap string V) k :
  first_missing_key batch = Some k -> batch !! k = None.
Proof.
  unfold first_missing_key.
  destruct (batch !! "image") eqn:Bi; [|intros [= <-]; exact Bi].
  destruct (batch !! "label") eqn:Bl; [|intros [= <-]; exact Bl].
  destruct (batch !! "unsup") eqn:Bu; [discriminate | intros [= <-]; exact Bu].
Qed.

Lemma first_missing_key_Some {V} (batch : gmap string V) :
  batch !! "image" = None \/ batch !! "label" = None \/ batch !! "unsup" = None ->
  exists k, first_missing_key batch = Some k.
Proof.
  unfold first_missing_key. intros Hm.
  destruct (batch !! "image"); [|eauto].
  destruct (batch !! "label"); [|eauto].
  destruct (batch !! "unsup"); [|eauto].
  destruct Hm as [?|[?|?]]; discriminate.
Qed.

(** ** [PairedAndUnsupervisedDataset] (both diffuser files, verbatim twice) *)

Module Dataset.
Section PairedAndUnsupervised.

(** [self.R] is a [numpy.random.RandomState]; [seed] overwrites the
    whole generator state with a function of the seed, [randint] makes
    one draw and advances the state. *)
Variable rstate : Type.
Variable np_seed : Z -> rstate.
Variable np_randint : Z -> Z -> rstate -> Z * rstate.

(** A Python object held by the dataset (a file name, a loaded image). *)
Variable obj : Type.
(** The state of the transform chain (its own random generators). *)
Variable tenv : Type.

Record world := World { R : rstate; T : tenv }.

Record dataset := Dataset {
  keys : list string;
  data : list (list obj);
  transform : option (gmap string obj -> tenv -> result (gmap string obj) * tenv);
  length_ : option nat;
  batch_size : nat
}.

(** [self.R.seed(index)]: numpy accepts seeds in [0, 2^32). *)
Definition R_seed (index : Z) : M world unit := fun w =>
  if ((index <? 0) || (2 ^ 32 <=? index))%Z
  then (Raise (ValueError "Seed must be between 0 and 2**32 - 1"), w)
  else (Ok tt, World (np_seed index) (T w)).

(** [self.R.randint(low, high)]: an empty range is a [ValueError], worded
    by numpy after the range ([high <= 0] when [low] is 0). *)
Definition R_randint (low high : Z) : M world Z := fun w =>
  if (high <=? low)%Z
  then (Raise (ValueError (if (low =? 0)%Z then "high <= 0" else "low >= high")), w)
  else let '(x, r) := np_randint low high (R w) in (Ok x, World r (T w)).

Definition len_of (self : dataset) (k : Z) : M world Z :=
  d ← lift (getitem (data self) k); mret (Z.of_nat (length d)).

Definition data_at (self : dataset) (k : Z) (i : Z) : M world obj :=
  d ← lift (getitem (data self) k); lift (getitem d i).

(** The body of [_transform] up to the transform call: the dict of the
    three selected entries. *)
Definition select (self : dataset) (index : Z) : M world (gmap string obj) :=
  let data0 : gmap string obj := ∅ in
  _ ← R_seed index;
  n0 ← len_of self 0;
  rand_idx ← R_randint 0 n0;
  k0 ← lift (getitem (keys self) 0);
  image ← data_at self 0 rand_idx;
  let data1 := <[k0 := image]> data0 in
  k1 ← lift (getitem (keys self) 1);
  label ← data_at self 1 rand_idx;
  let data2 := <[k1 := label]> data1 in
  n2 ← len_of self 2;
  rand_idy ← R_randint 0 n2;
  k2 ← lift (getitem (keys self) 2);
  unsup ← data_at self 2 rand_idy;
  mret (<[k2 := unsup]> data2).

(** [apply_transform(self.transform, data)] when a transform is set. *)
Definition apply_transform (self : dataset) (d : gmap string obj)
  : M world (gmap string obj) :=
  match transform self with
  | None => mret d
  | Some f => fun w => let '(r, t) := f d (T w) in (r, World (R w) t)
  end.

Definition _transform (self : dataset) (index : Z) : M world (gmap string obj) :=
  d ← select self index; apply_transform self d.

(** The two file indices as functions of the sample index (and of the
    sizes of the pools, which are fixed with the dataset). *)
Definition paired_index (self : dataset) (index : Z) : Z :=
  fst (np_randint 0 (Z.of_nat (length (default [] (data self !! 0%nat)))) (np_seed index)).

Definition unsup_index (self : dataset) (index : Z) : Z :=
  let r := snd (np_randint 0 (Z.of_nat (length (default [] (data self !! 0%nat)))) (np_seed index)) in
  fst (np_randint 0 (Z.of_nat (length (default [] (data self !! 2%nat)))) r).

(** *** Reproducibility of the selection *)

(** Two worlds are alike when their dataset generators are in the same
    state; the state of the transform chain is free. *)
Definition alike (w1 w2 : world) : Prop := R w1 = R w2.

(** A computation is blind to the transform state when alike worlds give
    the same outcome and leave alike worlds. *)
Definition blind {A} (m : M world A) : Prop :=
  forall w1 w2, alike w1 w2 ->
    fst (m w1) = fst (m w2) /\ alike (snd (m w1)) (snd (m w2)).

Lemma blind_ret {A} (a : A) : blind (mret a).
Proof. intros w1 w2 H. split; [reflexivity | exact H]. Qed.

Lemma blind_lift {A} (r : result A) : blind (lift r).
Proof. intros w1 w2 H. split; [reflexivity | exact H]. Qed.

Lemma blind_bind {A B} (m : M world A) (f : A -> M world B) :
  blind m -> (forall a, blind (f a)) -> blind (m ≫= f).
Proof.
  intros Hm Hf w1 w2 H. destruct (Hm w1 w2 H) as [Hr Hs].
  unfold mbind, M_bind.
  destruct (m w1) as [[a1|e1] s1], (m w2) as [[a2|e2] s2];
    simpl in Hr, Hs; try discriminate.
  - injection Hr as ->. apply Hf, Hs.
  - injection Hr as ->. split; [reflexivity | exact Hs].
Qed.

Lemma blind_randint low high : blind (R_randint low high).
Proof.
  intros w1 w2 H. unfold R_randint, alike in *.
  destruct (high <=? low)%Z; [split; [reflexivity | exact H]|].
  rewrite H. destruct (np_randint low high (R w2)); split; reflexivity.
Qed.

Lemma blind_len_of self k : blind (len_of self k).
Proof. apply blind_bind; [apply blind_lift | intros; apply blind_ret]. Qed.

Lemma blind_data_at self k i : blind (data_at self k i).
Proof. apply blind_bind; [apply blind_lift | intros; apply blind_lift]. Qed.

(** Re-seeding makes any two worlds alike, or fails the same way in both. *)
Lemma R_seed_resets index w1 w2 :
  fst (R_seed index w1) = fst (R_seed index w2)
  /\ (is_ok (fst (R_seed index w1)) = true ->
      alike (snd (R_seed index w1)) (snd (R_seed index w2))).
Proof.
  unfold R_seed.
  destruct ((index <? 0) || (2 ^ 32 <=? index))%Z; simpl;
    split; try reflexivity; discriminate.
Qed.

Lemma reseeded_bind {A} index (f : unit -> M world A) w1 w2 :
  (forall u, blind (f u)) ->
  fst ((R_seed index ≫= f) w1) = fst ((R_seed index ≫= f) w2).
Proof.
  intros Hf. destruct (R_seed_resets index w1 w2) as [Hr Hs].
  unfold mbind, M_bind.
  destruct (R_seed index w1) as [[u1|e1] s1], (R_seed index w2) as [[u2|e2] s2];
    simpl in Hr, Hs; try discriminate.
  - destruct u1, u2. apply Hf, Hs. reflexivity.
  - injection Hr as ->. reflexivity.
Qed.

Lemma select_blind_after_seed self :
  blind (n0 ← len_of self 0;
         rand_idx ← R_randint 0 n0;
         k0 ← lift (getitem (keys self) 0);
         image ← data_at self 0 rand_idx;
         k1 ← lift (getitem (keys self) 1);
         label ← data_at self 1 rand_idx;
         n2 ← len_of self 2;
         rand_idy ← R_randint 0 n2;
         k2 ← lift (getitem (keys self) 2);
         unsup ← data_at self 2 rand_idy;
         mret (<[k2 := unsup]> (<[k1 := label]> (<[k0 := image]> (∅ : gmap string obj))))).
Proof.
  repeat (apply blind_bind;
          [first [apply blind_len_of | apply blind_randint
                 | apply blind_lift | apply blind_data_at] | intros ?]).
  apply blind_ret.
Qed.

Lemma R_randint_Ok low high w x w1 :
  R_randint low high w = (Ok x, w1) ->
  x = fst (np_randint low high (R w)) /\ R w1 = snd (np_randint low high (R w)).
Proof.
  unfold R_randint. destruct (high <=? low)%Z; [discriminate|].
  destruct (np_randint low high (R w)). intros [= -> <-]. split; reflexivity.
Qed.

Lemma len_of_Ok self (k : nat) w n w1 :
  len_of self (Z.of_nat k) w = (Ok n, w1) ->
  n = Z.of_nat (length (default [] (data self !! k))) /\ w1 = w.
Proof.
  intros H. apply bind_Ok in H as (d & s1 & H1 & H2).
  apply lift_Ok in H1 as [H1 ->]. apply ret_Ok in H2 as [-> ->].
  apply getitem_nat in H1. rewrite H1. split; reflexivity.
Qed.

Lemma data_at_Ok self (k : nat) i w x w1 :
  data_at self (Z.of_nat k) i w = (Ok x, w1) ->
  getitem (default [] (data self !! k)) i = Ok x /\ w1 = w.
Proof.
  intros H. apply bind_Ok in H as (d & s1 & H1 & H2).
  apply lift_Ok in H1 as [H1 ->]. apply lift_Ok in H2 as [H2 ->].
  apply getitem_nat in H1. rewrite H1. split; [exact H2 | reflexivity].
Qed.

Lemma R_seed_Ok index w u w1 :
  R_seed index w = (Ok u, w1) -> R w1 = np_seed index.
Proof.
  unfold R_seed. destruct ((index <? 0) || (2 ^ 32 <=? index))%Z; [discriminate|].
  intros [= _ <-]. reflexivity.
Qed.

(** C10. Item retrieval is reproducible per index: [_transform] re-seeds
    the dataset generator with [index] before it draws, so whatever state
    the generator and the transforms were left in (another epoch, another
    worker process), the same entries are selected; and when the
    selection succeeds, the paired image and label are both the entries
    at [paired_index self index] and the unsup entry is the one at
    [unsup_index self index], two functions of the index alone. *)
Theorem select_reproducible self index w1 w2 :
  fst (select self index w1) = fst (select self index w2)
  /\ forall d, fst (select self index w1) = Ok d ->
       exists k0 k1 k2 image label unsup,
         keys self !! 0%nat = Some k0 /\ keys self !! 1%nat = Some k1
         /\ keys self !! 2%nat = Some k2
         /\ getitem (default [] (data self !! 0%nat)) (paired_index self index) = Ok image
         /\ getitem (default [] (data self !! 1%nat)) (paired_index self index) = Ok label
         /\ getitem (default [] (data self !! 2%nat)) (unsup_index self index) = Ok unsup
         /\ d = <[k2 := unsup]> (<[k1 := label]> (<[k0 := image]> ∅)).
Proof.
  split.
  - apply reseeded_bind. intros _. apply select_blind_after_seed.
  - intros d Hd. destruct (select self index w1) as [r wf] eqn:H.
    simpl in Hd. subst r. unfold select in H.
    apply bind_Ok in H as (u & s0 & Hseed & H). apply R_seed_Ok in Hseed.
    apply bind_Ok in H as (n0 & s1 & H0 & H). apply (len_of_Ok self 0%nat) in H0 as [-> ->].
    apply bind_Ok in H as (idx & s2 & Hidx & H). apply R_randint_Ok in Hidx as [-> Hs2].
    apply bind_Ok in H as (k0 & s3 & Hk0 & H). apply lift_Ok in Hk0 as [Hk0 ->].
    apply bind_Ok in H as (image & s4 & Hi & H). apply (data_at_Ok self 0%nat) in Hi as [Hi ->].
    apply bind_Ok in H as (k1 & s5 & Hk1 & H). apply lift_Ok in Hk1 as [Hk1 ->].
    apply bind_Ok in H as (label & s6 & Hl & H). apply (data_at_Ok self 1%nat) in Hl as [Hl ->].
    apply bind_Ok in H as (n2 & s7 & H2 & H). apply (len_of_Ok self 2%nat) in H2 as [-> ->].
    apply bind_Ok in H as (idy & s8 & Hidy & H). apply R_randint_Ok in Hidy as [-> Hs8].
    apply bind_Ok in H as (k2 & s9 & Hk2 & H). apply lift_Ok in Hk2 as [Hk2 ->].
    apply bind_Ok in H as (unsup & s10 & Hu & H). apply (data_at_Ok self 2%nat) in Hu as [Hu ->].
    apply ret_Ok in H as [-> ->].
    rewrite Hs2, Hseed in Hu. rewrite Hseed in Hi, Hl.
    exists k0, k1, k2, image, label, unsup.
    repeat split; try assumption;
      first [ apply (getitem_nat _ 0%nat), Hk0 | apply (getitem_nat _ 1%nat), Hk1
            | apply (getitem_nat _ 2%nat), Hk2 ].
Qed.

End PairedAndUnsupervised.
End Dataset.

(** ** Tensors, as the torch operations of the sources use them *)

Module Torch.

#[global] Instance R_inhabited : Inhabited R := populate 0%R.

(** A tensor: its [shape] and its elements in row-major order. *)
Record tensor (A : Type) := Tensor { shape : list nat; data : list A }.
Arguments Tensor {A} shape data.
Arguments shape {A} t.
Arguments data {A} t.

Definition numel (s : list nat) : nat := foldr Nat.mul 1 s.

(** Row-major position of a multi-index, and back. *)
Fixpoint ravel (s idx : list nat) : nat :=
  match s, idx with
  | _ :: s', i :: idx' => i * numel s' + ravel s' idx'
  | _, _ => 0
  end.

Fixpoint unravel (s : list nat) (k : nat) : list nat :=
  match s with
  | [] => []
  | _ :: s' => (k / numel s') :: unravel s' (k mod numel s')
  end.

Definition in_range (s idx : list nat) : Prop := Forall2 lt idx s.

(** [t[idx]] *)
Definition tget {A} `{Inhabited A} (t : tensor A) (idx : list nat) : A :=
  default inhabitant (data t !! ravel (shape t) idx).

(** The tensor of shape [s] whose element at [idx] is [f idx]. *)
Definition tinit {A} (s : list nat) (f : list nat -> A) : tensor A :=
  Tensor s (map (fun k => f (unravel s k)) (seq 0 (numel s))).

(** An elementwise operation with a scalar, such as [2.0 * t + smooth]. *)
Definition tmap {A B} `{Inhabited A} (f : A -> B) (t : tensor A) : tensor B :=
  tinit (shape t) (fun idx => f (tget t idx)).

(** *** Broadcasting (the rule of torch and numpy)

    Shapes are aligned at their last dimension; two sizes are compatible
    when they are equal or one of them is 1. *)
Fixpoint bshape_rev (r1 r2 : list nat) : option (list nat) :=
  match r1, r2 with
  | [], r | r, [] => Some r
  | d1 :: r1', d2 :: r2' =>
      match bshape_rev r1' r2' with
      | None => None
      | Some rest =>
          if d1 =? d2 then Some (d1 :: rest)
          else if d1 =? 1 then Some (d2 :: rest)
          else if d2 =? 1 then Some (d1 :: rest)
          else None
      end
  end.

Definition bshape (s1 s2 : list nat) : option (list nat) :=
  reverse <$> bshape_rev (reverse s1) (reverse s2).

(** The index at which an operand of shape [s] is read for the output
    index [idx]: the trailing components, with 0 along size-1 dimensions. *)
Definition bidx (s idx : list nat) : list nat :=
  zip_with (fun d i => if d =? 1 then 0 else i) s (drop (length idx - length s) idx).

(** An elementwise binary operation with broadcasting. *)
Definition tbin {A B C} `{Inhabited A} `{Inhabited B}
    (f : A -> B -> C) (a : tensor A) (b : tensor B) : result (tensor C) :=
  match bshape (shape a) (shape b) with
  | None => Raise (RuntimeError "The size of tensor a must match the size of tensor b")
  | Some s => Ok (tinit s (fun idx => f (tget a (bidx (shape a) idx)) (tget b (bidx (shape b) idx))))
  end.

Definition tmul := tbin Rmult.
Definition tadd := tbin Rplus.

(** [x.shape[0]] *)
Definition shape0 {A} (t : tensor A) : result nat := getitem (shape t) 0.

(** *** Reductions *)

Fixpoint rsum (n : nat) (f : nat -> R) : R :=
  match n with
  | 0 => 0%R
  | S n' => (rsum n' f + f n')%R
  end.

Fixpoint zsum (n : nat) (f : nat -> Z) : Z :=
  match n with
  | 0 => 0%Z
  | S n' => (zsum n' f + f n')%Z
  end.

Definition sumR (l : list R) : R := foldr Rplus 0%R l.

(** [t.sum(dim=d)]: the dimension [d] is summed away. *)
Definition tsum_dim (dim : nat) (t : tensor R) : result (tensor R) :=
  match shape t !! dim with
  | None => Raise IndexError
  | Some n =>
      Ok (tinit (delete dim (shape t))
            (fun idx => rsum n (fun k => tget t (take dim idx ++ k :: drop dim idx))))
  end.

Definition tsum_dim_int (dim : nat) (t : tensor Z) : result (tensor Z) :=
  match shape t !! dim with
  | None => Raise IndexError
  | Some n =>
      Ok (tinit (delete dim (shape t))
            (fun idx => zsum n (fun k => tget t (take dim idx ++ k :: drop dim idx))))
  end.

(** The dimensions of [t.sum(dim=dims)] are read from left to right:
    one that the tensor does not have is an [IndexError], one that was
    listed before is a [RuntimeError]. *)
Fixpoint check_dims (rank : nat) (seen dims : list nat) : result unit :=
  match dims with
  | [] => Ok tt
  | d :: dims' =>
      if rank <=? d then Raise IndexError
      else if bool_decide (d ∈ seen) then
        Raise (RuntimeError "dim appears multiple times in the list of dims")
      else check_dims rank (d :: seen) dims'
  end.

(** The dimensions in ascending order. *)
Fixpoint insert_dim (d : nat) (dims : list nat) : list nat :=
  match dims with
  | [] => [d]
  | x :: dims' => if d <=? x then d :: dims else x :: insert_dim d dims'
  end.

Definition sort_dims (dims : list nat) : list nat := foldr insert_dim [] dims.

(** The dimensions that are summed away, in ascending order; an empty
    tuple stands for all of them. *)
Definition reduced_dims (rank : nat) (dims : list nat) : list nat :=
  match dims with
  | [] => seq 0 rank
  | _ :: _ => sort_dims dims
  end.

(** [t.sum(dim=dims)]: the order in which the dimensions are listed does
    not matter. The largest dimension is summed away first, so that the
    positions of the others are still those of [t]. *)
Definition tsum (dims : list nat) (t : tensor R) : result (tensor R) :=
  _ ← check_dims (length (shape t)) [] dims;
  foldr (fun d acc => acc ≫= tsum_dim d) (Ok t) (reduced_dims (length (shape t)) dims).

Definition tsum_int (dims : list nat) (t : tensor Z) : result (tensor Z) :=
  _ ← check_dims (length (shape t)) [] dims;
  foldr (fun d acc => acc ≫= tsum_dim_int d) (Ok t) (reduced_dims (length (shape t)) dims).

(** [t.mean()] *)
Definition tmean (t : tensor R) : R :=
  (sumR (data t) / INR (numel (shape t)))%R.

(** [t.permute(dims)]: dimension [j] of the result is dimension
    [dims[j]] of [t]. *)
Definition permute (dims : list nat) (t : tensor R) : result (tensor R) :=
  let rank := length (shape t) in
  if bool_decide (length dims = rank /\ Forall (fun i => i ∈ dims) (seq 0 rank)) then
    Ok (tinit (map (fun j => default 0 (shape t !! j)) dims)
          (fun idx =>
             tget t (map (fun i => default 0 (p ← list_find (eq i) dims; idx !! p.1))
                         (seq 0 rank))))
  else Raise (RuntimeError "permute: dims do not match the number of dimensions").

(** *** [torch.nn.functional] *)

Module F.

(** [F.one_hot(t, num_classes)]: a last dimension of size [num_classes]
    is appended. *)
Definition one_hot (t : tensor Z) (num_classes : nat) : result (tensor Z) :=
  if forallb (fun v => (0 <=? v)%Z && (v <? Z.of_nat num_classes)%Z) (data t) then
    Ok (tinit (shape t ++ [num_classes])
          (fun idx =>
             if decide (tget t (removelast idx) = Z.of_nat (default 0 (last idx))) then 1%Z else 0%Z))
  else Raise (RuntimeError "Class values must be smaller than num_classes.").

(** [F.softmax(t, dim)] *)
Definition softmax (t : tensor R) (dim : nat) : result (tensor R) :=
  match shape t !! dim with
  | None => Raise IndexError
  | Some n =>
      Ok (tinit (shape t)
            (fun idx =>
               (exp (tget t idx) / rsum n (fun k => exp (tget t (<[dim := k]> idx))))%R))
  end.

(** [F.cross_entropy(input, target)] with class indices as targets and
    the default mean reduction: the mean over all positions of
    [- log_softmax(input, dim=1)] at the target class. A target for
    another batch size is a [ValueError], one of another spatial size a
    [RuntimeError]. *)
Definition cross_entropy (input : tensor R) (target : tensor Z) : result R :=
  match shape input with
  | N :: C :: ds =>
      if bool_decide (head (shape target) = Some N) then
        if bool_decide (tail (shape target) = ds) then
          if forallb (fun v => (0 <=? v)%Z && (v <? Z.of_nat C)%Z) (data target) then
            Ok (tmean (tinit (N :: ds)
                  (fun idx =>
                     let n := hd 0 idx in
                     let pos := tl idx in
                     let cls := Z.to_nat (tget target idx) in
                     (- (tget input (n :: cls :: pos)
                         - ln (rsum C (fun k => exp (tget input (n :: k :: pos))))))%R)))
          else Raise IndexError
        else Raise (RuntimeError "size mismatch between input and target")
      else Raise (ValueError "Expected input batch_size to match target batch_size")
  | _ => Raise (RuntimeError "cross_entropy: input needs a class dimension")
  end.

End F.

(** *** Index arithmetic *)

Lemma in_range_length s idx : in_range s idx -> length idx = length s.
Proof. apply Forall2_length. Qed.

Lemma ravel_lt s idx : in_range s idx -> ravel s idx < numel s.
Proof.
  unfold in_range. intros H. revert H. revert idx.
  induction s as [|d s IH]; intros idx H; inversion H; subst; simpl.
  - lia.
  - match goal with Hr : Forall2 lt _ s |- _ => specialize (IH _ Hr) end. nia.
Qed.

Lemma unravel_ravel s idx : in_range s idx -> unravel s (ravel s idx) = idx.
Proof.
  unfold in_range. revert idx.
  induction s as [|d s IH]; intros idx H; inversion H; subst; simpl.
  - reflexivity.
  - match goal with Hr : Forall2 lt _ s |- _ =>
      pose proof (ravel_lt _ _ Hr) as Hlt; specialize (IH _ Hr) end.
    f_equal.
    + symmetry. apply (Nat.div_unique _ _ _ (ravel s l)); [exact Hlt | lia].
    + rewrite <- IH at 2. f_equal.
      symmetry. apply (Nat.mod_unique _ _ x); [exact Hlt | lia].
Qed.

Lemma unravel_in_range s k : k < numel s -> in_range s (unravel s k).
Proof.
  unfold in_range. revert k.
  induction s as [|d s IH]; intros k Hk; simpl in *.
  - constructor.
  - assert (numel s <> 0) by (intros E; rewrite E in Hk; lia).
    constructor.
    + apply Nat.Div0.div_lt_upper_bound. lia.
    + apply IH. apply Nat.mod_upper_bound. assumption.
Qed.

Lemma tget_tinit {A} `{Inhabited A} s (f : list nat -> A) idx :
  in_range s idx -> tget (tinit s f) idx = f idx.
Proof.
  intros Hr. unfold tget, tinit. simpl.
  rewrite list_lookup_fmap, lookup_seq_lt by (apply ravel_lt, Hr).
  simpl. rewrite unravel_ravel by exact Hr. reflexivity.
Qed.

Lemma bshape_rev_refl r : bshape_rev r r = Some r.
Proof.
  induction r as [|d r IH]; simpl; [reflexivity|].
  rewrite IH, Nat.eqb_refl. reflexivity.
Qed.

Lemma bshape_refl s : bshape s s = Some s.
Proof. unfold bshape. rewrite bshape_rev_refl. simpl. rewrite reverse_involutive. reflexivity. Qed.

Lemma bidx_same s idx : in_range s idx -> bidx s idx = idx.
Proof.
  intros Hr. unfold bidx. rewrite (in_range_length _ _ Hr), Nat.sub_diag, drop_0.
  unfold in_range in Hr. induction Hr as [|i d idx s Hlt Hr IH]; simpl; [reflexivity|].
  rewrite IH. destruct (Nat.eqb_spec d 1); [f_equal; lia | reflexivity].
Qed.

(** [t] has shape [s] and reads as [f] on the indices of [s]. *)
Definition tensor_is {A} `{Inhabited A} (t : tensor A) (s : list nat)
    (f : list nat -> A) : Prop :=
  shape t = s /\ forall idx, in_range s idx -> tget t idx = f idx.

Lemma tinit_is {A} `{Inhabited A} s (f : list nat -> A) : tensor_is (tinit s f) s f.
Proof. split; [reflexivity | intros idx Hr; apply tget_tinit, Hr]. Qed.

Lemma tbin_same {A B C} `{Inhabited A} `{Inhabited B} (f : A -> B -> C) a b s :
  shape a = s -> shape b = s ->
  tbin f a b = Ok (tinit s (fun idx => f (tget a (bidx s idx)) (tget b (bidx s idx)))).
Proof. intros Ha Hb. unfold tbin. rewrite Ha, Hb, bshape_refl. reflexivity. Qed.

(** *** Sums *)

Lemma rsum_ext n f g : (forall k, k < n -> f k = g k) -> rsum n f = rsum n g.
Proof.
  induction n as [|n IH]; intros E; simpl; [reflexivity|].
  rewrite IH, E by (intros; try apply E; lia). reflexivity.
Qed.

Lemma rsum_le n f g : (forall k, k < n -> (f k <= g k)%R) -> (rsum n f <= rsum n g)%R.
Proof.
  induction n as [|n IH]; intros E; simpl; [lra|].
  specialize (E n (Nat.lt_succ_diag_r n)) as En.
  assert (rsum n f <= rsum n g)%R by (apply IH; intros; apply E; lia). lra.
Qed.

Lemma rsum_lt n f g :
  0 < n -> (forall k, k < n -> (f k < g k)%R) -> (rsum n f < rsum n g)%R.
Proof.
  intros Hn E. destruct n as [|n]; [lia|]. simpl.
  specialize (E n (Nat.lt_succ_diag_r n)) as En.
  assert (rsum n f <= rsum n g)%R
    by (apply rsum_le; intros; apply Rlt_le, E; lia).
  lra.
Qed.

Lemma rsum_plus n f g :
  rsum n (fun k => (f k + g k)%R) = (rsum n f + rsum n g)%R.
Proof. induction n as [|n IH]; simpl; [lra | rewrite IH; lra]. Qed.

Lemma rsum_scal n c f : rsum n (fun k => (c * f k)%R) = (c * rsum n f)%R.
Proof. induction n as [|n IH]; simpl; [lra | rewrite IH; lra]. Qed.

Lemma rsum_const n c : rsum n (fun _ => c) = (INR n * c)%R.
Proof.
  induction n as [|n IH]; [simpl; lra|].
  rewrite S_INR. simpl. rewrite IH. lra.
Qed.

Lemma rsum_IZR n f : IZR (zsum n f) = rsum n (fun k => IZR (f k)).
Proof. induction n as [|n IH]; simpl; [reflexivity | rewrite plus_IZR, IH; reflexivity]. Qed.

Lemma rsum2_lt H W (f g : nat -> nat -> R) :
  0 < H -> 0 < W ->
  (forall h w, h < H -> w < W -> (f h w < g h w)%R) ->
  (rsum H (fun h => rsum W (f h)) < rsum H (fun h => rsum W (g h)))%R.
Proof.
  intros HH HW E. apply rsum_lt; [exact HH|]. intros h Hh.
  apply rsum_lt; [exact HW|]. intros w Hw. apply E; assumption.
Qed.

Lemma rsum2_nonneg H W (f : nat -> nat -> R) :
  (forall h w, h < H -> w < W -> (0 <= f h w)%R) ->
  (0 <= rsum H (fun h => rsum W (f h)))%R.
Proof.
  intros E. rewrite <- (Rmult_0_r (INR H)), <- rsum_const.
  apply rsum_le. intros h Hh.
  rewrite <- (Rmult_0_r (INR W)), <- rsum_const.
  apply rsum_le. intros w Hw. apply E; assumption.
Qed.

Lemma rsum2_plus H W (f g : nat -> nat -> R) :
  rsum H (fun h => rsum W (fun w => (f h w + g h w)%R))
  = (rsum H (fun h => rsum W (f h)) + rsum H (fun h => rsum W (g h)))%R.
Proof.
  rewrite <- rsum_plus. apply rsum_ext. intros h _. apply rsum_plus.
Qed.

Lemma rsum2_scal H W c (f : nat -> nat -> R) :
  rsum H (fun h => rsum W (fun w => (c * f h w)%R))
  = (c * rsum H (fun h => rsum W (f h)))%R.
Proof.
  rewrite <- rsum_scal. apply rsum_ext. intros h _. apply rsum_scal.
Qed.

(** A sum with one distinguished index. *)
Lemma rsum_indicator n g (a b : R) :
  g < n ->
  rsum n (fun k => if decide (k = g) then a else b) = (a + INR (n - 1) * b)%R.
Proof.
  intros Hg. induction n as [|n IH]; [lia|]. simpl rsum.
  replace (S n - 1) with n by lia.
  destruct (decide (n = g)) as [->|Hne].
  - rewrite (rsum_ext g _ (fun _ => b)), rsum_const; [lra|].
    intros k Hk. destruct (decide (k = g)); [lia | reflexivity].
  - rewrite IH by lia. destruct n as [|n]; [lia|].
    replace (S n - 1) with n by lia. rewrite (S_INR n). lra.
Qed.

(** *** Means of tabulated tensors *)

Lemma sumR_lt_const (l : list R) c :
  l <> [] -> Forall (fun x => (x < c)%R) l -> (sumR l < INR (length l) * c)%R.
Proof.
  intros Hne Hl. induction Hl as [|x l Hx Hl IH]; [congruence|].
  change (length (x :: l)) with (S (length l)). rewrite S_INR. simpl.
  destruct l as [|y l]; [simpl; lra|].
  assert (sumR (y :: l) < INR (length (y :: l)) * c)%R by (apply IH; discriminate).
  lra.
Qed.

Lemma sumR_all_const (l : list R) c :
  Forall (fun x => x = c) l -> sumR l = (INR (length l) * c)%R.
Proof.
  induction 1 as [|x l Hx Hl IH]; [simpl; lra|].
  change (length (x :: l)) with (S (length l)). rewrite S_INR. simpl.
  rewrite IH, Hx. lra.
Qed.

Lemma tinit_data_Forall {A} (P : A -> Prop) s (f : list nat -> A) :
  (forall idx, in_range s idx -> P (f idx)) -> Forall P (data (tinit s f)).
Proof.
  intros Hf. unfold tinit. simpl. apply Forall_map, Forall_forall.
  intros k Hk. apply list_elem_of_In, in_seq in Hk. simpl.
  apply Hf, unravel_in_range. lia.
Qed.

Lemma tmean_tinit_lt s f c :
  0 < numel s -> (forall idx, in_range s idx -> (f idx < c)%R) ->
  (tmean (tinit s f) < c)%R.
Proof.
  intros Hn Hf. unfold tmean.
  pose proof (tinit_data_Forall (fun x => (x < c)%R) s f Hf) as HF.
  assert (length (data (tinit s f)) = numel s) as Hlen
    by (unfold tinit; simpl; rewrite length_map, length_seq; reflexivity).
  apply sumR_lt_const in HF; [|intros E; rewrite E in Hlen; simpl in Hlen; lia].
  rewrite Hlen in HF. change (shape (tinit s f)) with s.
  assert (0 < INR (numel s))%R as Hp by (apply lt_0_INR; exact Hn).
  pose proof (Rinv_0_lt_compat _ Hp) as Hi.
  unfold Rdiv.
  apply (Rmult_lt_compat_r _ _ _ Hi) in HF.
  replace (INR (numel s) * c * / INR (numel s))%R with c in HF by (field; lra).
  exact HF.
Qed.

Lemma tmean_tinit_const s f c :
  0 < numel s -> (forall idx, in_range s idx -> f idx = c) ->
  tmean (tinit s f) = c.
Proof.
  intros Hn Hf. unfold tmean.
  pose proof (tinit_data_Forall (fun x => x = c) s f Hf) as HF.
  assert (length (data (tinit s f)) = numel s) as Hlen
    by (unfold tinit; simpl; rewrite length_map, length_seq; reflexivity).
  apply sumR_all_const in HF. rewrite HF, Hlen. change (shape (tinit s f)) with s.
  assert (0 < INR (numel s))%R as Hp by (apply lt_0_INR; exact Hn).
  field. lra.
Qed.

(** *** What each operation returns *)

Definition wf {A} (t : tensor A) : Prop := length (data t) = numel (shape t).

Lemma tbin_is {A B C} `{Inhabited A} `{Inhabited B} `{Inhabited C}
    (f : A -> B -> C) a b s :
  shape a = s -> shape b = s ->
  exists c, tbin f a b = Ok c
            /\ tensor_is c s (fun idx => f (tget a idx) (tget b idx)).
Proof.
  intros Ha Hb. eexists. split; [apply (tbin_same f a b s Ha Hb)|].
  split; [reflexivity|]. intros idx Hr.
  rewrite tget_tinit, bidx_same by exact Hr. reflexivity.
Qed.

Lemma tmap_is {A B} `{Inhabited A} `{Inhabited B} (f : A -> B) t :
  tensor_is (tmap f t) (shape t) (fun idx => f (tget t idx)).
Proof. apply tinit_is. Qed.

Lemma tsum_dim_is dim t n :
  shape t !! dim = Some n ->
  exists y, tsum_dim dim t = Ok y
            /\ tensor_is y (delete dim (shape t))
                 (fun idx => rsum n (fun k => tget t (take dim idx ++ k :: drop dim idx))).
Proof. intros E. unfold tsum_dim. rewrite E. eexists. split; [reflexivity | apply tinit_is]. Qed.

Lemma tsum_dim_int_is dim t n :
  shape t !! dim = Some n ->
  exists y, tsum_dim_int dim t = Ok y
            /\ tensor_is y (delete dim (shape t))
                 (fun idx => zsum n (fun k => tget t (take dim idx ++ k :: drop dim idx))).
Proof. intros E. unfold tsum_dim_int. rewrite E. eexists. split; [reflexivity | apply tinit_is]. Qed.

Lemma permute_is dims t :
  length dims = length (shape t) ->
  Forall (fun i => i ∈ dims) (seq 0 (length (shape t))) ->
  exists y, permute dims t = Ok y
            /\ tensor_is y (map (fun j => default 0 (shape t !! j)) dims)
                 (fun idx =>
                    tget t (map (fun i => default 0 (p ← list_find (eq i) dims; idx !! p.1))
                                (seq 0 (length (shape t))))).
Proof.
  intros Hl Hf. unfold permute. rewrite bool_decide_eq_true_2 by (split; assumption).
  eexists. split; [reflexivity | apply tinit_is].
Qed.

Lemma one_hot_is t num_classes :
  Forall (fun v => (0 <= v < Z.of_nat num_classes)%Z) (data t) ->
  exists y, F.one_hot t num_classes = Ok y
            /\ tensor_is y (shape t ++ [num_classes])
                 (fun idx => if decide (tget t (removelast idx)
                                        = Z.of_nat (default 0 (last idx)))
                             then 1%Z else 0%Z).
Proof.
  intros Hr. unfold F.one_hot.
  assert (forallb (fun v => (0 <=? v)%Z && (v <? Z.of_nat num_classes)%Z) (data t) = true) as ->.
  { apply forallb_forall. intros v Hv. rewrite Forall_forall in Hr.
    apply list_elem_of_In, Hr in Hv. lia. }
  eexists. split; [reflexivity | apply tinit_is].
Qed.

Lemma softmax_is t dim n :
  shape t !! dim = Some n ->
  exists y, F.softmax t dim = Ok y
            /\ tensor_is y (shape t)
                 (fun idx => (exp (tget t idx)
                              / rsum n (fun k => exp (tget t (<[dim := k]> idx))))%R).
Proof. intros E. unfold F.softmax. rewrite E. eexists. split; [reflexivity | apply tinit_is]. Qed.

Lemma tget_in_data {A} `{Inhabited A} (t : tensor A) idx :
  wf t -> in_range (shape t) idx -> tget t idx ∈ data t.
Proof.
  intros Hwf Hr. unfold tget. apply ravel_lt in Hr. rewrite <- Hwf in Hr.
  destruct (data t !! ravel (shape t) idx) as [v|] eqn:E;
    [|apply lookup_ge_None in E; lia].
  simpl. apply list_elem_of_lookup. eauto.
Qed.

End Torch.

(** ** The noise scheduler *)

Module Scheduler.
Import Torch.

(** [table[t]] for an integer [t] drawn as a timestep. *)
Definition table_at (table : list R) (t : Z) : R :=
  default 0%R (table !! Z.to_nat t).

(** [alphas_cumprod[timesteps]]: one table entry per timestep of the batch. *)
Definition gather (table : list R) (timesteps : list Z) : result (list R) :=
  mapM (getitem table) timesteps.

(** The per-sample coefficients, reshaped to [B, 1, ..., 1] so that they
    broadcast against samples of rank [rank]. *)
Definition coeff_tensor (rank : nat) (c : list R) : tensor R :=
  Tensor (length c :: replicate (rank - 1) 1) c.

(** Modelled from the spec: [DDPMScheduler.add_noise] of the diffusers
    library, which [CustomDDPMScheduler] inherits and both training steps
    call; its body is not in the repository. The spec (section 4.1) gives
    [sqrt(alpha_cumprod[timestep]) * clean + sqrt(1 - alpha_cumprod[timestep]) * noise],
    the coefficients being per-sample and broadcast over the batch; the
    products and the sum are tensor operations with broadcasting. *)
Definition add_noise (alphas_cumprod : list R)
    (original_samples noise : tensor R) (timesteps : list Z) : result (tensor R) :=
  a ← gather alphas_cumprod timesteps;
  let rank := length (shape original_samples) in
  let sqrt_alpha_prod := coeff_tensor rank (map sqrt a) in
  let sqrt_one_minus_alpha_prod := coeff_tensor rank (map (fun x => sqrt (1 - x)) a) in
  x ← tmul sqrt_alpha_prod original_samples;
  y ← tmul sqrt_one_minus_alpha_prod noise;
  tadd x y.

(** Modelled from the spec: the table that [DDPMScheduler.__init__] of the
    diffusers library precomputes for [beta_schedule='squaredcos_cap_v2'];
    the constructor is not in the repository. The spec (section 4.1) names a
    squared-cosine-capped beta schedule: [alpha_bar] is a squared cosine,
    each beta is [1 - alpha_bar(t2) / alpha_bar(t1)] capped at [max_beta],
    and the table is the cumulative product of [1 - beta]. *)
Definition alpha_bar_fn (t : R) : R :=
  ((cos ((t + 0.008) / 1.008 * PI / 2)) ^ 2)%R.

(** Modelled from the spec: the betas of the squared-cosine-capped schedule
    (the library's [betas_for_alpha_bar], not in the repository), one per
    timestep, each capped at [max_beta]. *)
Definition betas_for_alpha_bar (num_diffusion_timesteps : nat) (max_beta : R) : list R :=
  map (fun i : nat =>
         let t1 := (INR i / INR num_diffusion_timesteps)%R in
         let t2 := (INR (i + 1) / INR num_diffusion_timesteps)%R in
         Rmin (1 - alpha_bar_fn t2 / alpha_bar_fn t1) max_beta)
      (seq 0 num_diffusion_timesteps).

Fixpoint cumprod_from (acc : R) (l : list R) : list R :=
  match l with
  | [] => []
  | x :: l' => (acc * x)%R :: cumprod_from (acc * x)%R l'
  end.

Definition cumprod : list R -> list R := cumprod_from 1%R.

(** Modelled from the spec: the cumulative-alpha table of the library's
    scheduler, [cumprod(1 - betas)] with the cap 0.999 (spec, section 4.1). *)
Definition alphas_cumprod (num_train_timesteps : nat) : list R :=
  cumprod (map (fun b => (1 - b)%R) (betas_for_alpha_bar num_train_timesteps 0.999%R)).

(** Modelled from the spec: [scheduler.timesteps] of the library's
    scheduler, [num_train_timesteps - 1] down to 0 (spec, section 4.5). *)
Definition timesteps (num_train_timesteps : nat) : list Z :=
  map Z.of_nat (reverse (seq 0 num_train_timesteps)).

(** *** [scheduler.py]: [CustomDDPMScheduler]

    The subclass adds a device to the scheduler of the library and moves
    the cumulative-alpha table there; [to] is its only method besides the
    constructor. A tensor is modelled here with the device it lives on, the
    machine with the number of its CUDA devices. *)
Inductive torch_device := CPU | CUDA (index : nat).

Record placed := Placed { on : torch_device; values : list R }.

(** The devices of a machine with [cuda_devices] CUDA devices. *)
Definition available (cuda_devices : nat) (dev : torch_device) : bool :=
  match dev with
  | CPU => true
  | CUDA index => index <? cuda_devices
  end.

(** [tensor.to(device)]: a device that the machine does not have is a
    [RuntimeError], and nothing is moved. *)
Definition tensor_to (cuda_devices : nat) (dev : torch_device) (t : placed)
  : result placed :=
  if available cuda_devices dev then Ok (Placed dev (values t))
  else Raise (RuntimeError "CUDA error: invalid device ordinal").

Record CustomDDPMScheduler := Custom {
  device : torch_device;
  placed_alphas_cumprod : placed
}.

(** [to(self, device)]: [self.alphas_cumprod = self.alphas_cumprod.to(device)];
    [self.device] is left as it is. The scheduler after the call is
    returned; when the move raises, nothing was assigned. *)
Definition to (cuda_devices : nat) (dev : torch_device) (self : CustomDDPMScheduler)
  : result CustomDDPMScheduler :=
  moved ← tensor_to cuda_devices dev (placed_alphas_cumprod self);
  Ok (Custom (device self) moved).

(** [__init__(self, device, num_train_timesteps=..., beta_schedule='squaredcos_cap_v2')]:
    the constructor of the library builds the table (on the CPU), then the
    table is moved. *)
Definition __init__ (cuda_devices : nat) (dev : torch_device) (num_train_timesteps : nat)
  : result CustomDDPMScheduler :=
  to cuda_devices dev (Custom dev (Placed CPU (alphas_cumprod num_train_timesteps))).

Lemma to_moves_table cuda_devices dev self :
  available cuda_devices dev = true ->
  exists moved, to cuda_devices dev self = Ok moved
    /\ on (placed_alphas_cumprod moved) = dev
    /\ values (placed_alphas_cumprod moved) = values (placed_alphas_cumprod self)
    /\ device moved = device self.
Proof.
  intros Ha. unfold to, tensor_to. rewrite Ha. eexists. repeat split.
Qed.

Lemma to_absent_device cuda_devices dev self :
  available cuda_devices dev = false ->
  exists msg, to cuda_devices dev self = Raise (RuntimeError msg).
Proof.
  intros Ha. unfold to, tensor_to. rewrite Ha. eexists. reflexivity.
Qed.

(** *** [add_noise] *)

Lemma gather_in_range table ts :
  Forall (fun t => (0 <= t < Z.of_nat (length table))%Z) ts ->
  gather table ts = Ok (map (table_at table) ts).
Proof.
  unfold gather. induction 1 as [|t ts Ht _ IH]; [reflexivity|].
  cbn. cbn in IH. rewrite IH.
  unfold getitem, table_at. cbn zeta.
  destruct (Z.ltb_spec t 0) as [E|E]; [lia|].
  destruct (Z.ltb_spec t 0) as [E'|E']; [lia|].
  destruct (table !! Z.to_nat t) eqn:L; [reflexivity|].
  apply lookup_ge_None in L. lia.
Qed.

Lemma numel_ones n : numel (replicate n 1) = 1.
Proof. induction n; simpl; [reflexivity | lia]. Qed.

Lemma bshape_rev_ones n r B :
  length r = n -> bshape_rev (replicate n 1 ++ [B]) (r ++ [B]) = Some (r ++ [B]).
Proof.
  revert n. induction r as [|d r IH]; intros n Hn; subst n; simpl.
  - rewrite Nat.eqb_refl. reflexivity.
  - rewrite (IH _ eq_refl).
    destruct d as [|[|d]]; reflexivity.
Qed.

Lemma bshape_coeff B rest :
  bshape (B :: replicate (length rest) 1) (B :: rest) = Some (B :: rest).
Proof.
  unfold bshape. rewrite !reverse_cons, reverse_replicate.
  rewrite bshape_rev_ones by (rewrite length_reverse; reflexivity).
  simpl. rewrite reverse_app, reverse_involutive. reflexivity.
Qed.

Lemma ravel_ones_zero n (idx : list nat) :
  ravel (replicate n 1) (map (fun _ => 0) idx) = 0.
Proof.
  revert idx. induction n; intros [|i idx]; simpl; try reflexivity. apply IHn.
Qed.

Lemma zip_ones n (idx : list nat) :
  zip_with (fun d i : nat => if d =? 1 then 0 else i) (replicate n 1) idx
  = map (fun _ => 0) (take n idx).
Proof.
  revert idx. induction n; intros [|i idx]; simpl; try reflexivity.
  rewrite IHn. reflexivity.
Qed.

(** Reading the coefficient tensor at the index of an element of sample
    [b] gives the coefficient of sample [b]. *)
Lemma tget_coeff c rest b idx :
  b < length c -> in_range rest idx ->
  tget (coeff_tensor (S (length rest)) c) (bidx (length c :: replicate (length rest) 1) (b :: idx))
  = default 0%R (c !! b).
Proof.
  intros Hb Hr. unfold tget, coeff_tensor, bidx.
  simpl shape. simpl data. rewrite Nat.sub_0_r.
  simpl length. rewrite length_replicate, (in_range_length _ _ Hr), Nat.sub_diag, drop_0.
  simpl. rewrite zip_ones, numel_ones, ravel_ones_zero.
  destruct (Nat.eqb_spec (length c) 1) as [E|E].
  - replace b with 0 by lia. reflexivity.
  - do 2 f_equal. lia.
Qed.

Lemma lookup_map_default (f : R -> R) (g : Z -> R) (ts : list Z) b :
  b < length ts ->
  default 0%R (map f (map g ts) !! b) = f (g (default 0%Z (ts !! b))).
Proof.
  intros Hb. rewrite !list_lookup_fmap.
  destruct (ts !! b) eqn:E; [reflexivity|].
  apply lookup_ge_None in E. lia.
Qed.

(** C3. For clean and noise tensors of one shape [B :: rest] and [B]
    timesteps, each in [0, T) where [T] is the length of the table,
    [add_noise] returns a tensor of that shape whose element at position
    [idx] of sample [b] is
    [sqrt(alphas_cumprod[t_b]) * clean + sqrt(1 - alphas_cumprod[t_b]) * noise],
    [t_b] being the timestep of sample [b]: the schedule coefficients are
    per-sample and broadcast over the elements of the sample. *)
Theorem add_noise_formula (table : list R) (clean noise : tensor R)
    (ts : list Z) (B : nat) (rest : list nat) :
  shape clean = B :: rest ->
  shape noise = B :: rest ->
  length ts = B ->
  Forall (fun t => (0 <= t < Z.of_nat (length table))%Z) ts ->
  exists noisy,
    add_noise table clean noise ts = Ok noisy
    /\ shape noisy = B :: rest
    /\ forall b idx, b < B -> in_range rest idx ->
         let t := default 0%Z (ts !! b) in
         tget noisy (b :: idx)
         = (sqrt (table_at table t) * tget clean (b :: idx)
            + sqrt (1 - table_at table t) * tget noise (b :: idx))%R.
Proof.
  intros Hc Hn Hlen Hts. unfold add_noise.
  rewrite (gather_in_range _ _ Hts). cbn [mbind result_bind].
  set (a := map (table_at table) ts).
  assert (La : length a = B) by (unfold a; rewrite length_map; exact Hlen).
  assert (Hs : forall c, length c = B ->
            shape (coeff_tensor (S (length rest)) c) = B :: replicate (length rest) 1).
  { intros c <-. unfold coeff_tensor. simpl. rewrite Nat.sub_0_r. reflexivity. }
  unfold tmul, tadd, tbin. rewrite Hc, Hn. simpl length.
  rewrite !Hs by (rewrite length_map; exact La).
  rewrite bshape_coeff. cbn [mbind result_bind tinit shape].
  rewrite bshape_refl. eexists. split; [reflexivity|]. split; [reflexivity|].
  intros b idx Hb Hr. cbv zeta.
  assert (Hin : in_range (B :: rest) (b :: idx)) by (constructor; assumption).
  rewrite tget_tinit by exact Hin.
  rewrite (bidx_same _ _ Hin), !tget_tinit by exact Hin.
  rewrite (bidx_same _ _ Hin).
  pose proof (tget_coeff (map sqrt a) rest b idx) as H1.
  pose proof (tget_coeff (map (fun x => sqrt (1 - x)) a) rest b idx) as H2.
  rewrite !length_map, La in H1, H2.
  rewrite H1, H2 by (assumption || lia).
  unfold a. rewrite !lookup_map_default by lia. reflexivity.
Qed.

(** *** The cumulative-alpha table *)

Lemma length_cumprod_from acc l : length (cumprod_from acc l) = length l.
Proof. revert acc. induction l as [|x l IH]; intros acc; simpl; [reflexivity|]. rewrite IH. reflexivity. Qed.

(** Multiplying on by factors of [0, 1] never increases a non-negative
    running product. *)
Lemma cumprod_from_bounded l : forall acc k x,
  (0 <= acc)%R -> Forall (fun a => (0 <= a <= 1)%R) l ->
  cumprod_from acc l !! k = Some x -> (0 <= x <= acc)%R.
Proof.
  induction l as [|a l IH]; intros acc k x Hacc Hl Hk; [discriminate|].
  inversion Hl as [|? ? Ha Hl']; subst.
  assert (0 <= acc * a <= acc)%R by nra.
  destruct k as [|k]; simpl in Hk.
  - injection Hk as <-. assumption.
  - apply IH in Hk; [lra | lra | assumption].
Qed.

Lemma cumprod_from_nonincreasing l : forall acc s t xs xt,
  (0 <= acc)%R -> Forall (fun a => (0 <= a <= 1)%R) l ->
  s <= t ->
  cumprod_from acc l !! s = Some xs -> cumprod_from acc l !! t = Some xt ->
  (xt <= xs)%R.
Proof.
  induction l as [|a l IH]; intros acc s t xs xt Hacc Hl Hst Hs Ht; [discriminate|].
  inversion Hl as [|? ? Ha Hl']; subst.
  assert (0 <= acc * a <= acc)%R by nra.
  destruct s as [|s], t as [|t]; simpl in Hs, Ht; try lia.
  - injection Hs as <-. injection Ht as <-. lra.
  - injection Hs as <-. apply cumprod_from_bounded in Ht; [lra | lra | assumption].
  - apply (IH (acc * a)%R s t); [lra | assumption | lia | assumption | assumption].
Qed.

(** The squared cosine decreases on [0, 1] and is positive before 1. *)
Lemma alpha_bar_arg t :
  (0 <= t <= 1)%R -> (0 < (t + 0.008) / 1.008 * PI / 2 <= PI / 2)%R.
Proof.
  intros Ht. pose proof PI_RGT_0 as Hpi.
  assert (0 < (t + 0.008) / 1.008 <= 1)%R as Hu by (split; lra).
  set (u := ((t + 0.008) / 1.008)%R) in *.
  split; nra.
Qed.

Lemma alpha_bar_decreasing t1 t2 :
  (0 <= t1)%R -> (t1 <= t2)%R -> (t2 <= 1)%R ->
  (0 <= alpha_bar_fn t2 <= alpha_bar_fn t1)%R.
Proof.
  intros H0 H12 H1. pose proof PI_RGT_0 as Hpi.
  destruct (alpha_bar_arg t1) as [A1 B1]; [lra|].
  destruct (alpha_bar_arg t2) as [A2 B2]; [lra|].
  assert ((t1 + 0.008) / 1.008 * PI / 2 <= (t2 + 0.008) / 1.008 * PI / 2)%R as Hle by nra.
  assert (0 <= cos ((t2 + 0.008) / 1.008 * PI / 2))%R as C2 by (apply cos_ge_0; lra).
  assert (cos ((t2 + 0.008) / 1.008 * PI / 2) <= cos ((t1 + 0.008) / 1.008 * PI / 2))%R as C12
    by (apply cos_decr_1; lra).
  unfold alpha_bar_fn. split; [apply pow_le; exact C2 | apply pow_incr; split; assumption].
Qed.

Lemma alpha_bar_positive t : (0 <= t < 1)%R -> (0 < alpha_bar_fn t)%R.
Proof.
  intros Ht. pose proof PI_RGT_0 as Hpi.
  assert ((t + 0.008) / 1.008 < 1)%R as Hu by lra.
  destruct (alpha_bar_arg t) as [A B]; [lra|].
  unfold alpha_bar_fn. apply pow_lt, cos_gt_0; [lra|].
  set (u := ((t + 0.008) / 1.008)%R) in *. nra.
Qed.

Lemma div_unit a b : (0 <= a)%R -> (a <= b)%R -> (0 < b)%R -> (0 <= a / b <= 1)%R.
Proof.
  intros Ha Hab Hb. pose proof (Rinv_0_lt_compat b Hb) as Hi.
  assert (b * / b = 1)%R as E by (field; lra).
  unfold Rdiv. split; nra.
Qed.

Lemma div_below_one a b : (0 <= a)%R -> (a < b)%R -> (a / b < 1)%R.
Proof.
  intros Ha Hab. assert (0 < b)%R as Hb by lra.
  pose proof (Rinv_0_lt_compat b Hb) as Hi.
  assert (b * / b = 1)%R as E by (field; lra).
  unfold Rdiv. nra.
Qed.

Lemma betas_in_unit T max_beta :
  (0 <= max_beta <= 1)%R ->
  Forall (fun b => (0 <= b <= 1)%R) (betas_for_alpha_bar T max_beta).
Proof.
  intros Hmax. unfold betas_for_alpha_bar. apply Forall_forall. intros b Hb.
  apply list_elem_of_In, in_map_iff in Hb as (i & <- & Hi). apply in_seq in Hi.
  assert (0 < INR T)%R as HT by (apply lt_0_INR; lia).
  assert (0 <= INR i)%R as Hi0 by apply pos_INR.
  assert (INR i + 1 <= INR T)%R as HiT
    by (rewrite <- S_INR; apply le_INR; lia).
  cbv zeta. rewrite plus_INR. simpl (INR 1).
  assert (0 <= INR i / INR T < 1)%R as H1.
  { split; [apply div_unit; lra | apply div_below_one; lra]. }
  assert (INR i / INR T <= (INR i + 1) / INR T <= 1)%R as H2.
  { split; [|apply div_unit; lra].
    pose proof (Rinv_0_lt_compat _ HT). unfold Rdiv. nra. }
  pose proof (alpha_bar_positive _ H1) as Hp.
  destruct (alpha_bar_decreasing (INR i / INR T) ((INR i + 1) / INR T)) as [Q0 Q1]; try lra.
  assert (0 <= alpha_bar_fn ((INR i + 1) / INR T) / alpha_bar_fn (INR i / INR T) <= 1)%R as Hq
    by (apply div_unit; assumption).
  unfold Rmin. destruct (Rle_dec _ _); lra.
Qed.

Lemma alphas_in_unit T :
  Forall (fun a => (0 <= a <= 1)%R)
         (map (fun b => (1 - b)%R) (betas_for_alpha_bar T 0.999%R)).
Proof.
  apply Forall_map. eapply Forall_impl; [apply betas_in_unit; lra|].
  simpl. intros b Hb. lra.
Qed.

Lemma length_alphas_cumprod T : length (alphas_cumprod T) = T.
Proof.
  unfold alphas_cumprod, cumprod, betas_for_alpha_bar.
  rewrite length_cumprod_from, !length_map, length_seq. reflexivity.
Qed.

(** C5. The cumulative-alpha table built with the squared-cosine-capped
    beta schedule over [T] timesteps is non-increasing: for timesteps
    [s <= t] of [0, T), [alphas_cumprod[t] <= alphas_cumprod[s]]. *)
Theorem alphas_cumprod_nonincreasing (T : nat) (s t : Z) :
  (0 <= s)%Z -> (s <= t)%Z -> (t < Z.of_nat T)%Z ->
  (table_at (alphas_cumprod T) t <= table_at (alphas_cumprod T) s)%R.
Proof.
  intros Hs Hst Ht. unfold table_at.
  destruct (alphas_cumprod T !! Z.to_nat s) as [xs|] eqn:Es;
    [|apply lookup_ge_None in Es; rewrite length_alphas_cumprod in Es; lia].
  destruct (alphas_cumprod T !! Z.to_nat t) as [xt|] eqn:Et;
    [|apply lookup_ge_None in Et; rewrite length_alphas_cumprod in Et; lia].
  simpl. unfold alphas_cumprod, cumprod in Es, Et.
  eapply (cumprod_from_nonincreasing _ 1%R (Z.to_nat s) (Z.to_nat t));
    [lra | apply alphas_in_unit | lia | exact Es | exact Et].
Qed.

(** Two samples of one channel and 1 x 2 pixels, noised at timesteps 3 and 0
    of a four-step schedule. *)
Definition sample_clean : tensor R := Tensor [2; 1; 1; 2] [1; 0; 0; 1]%R.
Definition sample_noise : tensor R := Tensor [2; 1; 1; 2] [0; 1; 1; 0]%R.
Definition sample_timesteps : list Z := [3; 0]%Z.

Lemma add_noise_formula_witness :
  exists noisy,
    add_noise (alphas_cumprod 4) sample_clean sample_noise sample_timesteps = Ok noisy
    /\ shape noisy = [2; 1; 1; 2]
    /\ forall b idx, b < 2 -> in_range [1; 1; 2] idx ->
         let t := default 0%Z (sample_timesteps !! b) in
         tget noisy (b :: idx)
         = (sqrt (table_at (alphas_cumprod 4) t) * tget sample_clean (b :: idx)
            + sqrt (1 - table_at (alphas_cumprod 4) t) * tget sample_noise (b :: idx))%R.
Proof.
  apply (add_noise_formula (alphas_cumprod 4) _ _ sample_timesteps 2 [1; 1; 2]).
  - reflexivity.
  - reflexivity.
  - reflexivity.
  - rewrite length_alphas_cumprod. constructor; [lia|]. constructor; [lia|]. constructor.
Defined.

Lemma alphas_cumprod_nonincreasing_witness :
  (table_at (alphas_cumprod 100) 57 <= table_at (alphas_cumprod 100) 3)%R.
Proof. apply alphas_cumprod_nonincreasing; lia. Defined.

End Scheduler.

(** ** [loss_function/dice_loss.py] *)

Module DiceLoss.
Import Torch.

(** [dice_coef_loss(predictions, ground_truths, num_classes, dims, smooth)];
    the defaults of the source are [num_classes=2], [dims=(1, 2)] and
    [smooth=1e-8]. Multiplying and adding the float tensor with the integer
    one-hot tensor promotes the integers to floats ([IZR]). *)
Definition dice_coef_loss (predictions : tensor R) (ground_truths : tensor Z)
    (num_classes : nat) (dims : list nat) (smooth : R) : result R :=
  ground_truth_oh ← F.one_hot ground_truths num_classes;
  sm ← F.softmax predictions 1;
  prediction_norm ← permute [0; 2; 3; 1] sm;
  prod ← tbin (fun p o => (p * IZR o)%R) prediction_norm ground_truth_oh;
  intersection ← tsum dims prod;
  sum_p ← tsum dims prediction_norm;
  sum_g ← tsum_int dims ground_truth_oh;
  summation ← tbin (fun p g => (p + IZR g)%R) sum_p sum_g;
  dice ← tbin Rdiv (tmap (fun x => (2.0 * x + smooth)%R) intersection)
                   (tmap (fun x => (x + smooth)%R) summation);
  let dice_mean := tmean dice in
  CE ← F.cross_entropy predictions ground_truths;
  Ok ((1.0 - dice_mean) + CE)%R.

(** The statements of [dice_coef_loss] up to [dice] (lines 7 to 13): the
    tensor of the Dice coefficients, of which [dice_mean] is the mean. *)
Definition dice_coefficients (predictions : tensor R) (ground_truths : tensor Z)
    (num_classes : nat) (dims : list nat) (smooth : R) : result (tensor R) :=
  ground_truth_oh ← F.one_hot ground_truths num_classes;
  sm ← F.softmax predictions 1;
  prediction_norm ← permute [0; 2; 3; 1] sm;
  prod ← tbin (fun p o => (p * IZR o)%R) prediction_norm ground_truth_oh;
  intersection ← tsum dims prod;
  sum_p ← tsum dims prediction_norm;
  sum_g ← tsum_int dims ground_truth_oh;
  summation ← tbin (fun p g => (p + IZR g)%R) sum_p sum_g;
  tbin Rdiv (tmap (fun x => (2.0 * x + smooth)%R) intersection)
            (tmap (fun x => (x + smooth)%R) summation).

Definition default_num_classes : nat := 2.
Definition default_dims : list nat := [1; 2].
Definition default_smooth : R := (1 / 100000000)%R.

(** A prediction that is exactly the one-hot encoding of the class map:
    1 in the channel of the true class, 0 in the other channels. *)
Definition one_hot_of (predictions : tensor R) (ground_truths : tensor Z) : Prop :=
  forall b c h w,
    in_range (shape predictions) [b; c; h; w] ->
    tget predictions [b; c; h; w]
    = if decide (tget ground_truths [b; h; w] = Z.of_nat c) then 1%R else 0%R.

(** [dice_coef_loss] is [(1 - dice.mean()) + CE], with [dice] the tensor
    of the Dice coefficients and [CE] the cross-entropy of the
    predictions. *)
Lemma dice_coef_loss_parts predictions ground_truths num_classes dims smooth :
  dice_coef_loss predictions ground_truths num_classes dims smooth
  = (dice ← dice_coefficients predictions ground_truths num_classes dims smooth;
     CE ← F.cross_entropy predictions ground_truths;
     Ok ((1.0 - tmean dice) + CE)%R).
Proof.
  unfold dice_coef_loss, dice_coefficients.
  destruct (F.one_hot ground_truths num_classes) as [oh|e]; [|reflexivity].
  cbn [mbind result_bind].
  destruct (F.softmax predictions 1) as [sm|e]; [|reflexivity]. cbn [mbind result_bind].
  destruct (permute [0; 2; 3; 1] sm) as [pn|e]; [|reflexivity]. cbn [mbind result_bind].
  destruct (tbin (fun p o => (p * IZR o)%R) pn oh) as [prod|e]; [|reflexivity].
  cbn [mbind result_bind].
  destruct (tsum dims prod) as [inter|e]; [|reflexivity]. cbn [mbind result_bind].
  destruct (tsum dims pn) as [sum_p|e]; [|reflexivity]. cbn [mbind result_bind].
  destruct (tsum_int dims oh) as [sum_g|e]; [|reflexivity]. cbn [mbind result_bind].
  destruct (tbin (fun p g => (p + IZR g)%R) sum_p sum_g) as [summation|e]; [|reflexivity].
  cbn [mbind result_bind]. reflexivity.
Qed.

(** Summing a [B, H, W, C] tensor over [dims = (1, 2)] leaves [B, C]. *)
Lemma tsum_12 t B H W C :
  shape t = [B; H; W; C] ->
  exists y, tsum [1; 2] t = Ok y /\ shape y = [B; C]
    /\ forall b c, b < B -> c < C ->
         tget y [b; c] = rsum H (fun h => rsum W (fun w => tget t [b; h; w; c])).
Proof.
  intros St. unfold tsum. rewrite St.
  change (check_dims (length [B; H; W; C]) [] [1; 2]) with (Ok tt).
  change (reduced_dims (length [B; H; W; C]) [1; 2]) with [1; 2].
  cbn [foldr mbind result_bind].
  destruct (tsum_dim_is 2 t W) as (y2 & -> & S2 & G2); [rewrite St; reflexivity|].
  rewrite St in S2. cbn in S2. cbn [mbind result_bind].
  destruct (tsum_dim_is 1 y2 H) as (y & -> & S1 & G1); [rewrite S2; reflexivity|].
  rewrite S2 in S1. cbn in S1.
  exists y. split; [reflexivity|]. split; [exact S1|].
  intros b c Hb Hc. rewrite G1 by (rewrite S2; repeat constructor; assumption).
  cbn [take drop app]. apply rsum_ext. intros h Hh.
  rewrite G2 by (rewrite St; repeat constructor; assumption). reflexivity.
Qed.

Lemma tsum_int_12 t B H W C :
  shape t = [B; H; W; C] ->
  exists y, tsum_int [1; 2] t = Ok y /\ shape y = [B; C]
    /\ forall b c, b < B -> c < C ->
         IZR (tget y [b; c])
         = rsum H (fun h => rsum W (fun w => IZR (tget t [b; h; w; c]))).
Proof.
  intros St. unfold tsum_int. rewrite St.
  change (check_dims (length [B; H; W; C]) [] [1; 2]) with (Ok tt).
  change (reduced_dims (length [B; H; W; C]) [1; 2]) with [1; 2].
  cbn [foldr mbind result_bind].
  destruct (tsum_dim_int_is 2 t W) as (y2 & -> & S2 & G2); [rewrite St; reflexivity|].
  rewrite St in S2. cbn in S2. cbn [mbind result_bind].
  destruct (tsum_dim_int_is 1 y2 H) as (y & -> & S1 & G1); [rewrite S2; reflexivity|].
  rewrite S2 in S1. cbn in S1.
  exists y. split; [reflexivity|]. split; [exact S1|].
  intros b c Hb Hc. rewrite G1 by (rewrite S2; repeat constructor; assumption).
  cbn [take drop app]. rewrite rsum_IZR. apply rsum_ext. intros h Hh.
  rewrite G2 by (rewrite St; repeat constructor; assumption). apply rsum_IZR.
Qed.

(** [permute(0, 2, 3, 1)]: channels last. *)
Lemma permute_channels_last t B C H W :
  shape t = [B; C; H; W] ->
  exists y, permute [0; 2; 3; 1] t = Ok y /\ shape y = [B; H; W; C]
    /\ forall b h w c, b < B -> h < H -> w < W -> c < C ->
         tget y [b; h; w; c] = tget t [b; c; h; w].
Proof.
  intros St.
  destruct (permute_is [0; 2; 3; 1] t) as (y & E & Sy & Gy);
    [rewrite St; reflexivity | rewrite St; repeat constructor; set_solver|].
  rewrite St in Sy, Gy. exists y. split; [exact E|]. split; [exact Sy|].
  intros b h w c Hb Hh Hw Hc.
  rewrite Gy by (repeat constructor; assumption). reflexivity.
Qed.

(** *** The loss of a one-hot prediction that matches the class map *)

Section OneHot.
Variables (p : tensor R) (g : tensor Z) (B C H W : nat) (smooth : R).
Hypothesis Hp : shape p = [B; C; H; W].
Hypothesis Hg : shape g = [B; H; W].
Hypothesis Hwf : wf g.
Hypothesis Hcls : Forall (fun v => (0 <= v < Z.of_nat C)%Z) (data g).
Hypothesis Hoh : one_hot_of p g.
Hypothesis HC : 2 <= C.
Hypothesis HB : 0 < B.
Hypothesis HH : 0 < H.
Hypothesis HW : 0 < W.
Hypothesis Hsmooth : (0 < smooth)%R.

(** The denominator of the softmax at every pixel: [e] for the true
    class and [1] for each of the other [C - 1] classes. *)
Definition softmax_denominator : R := (exp 1 + INR (C - 1))%R.

Lemma class_in_range b h w :
  b < B -> h < H -> w < W -> (0 <= tget g [b; h; w] < Z.of_nat C)%Z.
Proof using Hg Hwf Hcls.
  clear Hp Hoh HC HB HH HW Hsmooth.
  intros Hb Hh Hw_.
  assert (tget g [b; h; w] ∈ data g) as Hin
    by (apply tget_in_data; [exact Hwf | rewrite Hg; repeat constructor; assumption]).
  rewrite Forall_forall in Hcls. apply Hcls, Hin.
Qed.

Lemma denominator_value b h w :
  b < B -> h < H -> w < W ->
  rsum C (fun k => exp (tget p [b; k; h; w])) = softmax_denominator.
Proof using Hp Hg Hwf Hcls Hoh.
  clear HC HB HH HW Hsmooth.
  intros Hb Hh Hw_. pose proof (class_in_range b h w Hb Hh Hw_) as Hc.
  rewrite (rsum_ext C _ (fun k => if decide (k = Z.to_nat (tget g [b; h; w]))
                                  then exp 1 else 1%R)).
  - rewrite rsum_indicator by lia. unfold softmax_denominator. lra.
  - intros k Hk. rewrite Hoh by (rewrite Hp; repeat constructor; assumption).
    destruct (decide (tget g [b; h; w] = Z.of_nat k)) as [E|E],
             (decide (k = Z.to_nat (tget g [b; h; w]))) as [E'|E'];
      try lia; [reflexivity | apply exp_0].
Qed.

Lemma exp_one_gt_one : (1 < exp 1)%R.
Proof using Type. pose proof (exp_ineq1 1). lra. Qed.

Lemma denominator_large : (exp 1 + 1 <= softmax_denominator)%R.
Proof using HC.
  clear Hp Hg Hwf Hcls Hoh HB HH HW Hsmooth.
  unfold softmax_denominator.
  assert (1 <= INR (C - 1))%R by (change 1%R with (INR 1); apply le_INR; lia). lra.
Qed.

(** Every softmax output lies strictly between 0 and 1. *)
Lemma softmax_strict b c h w :
  b < B -> c < C -> h < H -> w < W ->
  (0 < exp (tget p [b; c; h; w]) / softmax_denominator < 1)%R.
Proof using Hp Hg Hwf Hcls Hoh HC.
  clear HB HH HW Hsmooth.
  intros Hb Hc Hh Hw_. pose proof denominator_large as HD.
  pose proof exp_one_gt_one as He.
  assert (0 < exp (tget p [b; c; h; w]) <= exp 1)%R as [Hx0 Hx1].
  { rewrite Hoh by (rewrite Hp; repeat constructor; assumption).
    destruct (decide _); [lra | rewrite exp_0; lra]. }
  assert (0 < softmax_denominator)%R as HD0 by lra.
  pose proof (Rinv_0_lt_compat _ HD0) as Hi.
  assert (softmax_denominator * / softmax_denominator = 1)%R as E1 by (field; lra).
  unfold Rdiv. split; nra.
Qed.

Lemma one_hot_terms :
  exists dice CE,
    dice_coefficients p g C [1; 2] smooth = Ok dice
    /\ F.cross_entropy p g = Ok CE
    /\ dice_coef_loss p g C [1; 2] smooth = Ok ((1.0 - tmean dice) + CE)%R
    /\ (tmean dice < 1)%R
    /\ CE = (ln softmax_denominator - 1)%R
    /\ (0 < CE)%R.
Proof using All.
  destruct (one_hot_is g C Hcls) as (oh & Eoh & Soh & Goh).
  rewrite Hg in Soh, Goh. cbn [app] in Soh, Goh.
  destruct (softmax_is p 1 C) as (sm & Esm & Ssm & Gsm); [rewrite Hp; reflexivity|].
  rewrite Hp in Ssm, Gsm.
  destruct (permute_channels_last sm B C H W Ssm) as (pn & Epn & Spn & Gpn).
  destruct (tbin_is (fun x o => (x * IZR o)%R) pn oh _ Spn Soh) as (prod & Eprod & Sprod & Gprod).
  destruct (tsum_12 prod B H W C Sprod) as (inter & Einter & Sinter & Ginter).
  destruct (tsum_12 pn B H W C Spn) as (sum_p & Esum_p & Ssum_p & Gsum_p).
  destruct (tsum_int_12 oh B H W C Soh) as (sum_g & Esum_g & Ssum_g & Gsum_g).
  destruct (tbin_is (fun x o => (x + IZR o)%R) sum_p sum_g _ Ssum_p Ssum_g)
    as (summation & Esummation & Ssummation & Gsummation).
  pose proof denominator_large as HD. pose proof exp_one_gt_one as He.
  (* the value of the normalised prediction at a pixel *)
  assert (Hpn : forall b h w c, b < B -> h < H -> w < W -> c < C ->
            tget pn [b; h; w; c]
            = (exp (tget p [b; c; h; w]) / softmax_denominator)%R).
  { intros b h w c Hb Hh Hw_ Hc. rewrite Gpn by assumption.
    rewrite Gsm by (repeat constructor; assumption).
    cbn [insert list_insert]. rewrite denominator_value by assumption. reflexivity. }
  (* the one-hot tensor holds zeros and ones *)
  assert (Hone : forall b h w c, b < B -> h < H -> w < W -> c < C ->
            IZR (tget oh [b; h; w; c]) = 0%R \/ IZR (tget oh [b; h; w; c]) = 1%R).
  { intros b h w c Hb Hh Hw_ Hc. rewrite Goh by (repeat constructor; assumption).
    destruct (decide _); [right | left]; reflexivity. }
  (* the tensor of the Dice coefficients and its mean *)
  assert (exists dice, dice_coefficients p g C [1; 2] smooth = Ok dice
                       /\ (tmean dice < 1)%R) as (dice & Edice & Hdice).
  { eexists. split.
    { unfold dice_coefficients.
      rewrite Eoh. cbn [mbind result_bind]. rewrite Esm. cbn [mbind result_bind].
      rewrite Epn. cbn [mbind result_bind]. rewrite Eprod. cbn [mbind result_bind].
      rewrite Einter. cbn [mbind result_bind]. rewrite Esum_p. cbn [mbind result_bind].
      rewrite Esum_g. cbn [mbind result_bind]. rewrite Esummation. cbn [mbind result_bind].
      apply (tbin_same _ _ _ [B; C]); cbn; assumption. }
    apply tmean_tinit_lt; [simpl; nia|].
    intros idx Hr. rewrite bidx_same by exact Hr.
    rewrite (proj2 (tmap_is (fun x => (2.0 * x + smooth)%R) inter))
      by (rewrite Sinter; exact Hr).
    rewrite (proj2 (tmap_is (fun x => (x + smooth)%R) summation))
      by (rewrite Ssummation; exact Hr).
    rewrite Gsummation by exact Hr.
    inversion Hr as [|b ? idx1 ? Hb Hr1]; subst.
    inversion Hr1 as [|c ? idx2 ? Hc Hr2]; subst.
    inversion Hr2; subst.
    rewrite Ginter, Gsum_p, Gsum_g by assumption.
    set (I := rsum H (fun h => rsum W (fun w => tget prod [b; h; w; c]))).
    set (P := rsum H (fun h => rsum W (fun w => tget pn [b; h; w; c]))).
    set (G := rsum H (fun h => rsum W (fun w => IZR (tget oh [b; h; w; c])))).
    assert (0 <= I)%R as HI.
    { apply rsum2_nonneg. intros h w Hh Hw_.
      rewrite Gprod by (repeat constructor; assumption).
      rewrite Hpn by assumption.
      pose proof (softmax_strict b c h w Hb Hc Hh Hw_).
      destruct (Hone b h w c Hb Hh Hw_ Hc) as [-> | ->]; lra. }
    assert (2 * I < P + G)%R as Hlt.
    { unfold I, P, G. rewrite <- rsum2_scal, <- rsum2_plus.
      apply rsum2_lt; [exact HH | exact HW|]. intros h w Hh Hw_.
      rewrite Gprod by (repeat constructor; assumption).
      rewrite Hpn by assumption.
      pose proof (softmax_strict b c h w Hb Hc Hh Hw_).
      destruct (Hone b h w c Hb Hh Hw_ Hc) as [-> | ->]; lra. }
    assert (0 < P + G + smooth)%R as Hden by lra.
    pose proof (Rinv_0_lt_compat _ Hden) as Hi.
    assert ((P + G + smooth) * / (P + G + smooth) = 1)%R as E1 by (field; lra).
    unfold Rdiv. nra. }
  (* the cross-entropy *)
  assert (exists CE, F.cross_entropy p g = Ok CE
                     /\ CE = (ln softmax_denominator - 1)%R) as (ce & Ece & Hce).
  { eexists. split.
    { unfold F.cross_entropy. rewrite Hp, Hg.
      rewrite !bool_decide_eq_true_2 by reflexivity.
      assert (forallb (fun v => (0 <=? v)%Z && (v <? Z.of_nat C)%Z) (data g) = true) as ->.
      { apply forallb_forall. intros v Hv. rewrite Forall_forall in Hcls.
        apply list_elem_of_In, Hcls in Hv. lia. }
      reflexivity. }
    apply tmean_tinit_const; [simpl; nia|].
    intros idx Hr.
    inversion Hr as [|b ? idx1 ? Hb Hr1]; subst.
    inversion Hr1 as [|h ? idx2 ? Hh Hr2]; subst.
    inversion Hr2 as [|w ? idx3 ? Hw_ Hr3]; subst.
    inversion Hr3; subst. cbn [hd tail].
    pose proof (class_in_range b h w Hb Hh Hw_) as Hc.
    rewrite denominator_value by assumption.
    rewrite Hoh by (rewrite Hp; repeat constructor; [assumption | lia | assumption | assumption]).
    rewrite decide_True by lia. lra. }
  exists dice, ce. split; [exact Edice|]. split; [exact Ece|]. split.
  { rewrite dice_coef_loss_parts, Edice. cbn [mbind result_bind].
    rewrite Ece. reflexivity. }
  split; [exact Hdice|]. split; [exact Hce|].
  rewrite Hce.
  assert (0 < exp 1)%R as He0 by lra.
  assert (exp 1 < softmax_denominator)%R as Hlt by lra.
  apply ln_increasing in Hlt; [|exact He0]. rewrite ln_exp in Hlt. lra.
Qed.

End OneHot.

(** The smallest instance: one sample, one pixel, two classes; the pixel is
    of class 0 and the prediction is its one-hot encoding [1, 0]. *)
Definition tiny_predictions : tensor R := Tensor [1; 2; 1; 1] [1%R; 0%R].
Definition tiny_ground_truths : tensor Z := Tensor [1; 1; 1] [0%Z].

Lemma tiny_one_hot : one_hot_of tiny_predictions tiny_ground_truths.
Proof.
  intros b c h w Hr. simpl in Hr.
  inversion Hr as [|? ? ? ? Hb Hr1]; subst.
  inversion Hr1 as [|? ? ? ? Hc Hr2]; subst.
  inversion Hr2 as [|? ? ? ? Hh Hr3]; subst.
  inversion Hr3 as [|? ? ? ? Hw Hr4]; subst.
  assert (b = 0) as -> by lia. assert (h = 0) as -> by lia.
  assert (w = 0) as -> by lia.
  destruct c as [|[|c]]; [reflexivity | reflexivity | lia].
Qed.

(** C9 (as the code has it). [dice_coef_loss] takes its predictions as
    logits: it applies the softmax before the Dice term and inside the
    cross-entropy. So for a prediction that is exactly the one-hot encoding
    of the class map ([C >= 2] classes, a non-empty batch of non-empty
    images, [smooth > 0]): the function returns [(1 - dice.mean()) + CE],
    where [dice] is the tensor of Dice coefficients that its statements
    compute and [CE] is [F.cross_entropy] of the predictions; the mean of
    [dice] stays strictly below 1; [CE] is [ln (e + C - 1) - 1], which is
    positive; and the returned total is strictly positive. *)
Theorem dice_coef_loss_one_hot (p : tensor R) (g : tensor Z)
    (B C H W : nat) (smooth : R) :
  shape p = [B; C; H; W] ->
  shape g = [B; H; W] ->
  wf g ->
  Forall (fun v => (0 <= v < Z.of_nat C)%Z) (data g) ->
  one_hot_of p g ->
  2 <= C -> 0 < B -> 0 < H -> 0 < W -> (0 < smooth)%R ->
  exists dice CE,
    dice_coefficients p g C [1; 2] smooth = Ok dice
    /\ F.cross_entropy p g = Ok CE
    /\ dice_coef_loss p g C [1; 2] smooth = Ok ((1.0 - tmean dice) + CE)%R
    /\ (tmean dice < 1)%R
    /\ CE = (ln (exp 1 + INR (C - 1)) - 1)%R
    /\ (0 < CE)%R
    /\ (0 < (1.0 - tmean dice) + CE)%R.
Proof.
  intros Hp Hg Hwf Hcls Hoh HC HB HH HW Hs.
  destruct (one_hot_terms p g B C H W smooth Hp Hg Hwf Hcls Hoh HC HB HH HW Hs)
    as (dice & ce & Edice & Ece & E & Hdm & Hce & Hpos).
  exists dice, ce. repeat split; try assumption. lra.
Qed.

Lemma dice_coef_loss_one_hot_witness :
  exists dice CE,
    dice_coefficients tiny_predictions tiny_ground_truths 2 [1; 2] default_smooth = Ok dice
    /\ F.cross_entropy tiny_predictions tiny_ground_truths = Ok CE
    /\ dice_coef_loss tiny_predictions tiny_ground_truths 2 [1; 2] default_smooth
       = Ok ((1.0 - tmean dice) + CE)%R
    /\ (tmean dice < 1)%R
    /\ CE = (ln (exp 1 + INR (2 - 1)) - 1)%R
    /\ (0 < CE)%R
    /\ (0 < (1.0 - tmean dice) + CE)%R.
Proof.
  apply (dice_coef_loss_one_hot tiny_predictions tiny_ground_truths 1 2 1 1).
  - reflexivity.
  - reflexivity.
  - reflexivity.
  - constructor; [lia | constructor].
  - exact tiny_one_hot.
  - lia.
  - lia.
  - lia.
  - lia.
  - unfold default_smooth. lra.
Defined.

(** The claim as the spec words it fails on the smallest instance: the
    prediction is the exact one-hot encoding of the class map and the
    returned total is not 0. *)
Lemma dice_coef_loss_one_hot_not_zero :
  one_hot_of tiny_predictions tiny_ground_truths
  /\ dice_coef_loss tiny_predictions tiny_ground_truths
       default_num_classes default_dims default_smooth <> Ok 0%R.
Proof.
  split; [exact tiny_one_hot|].
  destruct (one_hot_terms tiny_predictions tiny_ground_truths 1 2 1 1 default_smooth)
    as (dice & ce & _ & _ & E & Hdm & _ & Hpos);
    try reflexivity; try lia; try exact tiny_one_hot;
    [constructor; [lia | constructor] | unfold default_smooth; lra |].
  unfold default_num_classes, default_dims. rewrite E. intros [= H0]. lra.
Qed.

End DiceLoss.

(** ** What a training step touches outside itself *)

Module Runtime.
Import Torch.

(** The denoising networks of the two modules. *)
Inductive network :=
| Diffusion            (* segmentation_diffuser_one: the class-conditioned network *)
| DiffusionImage
| DiffusionLabel
| FromImageToLabel
| FromLabelToImage.

(** A network takes one timestep per sample, or one for the whole batch. *)
Inductive timestep_arg :=
| PerSample (ts : list Z)
| Scalar (t : Z).

(** What the step does to its collaborators, in order. A forward pass and
    a scheduler step record whether gradient mode was on when they ran. *)
Inductive event :=
| Forward (net : network) (grad : bool) (x : tensor R) (t : timestep_arg)
          (class_labels : option (list Z))
| SchedulerStep (grad : bool) (model_output : tensor R) (t : Z) (sample : tensor R)
| LogScalar (name : string) (value : R) (on_step : bool)
| LogImage (name : string) (grid : tensor R) (step : Z).

(** The collaborators whose code is outside the repository: torch's
    random generators (one draw at a time), the reverse-diffusion update of
    the scheduler, and torchvision's grid composer. *)
Class Externals := {
  generator : Type;
  gauss : generator -> R * generator;
  uniform : generator -> R * generator;
  uniform_int : Z -> Z -> generator -> Z * generator;
  ddpm_step : list R -> tensor R -> Z -> tensor R -> generator
              -> result (tensor R) * generator;
  make_grid : tensor R -> result (tensor R)
}.

(** [uniform_int low high] returns an integer of [low, high). *)
Definition uniform_int_in_range `{Externals} : Prop :=
  forall low high g, (low < high)%Z -> (low <= fst (uniform_int low high g) < high)%Z.

Section WithExternals.
Context `{Externals}.

Record world := World {
  rng : generator;
  grad_enabled : bool;
  trace : list event
}.

Definition emit (e : event) : M world unit :=
  modify (fun w => World (rng w) (grad_enabled w) (trace w ++ [e])).

(** [n] successive draws. *)
Fixpoint draw {A} (one : generator -> A * generator) (n : nat) (g : generator)
  : list A * generator :=
  match n with
  | 0 => ([], g)
  | S n' =>
      let '(x, g1) := one g in
      let '(xs, g2) := draw one n' g1 in
      (x :: xs, g2)
  end.

Definition with_rng {A} (f : generator -> A * generator) : M world A := fun w =>
  let '(a, g) := f (rng w) in (Ok a, World g (grad_enabled w) (trace w)).

(** [torch.randn_like(x)] *)
Definition randn_like (x : tensor R) : M world (tensor R) :=
  d ← with_rng (draw gauss (numel (shape x)));
  mret (Tensor (shape x) d).

(** [torch.randint(low, high, (n,))] *)
Definition randint (low high : Z) (n : nat) : M world (list Z) :=
  if (high <=? low)%Z
  then raise (RuntimeError "random_ expects 'from' to be less than 'to'")
  else with_rng (draw (uniform_int low high) n).

(** [torch.rand(n)] *)
Definition rand (n : nat) : M world (list R) := with_rng (draw uniform n).

(** [with torch.no_grad(): body]: gradient mode is off inside and is put
    back on the way out, also when the body raises. *)
Definition no_grad {A} (body : M world A) : M world A := fun w =>
  let '(r, w1) := body (World (rng w) false (trace w)) in
  (r, World (rng w1) (grad_enabled w) (trace w1)).

(** A forward pass of a network given as a function of its inputs. *)
Definition forward (net : network)
    (f : tensor R -> timestep_arg -> option (list Z) -> result (tensor R))
    (x : tensor R) (t : timestep_arg) (class_labels : option (list Z))
  : M world (tensor R) :=
  w ← get;
  _ ← emit (Forward net (grad_enabled w) x t class_labels);
  lift (f x t class_labels).

(** [noise_scheduler.step(model_output, t, sample).prev_sample] *)
Definition run_ddpm_step (table : list R) (model_output : tensor R) (t : Z)
    (sample : tensor R) : M world (tensor R) := fun w =>
  let '(r, g) := ddpm_step table model_output t sample (rng w) in
  (r, World g (grad_enabled w) (trace w)).

Definition scheduler_step (table : list R) (model_output : tensor R) (t : Z)
    (sample : tensor R) : M world (tensor R) :=
  w ← get;
  _ ← emit (SchedulerStep (grad_enabled w) model_output t sample);
  run_ddpm_step table model_output t sample.

(** [self.log(name, value, on_step=...)] *)
Definition log (name : string) (value : R) (on_step : bool) : M world unit :=
  emit (LogScalar name value on_step).

(** [nn.SmoothL1Loss(reduction="mean", beta=beta)] *)
Definition smooth_l1 (beta : R) (x y : R) : R :=
  let d := Rabs (x - y) in
  if Rlt_dec d beta then (0.5 * d * d / beta)%R else (d - 0.5 * beta)%R.

Definition SmoothL1Loss (beta : R) (input target : tensor R) : result R :=
  d ← tbin (smooth_l1 beta) input target; Ok (tmean d).

(** [x * a + b] with scalars [a] and [b]. *)
Definition affine (a b : R) (x : tensor R) : tensor R :=
  tmap (fun v => (v * a + b)%R) x.

(** [torch.cat(ts, dim=-1)] *)
Fixpoint pick_last (pre : list nat) (j : nat) (ts : list (tensor R)) : R :=
  match ts with
  | [] => 0%R
  | t :: ts' =>
      let n := default 0 (last (shape t)) in
      if j <? n then tget t (pre ++ [j]) else pick_last pre (j - n) ts'
  end.

Definition cat_last (ts : list (tensor R)) : result (tensor R) :=
  match ts with
  | [] => Raise (RuntimeError "torch.cat(): expected a non-empty list of Tensors")
  | t0 :: _ =>
      let pre := removelast (shape t0) in
      if forallb (fun t => bool_decide (shape t <> [] /\ removelast (shape t) = pre)) ts then
        Ok (tinit (pre ++ [foldr (fun t n => default 0 (last (shape t)) + n) 0 ts])
              (fun idx => pick_last (removelast idx) (default 0 (last idx)) ts))
      else Raise (RuntimeError "Sizes of tensors must match except in dimension -1")
  end.

(** [t.transpose(2, 3)] *)
Definition transpose_2_3 (t : tensor R) : result (tensor R) :=
  let rank := length (shape t) in
  if rank <? 4 then Raise IndexError
  else permute ([0; 1; 3; 2] ++ seq 4 (rank - 4)) t.

(** [t.clamp(0., 1.)] *)
Definition clamp01 (t : tensor R) : tensor R :=
  tmap (fun v => Rmax 0 (Rmin v 1)) t.

(** The noise tensors and the timesteps of a step, as the draws that
    a step makes from the generator it is started with: first the
    paired noise, then the unsup noise, then one timestep per sample. *)
Definition paired_noise (image : tensor R) (g : generator) : tensor R :=
  Tensor (shape image) (fst (draw gauss (numel (shape image)) g)).

Definition after_paired_noise (image : tensor R) (g : generator) : generator :=
  snd (draw gauss (numel (shape image)) g).

Definition unsup_noise (image unsup : tensor R) (g : generator) : tensor R :=
  Tensor (shape unsup)
         (fst (draw gauss (numel (shape unsup)) (after_paired_noise image g))).

Definition after_unsup_noise (image unsup : tensor R) (g : generator) : generator :=
  snd (draw gauss (numel (shape unsup)) (after_paired_noise image g)).

Definition drawn_timesteps (T : nat) (image unsup : tensor R)
    (bs : nat) (g : generator) : list Z :=
  fst (draw (uniform_int 0 (Z.of_nat T)) bs
            (after_unsup_noise image unsup g)).

Definition after_timesteps (T : nat) (image unsup : tensor R)
    (bs : nat) (g : generator) : generator :=
  snd (draw (uniform_int 0 (Z.of_nat T)) bs
            (after_unsup_noise image unsup g)).

(** *** Running the primitives *)

Lemma raise_not_Ok {S A} (e : exn) (s : S) (a : A) s1 :
  raise e s = (Ok a, s1) -> False.
Proof. discriminate. Qed.

Lemma get_Ok (w : world) x w1 : get w = (Ok x, w1) -> x = w /\ w1 = w.
Proof. intros [= <- <-]. split; reflexivity. Qed.

Lemma emit_run e w :
  emit e w = (Ok tt, World (rng w) (grad_enabled w) (trace w ++ [e])).
Proof. reflexivity. Qed.

Lemma with_rng_run {A} (f : generator -> A * generator) w :
  with_rng f w = (Ok (fst (f (rng w))), World (snd (f (rng w))) (grad_enabled w) (trace w)).
Proof. unfold with_rng. destruct (f (rng w)). reflexivity. Qed.

Lemma randn_like_run x w :
  randn_like x w
  = (Ok (Tensor (shape x) (fst (draw gauss (numel (shape x)) (rng w)))),
     World (snd (draw gauss (numel (shape x)) (rng w))) (grad_enabled w) (trace w)).
Proof.
  unfold randn_like. rewrite (bind_run _ _ _ _ _ (with_rng_run _ w)). reflexivity.
Qed.

Lemma randint_Ok low high n w ts w1 :
  randint low high n w = (Ok ts, w1) ->
  (low < high)%Z
  /\ ts = fst (draw (uniform_int low high) n (rng w))
  /\ w1 = World (snd (draw (uniform_int low high) n (rng w))) (grad_enabled w) (trace w).
Proof.
  unfold randint. destruct (Z.leb_spec high low) as [E|E]; [discriminate|].
  rewrite with_rng_run. intros [= <- <-]. repeat split. exact E.
Qed.

Lemma randint_run low high n w :
  (low < high)%Z ->
  randint low high n w
  = (Ok (fst (draw (uniform_int low high) n (rng w))),
     World (snd (draw (uniform_int low high) n (rng w))) (grad_enabled w) (trace w)).
Proof.
  intros E. unfold randint. destruct (Z.leb_spec high low); [lia|]. apply with_rng_run.
Qed.

Lemma forward_run net f x t c w :
  forward net f x t c w
  = (f x t c, World (rng w) (grad_enabled w)
                    (trace w ++ [Forward net (grad_enabled w) x t c])).
Proof. reflexivity. Qed.

Lemma log_run name v b w :
  log name v b w = (Ok tt, World (rng w) (grad_enabled w) (trace w ++ [LogScalar name v b])).
Proof. reflexivity. Qed.

Lemma length_draw {A} (one : generator -> A * generator) n g :
  length (fst (draw one n g)) = n.
Proof.
  revert g. induction n as [|n IH]; intros g; simpl; [reflexivity|].
  destruct (one g) as [x g1]. specialize (IH g1).
  destruct (draw one n g1) as [xs g2]. simpl in *. rewrite IH. reflexivity.
Qed.

Lemma draw_Forall {A} (P : A -> Prop) (one : generator -> A * generator) n g :
  (forall g', P (fst (one g'))) -> Forall P (fst (draw one n g)).
Proof.
  intros HP. revert g. induction n as [|n IH]; intros g; simpl; [constructor|].
  specialize (HP g). destruct (one g) as [x g1]. specialize (IH g1).
  destruct (draw one n g1) as [xs g2]. simpl in *. constructor; assumption.
Qed.

(** *** Gradient mode

    A computation keeps to the gradient mode it is started in: it leaves
    the flag as it found it, it only adds events to the record, and every
    forward pass and scheduler step that it adds carries that flag. *)
Definition event_grad_is (b : bool) (e : event) : Prop :=
  match e with
  | Forward _ g _ _ _ => g = b
  | SchedulerStep g _ _ _ => g = b
  | LogScalar _ _ _ => True
  | LogImage _ _ _ => True
  end.

(** The networks that were invoked, in order. *)
Definition invoked (evs : list event) : list network :=
  omap (fun e => match e with Forward net _ _ _ _ => Some net | _ => None end) evs.

Definition keeps_mode {A} (m : M world A) : Prop :=
  forall w r w1, m w = (r, w1) ->
    grad_enabled w1 = grad_enabled w
    /\ exists evs, trace w1 = trace w ++ evs /\ Forall (event_grad_is (grad_enabled w)) evs.

Lemma keeps_mode_pure {A} (m : M world A) :
  (forall w, snd (m w) = w) -> keeps_mode m.
Proof.
  intros Hm w r w1 E. specialize (Hm w). rewrite E in Hm. simpl in Hm. subst w1.
  split; [reflexivity|]. exists []. rewrite app_nil_r. split; [reflexivity | constructor].
Qed.

Lemma keeps_mode_ret {A} (a : A) : keeps_mode (mret a).
Proof. apply keeps_mode_pure. reflexivity. Qed.

Lemma keeps_mode_lift {A} (r : result A) : keeps_mode (lift r).
Proof. apply keeps_mode_pure. reflexivity. Qed.

Lemma keeps_mode_raise {A} e : keeps_mode (raise e : M world A).
Proof. apply keeps_mode_pure. reflexivity. Qed.

Lemma keeps_mode_bind {A B} (m : M world A) (f : A -> M world B) :
  keeps_mode m -> (forall a, keeps_mode (f a)) -> keeps_mode (m ≫= f).
Proof.
  intros Hm Hf w r w2 E. unfold mbind, M_bind in E.
  destruct (m w) as [[a|e] w1] eqn:Em.
  - destruct (Hm _ _ _ Em) as (G1 & evs1 & T1 & F1).
    destruct (Hf a _ _ _ E) as (G2 & evs2 & T2 & F2).
    split; [congruence|]. exists (evs1 ++ evs2).
    split; [rewrite T2, T1, app_assoc; reflexivity|].
    apply Forall_app. split; [exact F1 | rewrite <- G1; exact F2].
  - injection E as <- <-. exact (Hm _ _ _ Em).
Qed.

Lemma keeps_mode_with_rng {A} (f : generator -> A * generator) : keeps_mode (with_rng f).
Proof.
  intros w r w1 E. rewrite with_rng_run in E. injection E as <- <-. simpl.
  split; [reflexivity|]. exists []. rewrite app_nil_r. split; [reflexivity | constructor].
Qed.

Lemma keeps_mode_randn_like x : keeps_mode (randn_like x).
Proof.
  apply keeps_mode_bind; [apply keeps_mode_with_rng | intros; apply keeps_mode_ret].
Qed.

Lemma keeps_mode_forward net f x t c : keeps_mode (forward net f x t c).
Proof.
  intros w r w1 E. rewrite forward_run in E. injection E as <- <-. simpl.
  split; [reflexivity|]. eexists. split; [reflexivity|].
  constructor; [reflexivity | constructor].
Qed.

Lemma scheduler_step_run table out t sample w :
  scheduler_step table out t sample w
  = (fst (ddpm_step table out t sample (rng w)),
     World (snd (ddpm_step table out t sample (rng w))) (grad_enabled w)
           (trace w ++ [SchedulerStep (grad_enabled w) out t sample])).
Proof.
  change (scheduler_step table out t sample w)
    with (run_ddpm_step table out t sample
            (World (rng w) (grad_enabled w)
                   (trace w ++ [SchedulerStep (grad_enabled w) out t sample]))).
  unfold run_ddpm_step. simpl. destruct (ddpm_step table out t sample (rng w)). reflexivity.
Qed.

Lemma keeps_mode_scheduler_step table out t sample :
  keeps_mode (scheduler_step table out t sample).
Proof.
  intros w r w1 E. rewrite scheduler_step_run in E. injection E as <- <-. simpl.
  split; [reflexivity|]. eexists. split; [reflexivity|].
  constructor; [reflexivity | constructor].
Qed.

Lemma keeps_mode_emit_log name v b : keeps_mode (log name v b).
Proof.
  intros w r w1 E. rewrite log_run in E. injection E as <- <-. simpl.
  split; [reflexivity|]. eexists. split; [reflexivity|].
  constructor; [exact I | constructor].
Qed.

Lemma keeps_mode_emit_image name grid step : keeps_mode (emit (LogImage name grid step)).
Proof.
  intros w r w1 E. rewrite emit_run in E. injection E as <- <-. simpl.
  split; [reflexivity|]. eexists. split; [reflexivity|].
  constructor; [exact I | constructor].
Qed.

(** Under [torch.no_grad()] every forward pass and scheduler step of the
    body runs with gradient mode off, and the mode of the caller is back
    afterwards. *)
Lemma no_grad_off {A} (body : M world A) :
  keeps_mode body ->
  forall w r w1, no_grad body w = (r, w1) ->
    grad_enabled w1 = grad_enabled w
    /\ exists evs, trace w1 = trace w ++ evs /\ Forall (event_grad_is false) evs.
Proof.
  intros Hb w r w1 E. unfold no_grad in E.
  destruct (body (World (rng w) false (trace w))) as [r' w'] eqn:Eb.
  injection E as <- <-. simpl.
  destruct (Hb _ _ _ Eb) as (_ & evs & T1 & F1). simpl in T1, F1.
  split; [reflexivity|]. exists evs. split; assumption.
Qed.

(** A computation is quiet when it restores the gradient mode and every
    forward pass and scheduler step that it adds ran with the mode off. *)
Definition quiet {A} (m : M world A) : Prop :=
  forall w r w1, m w = (r, w1) ->
    grad_enabled w1 = grad_enabled w
    /\ exists evs, trace w1 = trace w ++ evs /\ Forall (event_grad_is false) evs.

Lemma quiet_no_grad {A} (body : M world A) : keeps_mode body -> quiet (no_grad body).
Proof. intros Hb w r w1 E. exact (no_grad_off body Hb w r w1 E). Qed.

Lemma quiet_pure {A} (m : M world A) : (forall w, snd (m w) = w) -> quiet m.
Proof.
  intros Hm w r w1 E. specialize (Hm w). rewrite E in Hm. simpl in Hm. subst w1.
  split; [reflexivity|]. exists []. rewrite app_nil_r. split; [reflexivity | constructor].
Qed.

Lemma quiet_bind {A B} (m : M world A) (f : A -> M world B) :
  quiet m -> (forall a, quiet (f a)) -> quiet (m ≫= f).
Proof.
  intros Hm Hf w r w2 E. unfold mbind, M_bind in E.
  destruct (m w) as [[a|e] w1] eqn:Em.
  - destruct (Hm _ _ _ Em) as (G1 & evs1 & T1 & F1).
    destruct (Hf a _ _ _ E) as (G2 & evs2 & T2 & F2).
    split; [congruence|]. exists (evs1 ++ evs2).
    split; [rewrite T2, T1, app_assoc; reflexivity|].
    apply Forall_app. split; assumption.
  - injection E as <- <-. exact (Hm _ _ _ Em).
Qed.

Lemma quiet_emit_image name grid step : quiet (emit (LogImage name grid step)).
Proof.
  intros w r w1 E. rewrite emit_run in E. injection E as <- <-. simpl.
  split; [reflexivity|]. eexists. split; [reflexivity|].
  constructor; [exact I | constructor].
Qed.

End WithExternals.
End Runtime.

(** ** [segmentation_diffuser_two.py]: [DDMMLightningModule] *)

Module DiffuserTwo.
Import Torch Runtime.

Record hparams := Hparams {
  lr : R;
  epochs : nat;
  weight_decay : R;
  timesteps : nat;
  batch_size : nat;
  shape_ : nat;
  is_use_cycle : bool
}.

(** [UNet2DModel.forward(x, t).sample], with the parameters the network has
    during the step. *)
Definition unet := tensor R -> timestep_arg -> result (tensor R).

(** The attributes of the module that the step reads. The two translation
    networks exist only when [__init__] ran with [is_use_cycle]. *)
Record DDMMLightningModule := Module_ {
  hp : hparams;
  diffusion_image : unet;
  diffusion_label : unet;
  diffusion_from_image_to_label : option unet;
  diffusion_from_label_to_image : option unet;
  global_step : Z
}.

(** [__init__], given the freshly built networks. *)
Definition __init__ (h : hparams) (image label image_to_label label_to_image : unet)
  : DDMMLightningModule :=
  Module_ h image label
          (if is_use_cycle h then Some image_to_label else None)
          (if is_use_cycle h then Some label_to_image else None)
          0.

Section Step.
Context `{Externals}.

(** [self.noise_scheduler = DDPMScheduler(num_train_timesteps=self.timesteps,
    beta_schedule="squaredcos_cap_v2")] *)
Definition num_train_timesteps (self : DDMMLightningModule) : nat := timesteps (hp self).
Definition alphas_cumprod (self : DDMMLightningModule) : list R :=
  Scheduler.alphas_cumprod (num_train_timesteps self).

(** [self.l1_loss = nn.SmoothL1Loss(reduction="mean", beta=0.02)] *)
Definition l1_loss : tensor R -> tensor R -> result R := SmoothL1Loss 0.02%R.

Definition add_noise (self : DDMMLightningModule) :=
  Scheduler.add_noise (alphas_cumprod self).

Definition getattr (name : string) (o : option unet) : M world unet :=
  match o with
  | Some f => mret f
  | None => raise (AttributeError name)
  end.

Definition unet_forward (net : network) (f : unet) (x : tensor R) (t : timestep_arg)
  : M world (tensor R) :=
  forward net (fun x t _ => f x t) x t None.

(** [torch.zeros_like(timesteps)] *)
Definition zeros_like (ts : list Z) : list Z := map (fun _ => 0%Z) ts.

(** The four cycle terms, added to the supervised loss ([lines 510-519]). *)
Definition cycle_terms (self : DDMMLightningModule)
    (image label mid_i mid_l : tensor R) (ts : list Z) : M world R :=
  f_il ← getattr "diffusion_from_image_to_label" (diffusion_from_image_to_label self);
  pred_label ← unet_forward FromImageToLabel f_il mid_i (PerSample (zeros_like ts));
  f_li ← getattr "diffusion_from_label_to_image" (diffusion_from_label_to_image self);
  pred_image ← unet_forward FromLabelToImage f_li mid_l (PerSample (zeros_like ts));
  c1 ← lift (l1_loss pred_image mid_i);
  c2 ← lift (l1_loss pred_label mid_l);
  c3 ← lift (l1_loss pred_image image);
  c4 ← lift (l1_loss pred_label label);
  mret (c1 + c2 + c3 + c4)%R.

(** [_common_step], from the batch lookup to [loss = super_loss + unsup_loss]
    ([lines 481-548]). The tensors of the batch are returned with the loss
    for the visualization that follows. *)
Definition losses (self : DDMMLightningModule) (batch : gmap string (tensor R))
    (stage : string) : M world (tensor R * tensor R * tensor R * R) :=
  image ← lift (dict_get batch "image");
  label ← lift (dict_get batch "label");
  unsup ← lift (dict_get batch "unsup");
  rng_p ← randn_like image;
  rng_u ← randn_like unsup;
  bs ← lift (shape0 image);
  ts ← randint 0 (Z.of_nat (num_train_timesteps self)) bs;
  mid_i ← lift (add_noise self (affine 2.0 (-1.0) image) rng_p ts);
  mid_l ← lift (add_noise self (affine 2.0 (-1.0) label) rng_p ts);
  est_i ← unet_forward DiffusionImage (diffusion_image self) mid_i (PerSample ts);
  est_l ← unet_forward DiffusionLabel (diffusion_label self) mid_l (PerSample ts);
  a1 ← lift (l1_loss est_i rng_p);
  a2 ← lift (l1_loss est_l rng_p);
  a3 ← lift (l1_loss est_i image);
  a4 ← lift (l1_loss est_l label);
  let super_loss := (a1 + a2 + a3 + a4)%R in
  super_loss ← (if is_use_cycle (hp self)
                then c ← cycle_terms self image label mid_i mid_l ts;
                     mret (super_loss + c)%R
                else mret super_loss);
  mid_u ← lift (add_noise self (affine 2.0 (-1.0) unsup) rng_u ts);
  est_u ← unet_forward DiffusionImage (diffusion_image self) mid_u (PerSample ts);
  u1 ← lift (l1_loss est_u rng_u);
  u2 ← lift (l1_loss est_u unsup);
  let unsup_loss := (u1 + u2)%R in
  _ ← log (stage +:+ "_super_loss") super_loss true;
  _ ← log (stage +:+ "_unsup_loss") unsup_loss true;
  mret (image, label, unsup, (super_loss + unsup_loss)%R).

(** The body of the sampling loop, for the timesteps that are left. *)
Fixpoint sample_loop (self : DDMMLightningModule) (steps : list Z)
    (sam_i sam_l : tensor R) (cycle : option (tensor R * tensor R))
  : M world (tensor R * tensor R * option (tensor R * tensor R)) :=
  match steps with
  | [] => mret (sam_i, sam_l, cycle)
  | t :: steps' =>
      res_i ← unet_forward DiffusionImage (diffusion_image self) sam_i (Scalar t);
      res_l ← unet_forward DiffusionLabel (diffusion_label self) sam_l (Scalar t);
      cycle ← (if is_use_cycle (hp self)
               then f_li ← getattr "diffusion_from_label_to_image"
                                   (diffusion_from_label_to_image self);
                    cycle_i ← unet_forward FromLabelToImage f_li sam_l (Scalar t);
                    f_il ← getattr "diffusion_from_image_to_label"
                                   (diffusion_from_image_to_label self);
                    cycle_l ← unet_forward FromImageToLabel f_il sam_i (Scalar t);
                    mret (Some (cycle_i, cycle_l))
               else mret cycle);
      sam_i ← scheduler_step (alphas_cumprod self) res_i t sam_i;
      sam_l ← scheduler_step (alphas_cumprod self) res_l t sam_l;
      sample_loop self steps' sam_i sam_l cycle
  end.

(** The block under [with torch.no_grad()] ([lines 551-570]). *)
Definition sample (self : DDMMLightningModule) (image : tensor R)
  : M world (tensor R * tensor R * option (tensor R * tensor R)) :=
  no_grad (
    rng ← randn_like image;
    '(sam_i, sam_l, cycle) ←
      sample_loop self (Scheduler.timesteps (num_train_timesteps self)) rng rng None;
    mret (affine 0.5 0.5 sam_i, affine 0.5 0.5 sam_l, cycle)).

(** The branch under [if batch_idx == 0] ([lines 550-590]). *)
Definition visualize (self : DDMMLightningModule) (image label unsup : tensor R)
    (stage : string) : M world unit :=
  '(sam_i, sam_l, cycle) ← sample self image;
  tensors ← (if is_use_cycle (hp self)
             then match cycle with
                  | Some (cycle_i, cycle_l) =>
                      mret [image; label; sam_i; sam_l; cycle_i; cycle_l; unsup]
                  | None => raise (NameError "cycle_i")
                  end
             else mret [image; label; sam_i; sam_l; unsup]);
  cat ← lift (cat_last tensors);
  viz2d ← lift (transpose_2_3 cat);
  grid ← lift (make_grid viz2d);
  emit (LogImage (stage +:+ "__samples") (clamp01 grid) (global_step self `div` 10)).

Definition _common_step (self : DDMMLightningModule) (batch : gmap string (tensor R))
    (batch_idx : Z) (optimizer_idx : Z) (stage : string) : M world (gmap string R) :=
  '(image, label, unsup, loss) ← losses self batch stage;
  _ ← (if (batch_idx =? 0)%Z then visualize self image label unsup stage else mret tt);
  mret {["loss" := loss]}.

Definition training_step self batch batch_idx :=
  _common_step self batch batch_idx 0 "train".

Definition validation_step self batch batch_idx :=
  _common_step self batch batch_idx 0 "validation".

Definition test_step self batch batch_idx :=
  _common_step self batch batch_idx 0 "test".

(** *** What a completed run of [losses] did *)

(** The equal-weight sum of the smooth-L1 losses of a list of
    (prediction, target) pairs. *)
Definition sum_of_losses (pairs : list (tensor R * tensor R)) : result R :=
  vs ← mapM (fun p => l1_loss p.1 p.2) pairs; Ok (sumR vs).

(** The (prediction, target) pairs and the forward passes of the cycle
    branch: none when cycle mode is off. *)
Definition cycle_branch (self : DDMMLightningModule) (grad : bool)
    (image label mid_i mid_l : tensor R) (ts : list Z)
    (pairs : list (tensor R * tensor R)) (events : list event) : Prop :=
  if is_use_cycle (hp self) then
    exists f_il f_li pred_label pred_image,
      diffusion_from_image_to_label self = Some f_il
      /\ diffusion_from_label_to_image self = Some f_li
      /\ f_il mid_i (PerSample (zeros_like ts)) = Ok pred_label
      /\ f_li mid_l (PerSample (zeros_like ts)) = Ok pred_image
      /\ pairs = [(pred_image, mid_i); (pred_label, mid_l);
                  (pred_image, image); (pred_label, label)]
      /\ events = [Forward FromImageToLabel grad mid_i (PerSample (zeros_like ts)) None;
                   Forward FromLabelToImage grad mid_l (PerSample (zeros_like ts)) None]
  else pairs = [] /\ events = [].

Lemma getattr_Ok name o w f w1 :
  getattr name o w = (Ok f, w1) -> o = Some f /\ w1 = w.
Proof.
  unfold getattr. destruct o; [|discriminate]. intros H0. apply ret_Ok in H0 as [-> ->].
  split; reflexivity.
Qed.

Lemma unet_forward_Ok net f x t w y w1 :
  unet_forward net f x t w = (Ok y, w1) ->
  f x t = Ok y
  /\ w1 = World (rng w) (grad_enabled w) (trace w ++ [Forward net (grad_enabled w) x t None]).
Proof.
  unfold unet_forward. rewrite forward_run. intros [= -> <-]. split; reflexivity.
Qed.

Tactic Notation "run_forward" hyp(H) ident(x) :=
  let w := fresh "w" in let E := fresh "E" x in
  apply bind_Ok in H as (x & w & E & H); apply unet_forward_Ok in E as [E ->].

Lemma cycle_terms_Ok self image label mid_i mid_l ts w c w1 :
  cycle_terms self image label mid_i mid_l ts w = (Ok c, w1) ->
  exists f_il f_li pred_label pred_image c1 c2 c3 c4,
    diffusion_from_image_to_label self = Some f_il
    /\ diffusion_from_label_to_image self = Some f_li
    /\ f_il mid_i (PerSample (zeros_like ts)) = Ok pred_label
    /\ f_li mid_l (PerSample (zeros_like ts)) = Ok pred_image
    /\ l1_loss pred_image mid_i = Ok c1 /\ l1_loss pred_label mid_l = Ok c2
    /\ l1_loss pred_image image = Ok c3 /\ l1_loss pred_label label = Ok c4
    /\ c = (c1 + c2 + c3 + c4)%R
    /\ w1 = World (rng w) (grad_enabled w)
               (trace w ++ [Forward FromImageToLabel (grad_enabled w) mid_i
                                    (PerSample (zeros_like ts)) None;
                            Forward FromLabelToImage (grad_enabled w) mid_l
                                    (PerSample (zeros_like ts)) None]).
Proof.
  intros H0. unfold cycle_terms in H0.
  apply bind_Ok in H0 as (f_il & w2 & E1 & H0). apply getattr_Ok in E1 as [E1 ->].
  run_forward H0 pred_label.
  apply bind_Ok in H0 as (f_li & w2 & E2 & H0). apply getattr_Ok in E2 as [E2 ->].
  run_forward H0 pred_image.
  run_lift H0 c1. run_lift H0 c2. run_lift H0 c3. run_lift H0 c4.
  apply ret_Ok in H0 as [-> ->].
  exists f_il, f_li, pred_label, pred_image, c1, c2, c3, c4.
  repeat (split; [assumption || reflexivity|]).
  simpl. rewrite <- app_assoc. reflexivity.
Qed.

Lemma losses_Ok self batch stage w image label unsup loss w1 :
  losses self batch stage w = (Ok (image, label, unsup, loss), w1) ->
  let rng_p := paired_noise image (rng w) in
  let rng_u := unsup_noise image unsup (rng w) in
  exists bs mid_i mid_l mid_u est_i est_l est_u cycle_pairs cycle_events super_loss unsup_loss,
    let ts := drawn_timesteps (num_train_timesteps self) image unsup bs (rng w) in
    batch !! "image" = Some image /\ batch !! "label" = Some label
    /\ batch !! "unsup" = Some unsup
    /\ shape0 image = Ok bs
    /\ (0 < Z.of_nat (num_train_timesteps self))%Z
    /\ add_noise self (affine 2.0 (-1.0) image) rng_p ts = Ok mid_i
    /\ add_noise self (affine 2.0 (-1.0) label) rng_p ts = Ok mid_l
    /\ add_noise self (affine 2.0 (-1.0) unsup) rng_u ts = Ok mid_u
    /\ diffusion_image self mid_i (PerSample ts) = Ok est_i
    /\ diffusion_label self mid_l (PerSample ts) = Ok est_l
    /\ diffusion_image self mid_u (PerSample ts) = Ok est_u
    /\ cycle_branch self (grad_enabled w) image label mid_i mid_l ts cycle_pairs cycle_events
    /\ sum_of_losses ([(est_i, rng_p); (est_l, rng_p); (est_i, image); (est_l, label)]
                        ++ cycle_pairs) = Ok super_loss
    /\ sum_of_losses [(est_u, rng_u); (est_u, unsup)] = Ok unsup_loss
    /\ loss = (super_loss + unsup_loss)%R
    /\ w1 = World (after_timesteps (num_train_timesteps self) image unsup bs (rng w)) (grad_enabled w)
               (trace w
                ++ [Forward DiffusionImage (grad_enabled w) mid_i (PerSample ts) None;
                    Forward DiffusionLabel (grad_enabled w) mid_l (PerSample ts) None]
                ++ cycle_events
                ++ [Forward DiffusionImage (grad_enabled w) mid_u (PerSample ts) None;
                    LogScalar (stage +:+ "_super_loss") super_loss true;
                    LogScalar (stage +:+ "_unsup_loss") unsup_loss true]).
Proof.
  intros H0. unfold losses in H0.
  apply bind_Ok in H0 as (image' & w2 & Ei & H0). apply lift_Ok in Ei as [Ei ->].
  apply bind_Ok in H0 as (label' & w2 & El & H0). apply lift_Ok in El as [El ->].
  apply bind_Ok in H0 as (unsup' & w2 & Eu & H0). apply lift_Ok in Eu as [Eu ->].
  apply bind_Ok in H0 as (rng_p & w2 & Ep & H0). rewrite randn_like_run in Ep.
  injection Ep as <- <-.
  apply bind_Ok in H0 as (rng_u & w2 & Eq & H0). rewrite randn_like_run in Eq.
  injection Eq as <- <-. cbn [rng grad_enabled trace] in H0.
  run_lift H0 bs.
  apply bind_Ok in H0 as (ts0 & w2 & Et & H0). apply randint_Ok in Et as (HT & -> & ->).
  cbn [rng grad_enabled trace] in H0.
  set (ts := fst (draw (uniform_int 0 (Z.of_nat (num_train_timesteps self))) bs _)) in *.
  set (g3 := snd (draw (uniform_int 0 (Z.of_nat (num_train_timesteps self))) bs _)) in *.
  run_lift H0 mid_i. run_lift H0 mid_l.
  run_forward H0 est_i. run_forward H0 est_l.
  run_lift H0 a1. run_lift H0 a2. run_lift H0 a3. run_lift H0 a4.
  apply bind_Ok in H0 as (super_loss & w2 & Ec & H0).
  cbn [rng grad_enabled trace] in Ec.
  assert (exists cycle_pairs cycle_events c,
            cycle_branch self (grad_enabled w) image' label' mid_i mid_l ts
              cycle_pairs cycle_events
            /\ mapM (fun p => l1_loss p.1 p.2) cycle_pairs = Ok c
            /\ super_loss = (a1 + a2 + a3 + a4 + sumR c)%R
            /\ trace w2
               = trace w
                 ++ [Forward DiffusionImage (grad_enabled w) mid_i (PerSample ts) None;
                     Forward DiffusionLabel (grad_enabled w) mid_l (PerSample ts) None]
                 ++ cycle_events
            /\ rng w2 = g3
            /\ grad_enabled w2 = grad_enabled w) as (cp & ce & c & Hcb & Hcm & Hsl & Htr & Hrng & Hgr).
  { unfold cycle_branch. destruct (is_use_cycle (hp self)).
    - apply bind_Ok in Ec as (c & w3 & Ec & Er). apply ret_Ok in Er as [-> ->].
      apply cycle_terms_Ok in Ec
        as (f_il & f_li & pl & pi & c1 & c2 & c3 & c4 & A1 & A2 & A3 & A4 & L1 & L2 & L3 & L4 & -> & ->).
      cbn [rng grad_enabled trace].
      eexists _, _, [c1; c2; c3; c4].
      split; [exists f_il, f_li, pl, pi; repeat (split; [eassumption || reflexivity|]); reflexivity|].
      split; [cbn; rewrite L1, L2, L3, L4; reflexivity|].
      split; [simpl; lra|].
      split; [rewrite <- !app_assoc; reflexivity|]. split; reflexivity.
    - apply ret_Ok in Ec as [-> ->]. exists [], [], [].
      cbn [rng grad_enabled trace].
      split; [split; reflexivity|]. split; [reflexivity|].
      split; [simpl; lra|].
      split; [rewrite <- !app_assoc; reflexivity|]. split; reflexivity. }
  run_lift H0 mid_u.
  apply bind_Ok in H0 as (est_u & w3 & Eest_u & H0).
  apply unet_forward_Ok in Eest_u as [Eest_u ->].
  run_lift H0 u1. run_lift H0 u2.
  apply bind_Ok in H0 as (u & w3 & Elog1 & H0). rewrite log_run in Elog1.
  injection Elog1 as <- <-.
  apply bind_Ok in H0 as (u' & w3 & Elog2 & H0). rewrite log_run in Elog2.
  injection Elog2 as <- <-.
  apply ret_Ok in H0 as [[= -> -> -> ->] ->].
  cbn [rng grad_enabled trace].
  unfold dict_get in Ei, El, Eu.
  destruct (batch !! "image") eqn:Bi; [injection Ei as ->|discriminate].
  destruct (batch !! "label") eqn:Bl; [injection El as ->|discriminate].
  destruct (batch !! "unsup") eqn:Bu; [injection Eu as ->|discriminate].
  exists bs, mid_i, mid_l, mid_u, est_i, est_l, est_u, cp, ce,
         super_loss, (u1 + u2)%R.
  cbv zeta. unfold paired_noise, unsup_noise, drawn_timesteps, after_timesteps,
            after_unsup_noise, after_paired_noise.
  repeat (split; [assumption || reflexivity|]).
  split.
  { unfold sum_of_losses. cbn [app mapM fst snd].
    rewrite Ea1. cbn [mbind result_bind]. rewrite Ea2. cbn [mbind result_bind].
    rewrite Ea3. cbn [mbind result_bind]. rewrite Ea4. cbn [mbind result_bind].
    fold (mapM (fun p : tensor R * tensor R => l1_loss p.1 p.2) cp).
    rewrite Hcm. cbn [mbind result_bind mret result_ret]. f_equal. rewrite Hsl.
    unfold sumR. cbn [foldr]. lra. }
  split.
  { unfold sum_of_losses. cbn [mapM fst snd].
    rewrite Eu1. cbn [mbind result_bind]. rewrite Eu2.
    cbn [mbind result_bind mret result_ret]. f_equal. unfold sumR. cbn [foldr]. lra. }
  split; [reflexivity|].
  rewrite Hrng, Hgr, Htr. f_equal. rewrite <- !app_assoc. reflexivity.
Qed.

(** *** The visualization branch *)

Lemma keeps_mode_getattr name o : keeps_mode (getattr name o).
Proof. destruct o; [apply keeps_mode_ret | apply keeps_mode_raise]. Qed.

Lemma keeps_mode_sample_loop self steps : forall sam_i sam_l cycle,
  keeps_mode (sample_loop self steps sam_i sam_l cycle).
Proof.
  induction steps as [|t steps IH]; intros sam_i sam_l cycle; simpl.
  - apply keeps_mode_ret.
  - apply keeps_mode_bind; [apply keeps_mode_forward | intros res_i].
    apply keeps_mode_bind; [apply keeps_mode_forward | intros res_l].
    apply keeps_mode_bind.
    + destruct (is_use_cycle (hp self)); [|apply keeps_mode_ret].
      apply keeps_mode_bind; [apply keeps_mode_getattr | intros f_li].
      apply keeps_mode_bind; [apply keeps_mode_forward | intros cycle_i].
      apply keeps_mode_bind; [apply keeps_mode_getattr | intros f_il].
      apply keeps_mode_bind; [apply keeps_mode_forward | intros cycle_l].
      apply keeps_mode_ret.
    + intros cycle'.
      apply keeps_mode_bind; [apply keeps_mode_scheduler_step | intros sam_i'].
      apply keeps_mode_bind; [apply keeps_mode_scheduler_step | intros sam_l'].
      apply IH.
Qed.

Lemma quiet_sample self image : quiet (sample self image).
Proof.
  apply quiet_no_grad.
  apply keeps_mode_bind; [apply keeps_mode_randn_like | intros rng0].
  apply keeps_mode_bind; [apply keeps_mode_sample_loop | intros [[sam_i sam_l] cycle]].
  apply keeps_mode_ret.
Qed.

Lemma quiet_visualize self image label unsup stage :
  quiet (visualize self image label unsup stage).
Proof.
  unfold visualize.
  apply quiet_bind; [apply quiet_sample | intros [[sam_i sam_l] cycle]].
  apply quiet_bind.
  { destruct (is_use_cycle (hp self)); [|apply quiet_pure; reflexivity].
    destruct cycle as [[ci cl]|]; apply quiet_pure; reflexivity. }
  intros tensors.
  apply quiet_bind; [apply quiet_pure; reflexivity | intros cat].
  apply quiet_bind; [apply quiet_pure; reflexivity | intros viz2d].
  apply quiet_bind; [apply quiet_pure; reflexivity | intros grid].
  apply quiet_emit_image.
Qed.

(** [_common_step] is [losses], then the visualization when
    [batch_idx == 0], then the return of the loss of [losses]. *)
Lemma common_step_unfold self batch batch_idx optimizer_idx stage w :
  _common_step self batch batch_idx optimizer_idx stage w
  = match losses self batch stage w with
    | (Ok (image, label, unsup, loss), w0) =>
        if (batch_idx =? 0)%Z then
          match visualize self image label unsup stage w0 with
          | (Ok _, w1) => (Ok {["loss" := loss]}, w1)
          | (Raise e, w1) => (Raise e, w1)
          end
        else (Ok {["loss" := loss]}, w0)
    | (Raise e, w0) => (Raise e, w0)
    end.
Proof.
  unfold _common_step, mbind, M_bind.
  destruct (losses self batch stage w) as [[[[[image label] unsup] loss]|e] w0];
    [|reflexivity].
  destruct (batch_idx =? 0)%Z; [|reflexivity].
  destruct (visualize self image label unsup stage w0) as [[u|e] w1]; reflexivity.
Qed.

Lemma mapM_result_app {A B} (f : A -> result B) (l1 l2 : list A) v1 v2 :
  mapM f l1 = Ok v1 -> mapM f l2 = Ok v2 -> mapM f (l1 ++ l2) = Ok (v1 ++ v2).
Proof.
  revert v1. induction l1 as [|a l1 IH]; intros v1 H1 H2.
  - injection H1 as <-. exact H2.
  - cbn in H1. cbn. destruct (f a) as [b|e]; [|discriminate]. cbn in H1. cbn.
    fold (mapM f l1) in H1. fold (mapM f (l1 ++ l2)).
    destruct (mapM f l1) as [v|e]; [|discriminate]. injection H1 as <-.
    rewrite (IH v eq_refl H2). reflexivity.
Qed.

Lemma sumR_app (l1 l2 : list R) : sumR (l1 ++ l2) = (sumR l1 + sumR l2)%R.
Proof. induction l1 as [|x l1 IH]; simpl; [lra | rewrite IH; lra]. Qed.

Lemma sum_of_losses_app l1 l2 a b :
  sum_of_losses l1 = Ok a -> sum_of_losses l2 = Ok b ->
  sum_of_losses (l1 ++ l2) = Ok (a + b)%R.
Proof.
  unfold sum_of_losses. intros H1 H2.
  destruct (mapM (fun p => l1_loss p.1 p.2) l1) as [v1|] eqn:E1; [|discriminate].
  destruct (mapM (fun p => l1_loss p.1 p.2) l2) as [v2|] eqn:E2; [|discriminate].
  injection H1 as <-. injection H2 as <-.
  rewrite (mapM_result_app _ _ _ _ _ E1 E2). cbn. rewrite sumR_app. reflexivity.
Qed.

(** A batch without one of its three keys stops [losses] at the lookup. *)
Lemma losses_missing_key self batch stage w k :
  first_missing_key batch = Some k ->
  losses self batch stage w = (Raise (KeyError k), w).
Proof.
  unfold first_missing_key, losses, dict_get, lift.
  destruct (batch !! "image") as [image|]; [|intros [= <-]; reflexivity].
  destruct (batch !! "label") as [label|]; [|intros [= <-]; reflexivity].
  destruct (batch !! "unsup") as [unsup|]; [discriminate | intros [= <-]; reflexivity].
Qed.

End Step.
End DiffuserTwo.

(** ** [segmentation_diffuser_one.py]: [ClassConditionedUNet] and
       [DDMMLightningModule] *)

Module DiffuserOne.
Import Torch Runtime.

(** [self.model]: the [UNet2DModel] behind the class conditioning. *)
Definition unet := tensor R -> timestep_arg -> result (tensor R).

(** [class_emb = nn.Embedding(num_classes, class_emb_size)] holds one row
    of [class_emb_size] weights per class. *)
Record ClassConditionedUNet := ClassConditioned {
  class_emb : list (list R);
  class_emb_size : nat;
  model : unet
}.

(** [nn.Embedding]: a row per label, [IndexError] outside the table. *)
Definition embedding (table : list (list R)) (labels : list Z) : result (list (list R)) :=
  mapM (fun l => if (l <? 0)%Z then Raise IndexError else getitem table l) labels.

(** [ClassConditionedUNet.forward(x, t, class_labels)]: the embedding of
    the class of each sample, of shape [n, emb] with [emb] the width of the
    table, is viewed as [bs, emb, 1, 1] (which needs [n * emb = bs * emb]
    elements), expanded over the spatial positions and concatenated to [x]
    along the channels. *)
Definition forward_conditioned (net : ClassConditionedUNet)
    (x : tensor R) (t : timestep_arg) (class_labels : list Z) : result (tensor R) :=
  match shape x with
  | [bs; ch; w; h] =>
      class_cond ← embedding (class_emb net) class_labels;
      let emb := class_emb_size net in
      if length class_cond * emb =? bs * emb then
        let net_input :=
          tinit [bs; ch + emb; w; h]
            (fun idx =>
               match idx with
               | [b; c; i; j] =>
                   if c <? ch then tget x [b; c; i; j]
                   else default 0%R (row ← class_cond !! b; row !! (c - ch))
               | _ => 0%R
               end) in
        model net net_input t
      else Raise (RuntimeError "shape is invalid for input size")
  | _ => Raise (ValueError "not enough values to unpack")
  end.

Record hparams := Hparams {
  lr : R;
  epochs : nat;
  weight_decay : R;
  timesteps : nat;
  batch_size : nat;
  shape_ : nat
}.

Record DDMMLightningModule := Module_ {
  hp : hparams;
  diffusion : ClassConditionedUNet;
  global_step : Z
}.

Section Step.
Context `{Externals}.

Definition num_train_timesteps (self : DDMMLightningModule) : nat := timesteps (hp self).
Definition alphas_cumprod (self : DDMMLightningModule) : list R :=
  Scheduler.alphas_cumprod (num_train_timesteps self).

(** [self.loss_func = nn.SmoothL1Loss(reduction="mean", beta=0.02)] *)
Definition loss_func : tensor R -> tensor R -> result R := SmoothL1Loss 0.02%R.

Definition add_noise (self : DDMMLightningModule) :=
  Scheduler.add_noise (alphas_cumprod self).

(** [self.diffusion.forward(x, t, class_labels)] *)
Definition diffusion_forward (self : DDMMLightningModule)
    (x : tensor R) (t : timestep_arg) (class_labels : list Z) : M world (tensor R) :=
  forward Diffusion
    (fun x t c => forward_conditioned (diffusion self) x t (default [] c))
    x t (Some class_labels).

(** [torch.zeros_like(gamma).long()] and [torch.ones_like(gamma).long()] *)
Definition zeros_like (gamma : list R) : list Z := map (fun _ => 0%Z) gamma.
Definition ones_like (gamma : list R) : list Z := map (fun _ => 1%Z) gamma.

(** [_common_step] up to [loss = super_loss + unsup_loss] ([lines 291-327]);
    the tensors and the class labels that the visualization reads are
    returned with the loss. *)
Definition losses (self : DDMMLightningModule) (batch : gmap string (tensor R))
    (stage : string)
  : M world (tensor R * tensor R * tensor R * list Z * list Z * R) :=
  image ← lift (dict_get batch "image");
  label ← lift (dict_get batch "label");
  unsup ← lift (dict_get batch "unsup");
  rng_p ← randn_like image;
  rng_u ← randn_like unsup;
  bs ← lift (shape0 image);
  ts ← randint 0 (Z.of_nat (num_train_timesteps self)) bs;
  gamma ← rand bs;
  mid_i ← lift (add_noise self (affine 2.0 (-1.0) image) rng_p ts);
  mid_l ← lift (add_noise self (affine 2.0 (-1.0) label) rng_p ts);
  let cls_i := zeros_like gamma in
  let cls_l := ones_like gamma in
  est_i ← diffusion_forward self mid_i (PerSample ts) cls_i;
  est_l ← diffusion_forward self mid_l (PerSample ts) cls_l;
  a1 ← lift (loss_func est_i rng_p);
  a2 ← lift (loss_func est_l rng_p);
  let super_loss := (a1 + a2)%R in
  mid_u ← lift (add_noise self (affine 2.0 (-1.0) unsup) rng_u ts);
  let cls_u := zeros_like gamma in
  est_u ← diffusion_forward self mid_u (PerSample ts) cls_u;
  unsup_loss ← lift (loss_func est_u rng_u);
  _ ← log (stage +:+ "_super_loss") super_loss (bool_decide (stage = "train"));
  _ ← log (stage +:+ "_unsup_loss") unsup_loss (bool_decide (stage = "train"));
  mret (image, label, unsup, cls_i, cls_l, (super_loss + unsup_loss)%R).

Fixpoint sample_loop (self : DDMMLightningModule) (steps : list Z)
    (cls_i cls_l : list Z) (sam_i sam_l : tensor R) : M world (tensor R * tensor R) :=
  match steps with
  | [] => mret (sam_i, sam_l)
  | t :: steps' =>
      res_i ← diffusion_forward self sam_i (Scalar t) cls_i;
      res_l ← diffusion_forward self sam_l (Scalar t) cls_l;
      sam_i ← scheduler_step (alphas_cumprod self) res_i t sam_i;
      sam_l ← scheduler_step (alphas_cumprod self) res_l t sam_l;
      sample_loop self steps' cls_i cls_l sam_i sam_l
  end.

(** The block under [with torch.no_grad()] ([lines 333-346]). *)
Definition sample (self : DDMMLightningModule) (image : tensor R) (cls_i cls_l : list Z)
  : M world (tensor R * tensor R) :=
  no_grad (
    rng ← randn_like image;
    '(sam_i, sam_l) ←
      sample_loop self (Scheduler.timesteps (num_train_timesteps self)) cls_i cls_l rng rng;
    mret (affine 0.5 0.5 sam_i, affine 0.5 0.5 sam_l)).

(** The branch under [if stage == 'train' and batch_idx % 10 == 0]. *)
Definition visualize (self : DDMMLightningModule) (image label unsup : tensor R)
    (cls_i cls_l : list Z) (stage : string) : M world unit :=
  '(sam_i, sam_l) ← sample self image cls_i cls_l;
  cat ← lift (cat_last [image; label; sam_i; sam_l; unsup]);
  viz2d ← lift (transpose_2_3 cat);
  grid ← lift (make_grid viz2d);
  emit (LogImage (stage +:+ "_samples") (clamp01 grid) (global_step self `div` 10)).

Definition visualizes (stage : string) (batch_idx : Z) : bool :=
  bool_decide (stage = "train") && (batch_idx `mod` 10 =? 0)%Z.

Definition _common_step (self : DDMMLightningModule) (batch : gmap string (tensor R))
    (batch_idx : Z) (optimizer_idx : Z) (stage : string) : M world (gmap string R) :=
  '(image, label, unsup, cls_i, cls_l, loss) ← losses self batch stage;
  _ ← (if visualizes stage batch_idx
       then visualize self image label unsup cls_i cls_l stage
       else mret tt);
  mret {["loss" := loss]}.

Definition training_step self batch batch_idx :=
  _common_step self batch batch_idx 0 "train".

Definition validation_step self batch batch_idx :=
  _common_step self batch batch_idx 0 "validation".

Definition test_step self batch batch_idx :=
  _common_step self batch batch_idx 0 "test".

(** *** What a completed run of [losses] did *)

Lemma diffusion_forward_Ok self x t cls w y w1 :
  diffusion_forward self x t cls w = (Ok y, w1) ->
  forward_conditioned (diffusion self) x t cls = Ok y
  /\ w1 = World (rng w) (grad_enabled w)
             (trace w ++ [Forward Diffusion (grad_enabled w) x t (Some cls)]).
Proof.
  unfold diffusion_forward. rewrite forward_run. intros [= -> <-]. split; reflexivity.
Qed.

Tactic Notation "run_forward" hyp(H) ident(x) :=
  let w := fresh "w" in let E := fresh "E" x in
  apply bind_Ok in H as (x & w & E & H); apply diffusion_forward_Ok in E as [E ->].

(** [gamma = torch.rand(bs)], drawn after the timesteps. *)
Definition drawn_gamma (self : DDMMLightningModule) (image unsup : tensor R)
    (bs : nat) (g : generator) : list R :=
  fst (draw uniform bs (after_timesteps (num_train_timesteps self) image unsup bs g)).

Definition after_gamma (self : DDMMLightningModule) (image unsup : tensor R)
    (bs : nat) (g : generator) : generator :=
  snd (draw uniform bs (after_timesteps (num_train_timesteps self) image unsup bs g)).

Lemma losses_Ok_one self batch stage w image label unsup cls_i cls_l loss w1 :
  losses self batch stage w = (Ok (image, label, unsup, cls_i, cls_l, loss), w1) ->
  let rng_p := paired_noise image (rng w) in
  let rng_u := unsup_noise image unsup (rng w) in
  exists bs mid_i mid_l mid_u est_i est_l est_u a1 a2 unsup_loss,
    let ts := drawn_timesteps (num_train_timesteps self) image unsup bs (rng w) in
    let gamma := drawn_gamma self image unsup bs (rng w) in
    batch !! "image" = Some image /\ batch !! "label" = Some label
    /\ batch !! "unsup" = Some unsup
    /\ shape0 image = Ok bs
    /\ (0 < Z.of_nat (num_train_timesteps self))%Z
    /\ add_noise self (affine 2.0 (-1.0) image) rng_p ts = Ok mid_i
    /\ add_noise self (affine 2.0 (-1.0) label) rng_p ts = Ok mid_l
    /\ add_noise self (affine 2.0 (-1.0) unsup) rng_u ts = Ok mid_u
    /\ cls_i = zeros_like gamma /\ cls_l = ones_like gamma
    /\ forward_conditioned (diffusion self) mid_i (PerSample ts) cls_i = Ok est_i
    /\ forward_conditioned (diffusion self) mid_l (PerSample ts) cls_l = Ok est_l
    /\ forward_conditioned (diffusion self) mid_u (PerSample ts) cls_i = Ok est_u
    /\ loss_func est_i rng_p = Ok a1 /\ loss_func est_l rng_p = Ok a2
    /\ loss_func est_u rng_u = Ok unsup_loss
    /\ loss = (a1 + a2 + unsup_loss)%R
    /\ w1 = World (after_gamma self image unsup bs (rng w)) (grad_enabled w)
               (trace w
                ++ [Forward Diffusion (grad_enabled w) mid_i (PerSample ts) (Some cls_i);
                    Forward Diffusion (grad_enabled w) mid_l (PerSample ts) (Some cls_l);
                    Forward Diffusion (grad_enabled w) mid_u (PerSample ts) (Some cls_i);
                    LogScalar (stage +:+ "_super_loss") (a1 + a2)
                              (bool_decide (stage = "train"));
                    LogScalar (stage +:+ "_unsup_loss") unsup_loss
                              (bool_decide (stage = "train"))]).
Proof.
  intros H0. unfold losses in H0.
  apply bind_Ok in H0 as (image' & w2 & Ei & H0). apply lift_Ok in Ei as [Ei ->].
  apply bind_Ok in H0 as (label' & w2 & El & H0). apply lift_Ok in El as [El ->].
  apply bind_Ok in H0 as (unsup' & w2 & Eu & H0). apply lift_Ok in Eu as [Eu ->].
  apply bind_Ok in H0 as (rng_p & w2 & Ep & H0). rewrite randn_like_run in Ep.
  injection Ep as <- <-.
  apply bind_Ok in H0 as (rng_u & w2 & Eq & H0). rewrite randn_like_run in Eq.
  injection Eq as <- <-. cbn [rng grad_enabled trace] in H0.
  run_lift H0 bs.
  apply bind_Ok in H0 as (ts0 & w2 & Et & H0). apply randint_Ok in Et as (HT & -> & ->).
  cbn [rng grad_enabled trace] in H0.
  apply bind_Ok in H0 as (gamma0 & w2 & Eg & H0). unfold rand in Eg.
  rewrite with_rng_run in Eg. injection Eg as <- <-.
  cbn [rng grad_enabled trace] in H0.
  run_lift H0 mid_i. run_lift H0 mid_l.
  run_forward H0 est_i. run_forward H0 est_l.
  run_lift H0 a1. run_lift H0 a2.
  run_lift H0 mid_u. run_forward H0 est_u. run_lift H0 unsup_loss.
  apply bind_Ok in H0 as (u & w3 & Elog1 & H0). rewrite log_run in Elog1.
  injection Elog1 as <- <-.
  apply bind_Ok in H0 as (u' & w3 & Elog2 & H0). rewrite log_run in Elog2.
  injection Elog2 as <- <-.
  apply ret_Ok in H0 as [[= -> -> -> -> -> ->] ->].
  cbn [rng grad_enabled trace].
  unfold dict_get in Ei, El, Eu.
  destruct (batch !! "image") eqn:Bi; [injection Ei as ->|discriminate].
  destruct (batch !! "label") eqn:Bl; [injection El as ->|discriminate].
  destruct (batch !! "unsup") eqn:Bu; [injection Eu as ->|discriminate].
  exists bs, mid_i, mid_l, mid_u, est_i, est_l, est_u, a1, a2, unsup_loss.
  cbv zeta. unfold paired_noise, unsup_noise, drawn_timesteps, after_timesteps,
            drawn_gamma, after_gamma, after_unsup_noise, after_paired_noise.
  repeat (split; [assumption || reflexivity|]).
  f_equal. rewrite <- !app_assoc. reflexivity.
Qed.

(** *** The visualization branch *)

Lemma keeps_mode_sample_loop_one self steps cls_i cls_l : forall sam_i sam_l,
  keeps_mode (sample_loop self steps cls_i cls_l sam_i sam_l).
Proof.
  induction steps as [|t steps IH]; intros sam_i sam_l; simpl.
  - apply keeps_mode_ret.
  - apply keeps_mode_bind; [apply keeps_mode_forward | intros res_i].
    apply keeps_mode_bind; [apply keeps_mode_forward | intros res_l].
    apply keeps_mode_bind; [apply keeps_mode_scheduler_step | intros sam_i'].
    apply keeps_mode_bind; [apply keeps_mode_scheduler_step | intros sam_l'].
    apply IH.
Qed.

Lemma quiet_sample_one self image cls_i cls_l : quiet (sample self image cls_i cls_l).
Proof.
  apply quiet_no_grad.
  apply keeps_mode_bind; [apply keeps_mode_randn_like | intros rng0].
  apply keeps_mode_bind; [apply keeps_mode_sample_loop_one | intros [sam_i sam_l]].
  apply keeps_mode_ret.
Qed.

Lemma quiet_visualize_one self image label unsup cls_i cls_l stage :
  quiet (visualize self image label unsup cls_i cls_l stage).
Proof.
  unfold visualize.
  apply quiet_bind; [apply quiet_sample_one | intros [sam_i sam_l]].
  apply quiet_bind; [apply quiet_pure; reflexivity | intros cat].
  apply quiet_bind; [apply quiet_pure; reflexivity | intros viz2d].
  apply quiet_bind; [apply quiet_pure; reflexivity | intros grid].
  apply quiet_emit_image.
Qed.

Lemma common_step_unfold_one self batch batch_idx optimizer_idx stage w :
  _common_step self batch batch_idx optimizer_idx stage w
  = match losses self batch stage w with
    | (Ok (image, label, unsup, cls_i, cls_l, loss), w0) =>
        if visualizes stage batch_idx then
          match visualize self image label unsup cls_i cls_l stage w0 with
          | (Ok _, w1) => (Ok {["loss" := loss]}, w1)
          | (Raise e, w1) => (Raise e, w1)
          end
        else (Ok {["loss" := loss]}, w0)
    | (Raise e, w0) => (Raise e, w0)
    end.
Proof.
  unfold _common_step, mbind, M_bind.
  destruct (losses self batch stage w)
    as [[[[[[[image label] unsup] cls_i] cls_l] loss]|e] w0]; [|reflexivity].
  destruct (visualizes stage batch_idx); [|reflexivity].
  destruct (visualize self image label unsup cls_i cls_l stage w0) as [[u|e] w1];
    reflexivity.
Qed.

(** A batch without one of its three keys stops [losses] at the lookup. *)
Lemma losses_missing_key_one self batch stage w k :
  first_missing_key batch = Some k ->
  losses self batch stage w = (Raise (KeyError k), w).
Proof.
  unfold first_missing_key, losses, dict_get, lift.
  destruct (batch !! "image") as [image|]; [|intros [= <-]; reflexivity].
  destruct (batch !! "label") as [label|]; [|intros [= <-]; reflexivity].
  destruct (batch !! "unsup") as [unsup|]; [discriminate | intros [= <-]; reflexivity].
Qed.

End Step.
End DiffuserOne.

(** ** The training, validation and test steps *)

Section Steps.
Import Torch Runtime.
Context `{Externals}.

(** C1. In the dual/quad-network module, the loss that a step returns is
    the equal-weight sum of smooth-L1 terms over exactly these
    (prediction, target) pairs: the image and the label estimates against
    the paired noise and against the clean image and label; when, and only
    when, cycle mode is on, the output of each translation network, applied
    at timestep 0 to the noised input of its source domain, against the
    noised and the clean tensor of the other domain; and the unsup estimate
    against the unsup noise and the clean unsup tensor. *)
Theorem total_loss_is_sum_of_terms (self : DiffuserTwo.DDMMLightningModule)
    (batch : gmap string (tensor R)) (batch_idx optimizer_idx : Z) (stage : string)
    (w w1 : world) (info : gmap string R) :
  DiffuserTwo._common_step self batch batch_idx optimizer_idx stage w = (Ok info, w1) ->
  exists image label unsup bs mid_i mid_l mid_u est_i est_l est_u cycle_pairs loss,
    let rng_p := paired_noise image (rng w) in
    let rng_u := unsup_noise image unsup (rng w) in
    let ts := drawn_timesteps (DiffuserTwo.num_train_timesteps self) image unsup bs (rng w) in
    batch !! "image" = Some image /\ batch !! "label" = Some label
    /\ batch !! "unsup" = Some unsup
    /\ DiffuserTwo.add_noise self (affine 2.0 (-1.0) image) rng_p ts = Ok mid_i
    /\ DiffuserTwo.add_noise self (affine 2.0 (-1.0) label) rng_p ts = Ok mid_l
    /\ DiffuserTwo.add_noise self (affine 2.0 (-1.0) unsup) rng_u ts = Ok mid_u
    /\ DiffuserTwo.diffusion_image self mid_i (PerSample ts) = Ok est_i
    /\ DiffuserTwo.diffusion_label self mid_l (PerSample ts) = Ok est_l
    /\ DiffuserTwo.diffusion_image self mid_u (PerSample ts) = Ok est_u
    /\ (if DiffuserTwo.is_use_cycle (DiffuserTwo.hp self) then
          exists image_to_label label_to_image pred_label pred_image,
            DiffuserTwo.diffusion_from_image_to_label self = Some image_to_label
            /\ DiffuserTwo.diffusion_from_label_to_image self = Some label_to_image
            /\ image_to_label mid_i (PerSample (DiffuserTwo.zeros_like ts)) = Ok pred_label
            /\ label_to_image mid_l (PerSample (DiffuserTwo.zeros_like ts)) = Ok pred_image
            /\ cycle_pairs = [(pred_image, mid_i); (pred_label, mid_l);
                              (pred_image, image); (pred_label, label)]
        else cycle_pairs = [])
    /\ info = {["loss" := loss]}
    /\ DiffuserTwo.sum_of_losses
         ([(est_i, rng_p); (est_l, rng_p); (est_i, image); (est_l, label)]
          ++ cycle_pairs
          ++ [(est_u, rng_u); (est_u, unsup)]) = Ok loss.
Proof.
  intros Hstep. rewrite DiffuserTwo.common_step_unfold in Hstep.
  destruct (DiffuserTwo.losses self batch stage w)
    as [[[[[image label] unsup] loss]|e] w0] eqn:El; [|discriminate].
  assert (info = {["loss" := loss]}) as ->.
  { destruct (batch_idx =? 0)%Z; [|congruence].
    destruct (DiffuserTwo.visualize self image label unsup stage w0) as [[u|e] w2];
      congruence. }
  apply DiffuserTwo.losses_Ok in El
    as (bs & mid_i & mid_l & mid_u & est_i & est_l & est_u & cp & ce & sl & ul
        & Bi & Bl & Bu & Ebs & HT & Ni & Nl & Nu & Fi & Fl & Fu & Hcb & Ssl & Sul & -> & _).
  exists image, label, unsup, bs, mid_i, mid_l, mid_u, est_i, est_l, est_u, cp,
         (sl + ul)%R.
  cbv zeta. repeat (split; [assumption|]).
  split.
  { unfold DiffuserTwo.cycle_branch in Hcb.
    destruct (DiffuserTwo.is_use_cycle (DiffuserTwo.hp self)).
    - destruct Hcb as (f_il & f_li & pl & pi & A1 & A2 & A3 & A4 & A5 & _).
      exists f_il, f_li, pl, pi. repeat split; assumption.
    - apply Hcb. }
  split; [reflexivity|].
  rewrite app_assoc. apply DiffuserTwo.sum_of_losses_app; assumption.
Qed.

(** C7 (as the code has it). A batch that lacks one of the keys "image",
    "label", "unsup" makes the step, of either module, fail at its first
    statement with the [KeyError] of the first missing key: nothing has been
    drawn, no network has been invoked and nothing has been logged. (The
    step does not compare the shapes of the three tensors; a mismatch
    surfaces only where a tensor operation rejects it.) *)
Theorem missing_key_fails_first
    (two : DiffuserTwo.DDMMLightningModule) (one : DiffuserOne.DDMMLightningModule)
    (batch : gmap string (tensor R)) (batch_idx optimizer_idx : Z) (stage : string)
    (w : world) :
  batch !! "image" = None \/ batch !! "label" = None \/ batch !! "unsup" = None ->
  exists k, first_missing_key batch = Some k /\ batch !! k = None
    /\ DiffuserTwo._common_step two batch batch_idx optimizer_idx stage w
       = (Raise (KeyError k), w)
    /\ DiffuserOne._common_step one batch batch_idx optimizer_idx stage w
       = (Raise (KeyError k), w).
Proof.
  intros Hmiss. destruct (first_missing_key_Some batch Hmiss) as [k Hk].
  exists k. split; [exact Hk|]. split; [exact (first_missing_key_None batch k Hk)|].
  rewrite DiffuserTwo.common_step_unfold, DiffuserOne.common_step_unfold_one.
  rewrite (DiffuserTwo.losses_missing_key two batch stage w k Hk).
  rewrite (DiffuserOne.losses_missing_key_one one batch stage w k Hk).
  split; reflexivity.
Qed.

(** The record of a step that returned holds the record of its [losses]. *)
Lemma two_step_trace (self : DiffuserTwo.DDMMLightningModule) batch batch_idx
    optimizer_idx stage w info w1 :
  DiffuserTwo._common_step self batch batch_idx optimizer_idx stage w = (Ok info, w1) ->
  exists image label unsup loss w0 evs,
    DiffuserTwo.losses self batch stage w = (Ok (image, label, unsup, loss), w0)
    /\ info = {["loss" := loss]} /\ trace w1 = trace w0 ++ evs.
Proof.
  intros Hstep. rewrite DiffuserTwo.common_step_unfold in Hstep.
  destruct (DiffuserTwo.losses self batch stage w)
    as [[[[[image label] unsup] loss]|e] w0] eqn:El; [|discriminate].
  exists image, label, unsup, loss, w0.
  destruct (batch_idx =? 0)%Z.
  - destruct (DiffuserTwo.visualize self image label unsup stage w0) as [[u|e] w2] eqn:Ev;
      [|discriminate].
    injection Hstep as <- <-.
    destruct (DiffuserTwo.quiet_visualize self image label unsup stage _ _ _ Ev)
      as (_ & evs & Ht & _).
    exists evs. repeat split. exact Ht.
  - injection Hstep as <- <-. exists []. rewrite app_nil_r. repeat split.
Qed.

Lemma one_step_trace (self : DiffuserOne.DDMMLightningModule) batch batch_idx
    optimizer_idx stage w info w1 :
  DiffuserOne._common_step self batch batch_idx optimizer_idx stage w = (Ok info, w1) ->
  exists image label unsup cls_i cls_l loss w0 evs,
    DiffuserOne.losses self batch stage w
    = (Ok (image, label, unsup, cls_i, cls_l, loss), w0)
    /\ info = {["loss" := loss]} /\ trace w1 = trace w0 ++ evs.
Proof.
  intros Hstep. rewrite DiffuserOne.common_step_unfold_one in Hstep.
  destruct (DiffuserOne.losses self batch stage w)
    as [[[[[[[image label] unsup] cls_i] cls_l] loss]|e] w0] eqn:El; [|discriminate].
  exists image, label, unsup, cls_i, cls_l, loss, w0.
  destruct (DiffuserOne.visualizes stage batch_idx).
  - destruct (DiffuserOne.visualize self image label unsup cls_i cls_l stage w0)
      as [[u|e] w2] eqn:Ev; [|discriminate].
    injection Hstep as <- <-.
    destruct (DiffuserOne.quiet_visualize_one self image label unsup cls_i cls_l stage _ _ _ Ev)
      as (_ & evs & Ht & _).
    exists evs. repeat split. exact Ht.
  - injection Hstep as <- <-. exists []. rewrite app_nil_r. repeat split.
Qed.

Lemma drawn_timesteps_in_range T image unsup bs g :
  uniform_int_in_range -> (0 < Z.of_nat T)%Z ->
  length (drawn_timesteps T image unsup bs g) = bs
  /\ Forall (fun t => (0 <= t < Z.of_nat T)%Z) (drawn_timesteps T image unsup bs g).
Proof.
  intros Hu HT. unfold drawn_timesteps. split; [apply length_draw|].
  apply draw_Forall. intros g'. apply Hu, HT.
Qed.

(** C2. In every step that returns, of either module: the noised image
    and the noised label that the networks receive are made by [add_noise]
    from the same noise tensor [rng_p] (the first Gaussian draw of the step)
    and the same timesteps [ts]; the noised unsup tensor is made from
    [rng_u], a Gaussian draw of its own made after [rng_p], and the same
    [ts]; and [ts] holds one draw per sample of the batch, each an integer
    of [0, T) from the uniform integer generator. *)
Theorem noise_and_timesteps_are_shared
    (two : DiffuserTwo.DDMMLightningModule) (one : DiffuserOne.DDMMLightningModule)
    (batch : gmap string (tensor R)) (batch_idx optimizer_idx : Z) (stage : string)
    (w : world) :
  uniform_int_in_range ->
  (forall info w1,
     DiffuserTwo._common_step two batch batch_idx optimizer_idx stage w = (Ok info, w1) ->
     exists image label unsup bs mid_i mid_l mid_u,
       let T := DiffuserTwo.num_train_timesteps two in
       let rng_p := paired_noise image (rng w) in
       let rng_u := unsup_noise image unsup (rng w) in
       let ts := drawn_timesteps T image unsup bs (rng w) in
       batch !! "image" = Some image /\ batch !! "label" = Some label
       /\ batch !! "unsup" = Some unsup
       /\ shape0 image = Ok bs /\ length ts = bs
       /\ Forall (fun t => (0 <= t < Z.of_nat T)%Z) ts
       /\ DiffuserTwo.add_noise two (affine 2.0 (-1.0) image) rng_p ts = Ok mid_i
       /\ DiffuserTwo.add_noise two (affine 2.0 (-1.0) label) rng_p ts = Ok mid_l
       /\ DiffuserTwo.add_noise two (affine 2.0 (-1.0) unsup) rng_u ts = Ok mid_u
       /\ Forward DiffusionImage (grad_enabled w) mid_i (PerSample ts) None ∈ trace w1
       /\ Forward DiffusionLabel (grad_enabled w) mid_l (PerSample ts) None ∈ trace w1
       /\ Forward DiffusionImage (grad_enabled w) mid_u (PerSample ts) None ∈ trace w1)
  /\ (forall info w1,
     DiffuserOne._common_step one batch batch_idx optimizer_idx stage w = (Ok info, w1) ->
     exists image label unsup bs mid_i mid_l mid_u cls_i cls_l,
       let T := DiffuserOne.num_train_timesteps one in
       let rng_p := paired_noise image (rng w) in
       let rng_u := unsup_noise image unsup (rng w) in
       let ts := drawn_timesteps T image unsup bs (rng w) in
       batch !! "image" = Some image /\ batch !! "label" = Some label
       /\ batch !! "unsup" = Some unsup
       /\ shape0 image = Ok bs /\ length ts = bs
       /\ Forall (fun t => (0 <= t < Z.of_nat T)%Z) ts
       /\ DiffuserOne.add_noise one (affine 2.0 (-1.0) image) rng_p ts = Ok mid_i
       /\ DiffuserOne.add_noise one (affine 2.0 (-1.0) label) rng_p ts = Ok mid_l
       /\ DiffuserOne.add_noise one (affine 2.0 (-1.0) unsup) rng_u ts = Ok mid_u
       /\ Forward Diffusion (grad_enabled w) mid_i (PerSample ts) (Some cls_i) ∈ trace w1
       /\ Forward Diffusion (grad_enabled w) mid_l (PerSample ts) (Some cls_l) ∈ trace w1
       /\ Forward Diffusion (grad_enabled w) mid_u (PerSample ts) (Some cls_i) ∈ trace w1).
Proof.
  intros Hu. split.
  - intros info w1 Hstep.
    apply two_step_trace in Hstep as (image & label & unsup & loss & w0 & evs & El & _ & Ht).
    apply DiffuserTwo.losses_Ok in El
      as (bs & mid_i & mid_l & mid_u & est_i & est_l & est_u & cp & ce & sl & ul
          & Bi & Bl & Bu & Ebs & HT & Ni & Nl & Nu & _ & _ & _ & _ & _ & _ & _ & ->).
    destruct (drawn_timesteps_in_range (DiffuserTwo.num_train_timesteps two)
                image unsup bs (rng w) Hu HT) as [Hlen Hrange].
    exists image, label, unsup, bs, mid_i, mid_l, mid_u. cbv zeta.
    repeat (split; [assumption|]).
    rewrite Ht. cbn [trace]. rewrite !elem_of_app, !list_elem_of_In. simpl. tauto.
  - intros info w1 Hstep.
    apply one_step_trace in Hstep
      as (image & label & unsup & cls_i & cls_l & loss & w0 & evs & El & _ & Ht).
    apply DiffuserOne.losses_Ok_one in El
      as (bs & mid_i & mid_l & mid_u & est_i & est_l & est_u & a1 & a2 & ul
          & Bi & Bl & Bu & Ebs & HT & Ni & Nl & Nu & _ & _ & _ & _ & _ & _ & _ & _ & _ & ->).
    destruct (drawn_timesteps_in_range (DiffuserOne.num_train_timesteps one)
                image unsup bs (rng w) Hu HT) as [Hlen Hrange].
    exists image, label, unsup, bs, mid_i, mid_l, mid_u, cls_i, cls_l. cbv zeta.
    repeat (split; [assumption|]).
    rewrite Ht. cbn [trace]. rewrite !elem_of_app, !list_elem_of_In. simpl. tauto.
Qed.

(** How a run with the visualization compares to a run without it, from
    the same world: what the first returns the second returns too; what the
    second returns the first returns too, unless the visualization itself
    raises; and the first differs from the second only by events added at
    the end of the record, whose forward passes and scheduler steps all ran
    with gradient mode off, the mode being restored afterwards. *)
Definition only_adds_quiet_events {A}
    (with_viz without : result A * world) : Prop :=
  (forall info, fst with_viz = Ok info -> fst without = Ok info)
  /\ (forall info, fst without = Ok info ->
        fst with_viz = Ok info \/ exists e, fst with_viz = Raise e)
  /\ grad_enabled (snd with_viz) = grad_enabled (snd without)
  /\ exists evs, trace (snd with_viz) = trace (snd without) ++ evs
                 /\ Forall (event_grad_is false) evs.

Lemma only_adds_quiet_events_refl {A} (r : result A * world) :
  only_adds_quiet_events r r.
Proof.
  repeat split; [tauto | intros info E; left; exact E|].
  exists []. rewrite app_nil_r. split; [reflexivity | constructor].
Qed.

Lemma only_adds_quiet_events_after {A} (m : M world unit) (a : A) w0 :
  quiet m ->
  only_adds_quiet_events
    (match m w0 with
     | (Ok _, w1) => (Ok a, w1)
     | (Raise e, w1) => (Raise e, w1)
     end)
    (Ok a, w0).
Proof.
  intros Hq. destruct (m w0) as [[u|e] w1] eqn:Em;
    destruct (Hq _ _ _ Em) as (Hg & evs & Ht & Hf); simpl.
  - repeat split; [tauto | intros info E; left; exact E | exact Hg|].
    exists evs. split; assumption.
  - repeat split; [discriminate | intros info E; right; eauto | exact Hg|].
    exists evs. split; assumption.
Qed.

(** C6. The visualization never influences the loss that a step returns,
    and it samples under no-gradient mode. For either module and every
    batch, take a step that runs the visualization and one that does not
    (the batch index decides), from the same world: they return the same
    loss (the first may only fail where the second returns, inside the
    visualization), and all that the visualization adds to the record are
    forward passes and scheduler steps made with gradient mode off, followed
    by the logged image, with the gradient mode of the caller restored. *)
Theorem visualization_never_influences_loss
    (two : DiffuserTwo.DDMMLightningModule) (one : DiffuserOne.DDMMLightningModule)
    (batch : gmap string (tensor R)) (optimizer_idx : Z) (stage : string) (w : world) :
  (forall batch_idx, batch_idx <> 0%Z ->
     only_adds_quiet_events
       (DiffuserTwo._common_step two batch 0 optimizer_idx stage w)
       (DiffuserTwo._common_step two batch batch_idx optimizer_idx stage w))
  /\ (forall batch_idx batch_idx',
       DiffuserOne.visualizes stage batch_idx = true ->
       DiffuserOne.visualizes stage batch_idx' = false ->
       only_adds_quiet_events
         (DiffuserOne._common_step one batch batch_idx optimizer_idx stage w)
         (DiffuserOne._common_step one batch batch_idx' optimizer_idx stage w)).
Proof.
  split.
  - intros batch_idx Hne. rewrite !DiffuserTwo.common_step_unfold.
    destruct (DiffuserTwo.losses two batch stage w)
      as [[[[[image label] unsup] loss]|e] w0]; [|apply only_adds_quiet_events_refl].
    destruct (Z.eqb_spec batch_idx 0) as [E|_]; [contradiction|]. cbn [Z.eqb].
    apply only_adds_quiet_events_after, DiffuserTwo.quiet_visualize.
  - intros batch_idx batch_idx' Hv Hn. rewrite !DiffuserOne.common_step_unfold_one.
    destruct (DiffuserOne.losses one batch stage w)
      as [[[[[[[image label] unsup] cls_i] cls_l] loss]|e] w0];
      [|apply only_adds_quiet_events_refl].
    rewrite Hv, Hn.
    apply only_adds_quiet_events_after, DiffuserOne.quiet_visualize_one.
Qed.

End Steps.

(** ** A small run of both modules

    A deterministic stand-in for the collaborators (a counter as generator,
    the counter value as Gaussian draw, identity networks and scheduler),
    on which the steps can be evaluated. *)

Module Example.
Import Torch Runtime.

Definition toy : Externals := {|
  generator := nat;
  gauss := fun g => (INR g, S g);
  uniform := fun g => (0%R, S g);
  uniform_int := fun low high g => ((low + Z.of_nat g `mod` (high - low))%Z, S g);
  ddpm_step := fun _ model_output t sample g => (Ok sample, g);
  make_grid := fun t => Ok t
|}.

Lemma toy_uniform_int_in_range : @uniform_int_in_range toy.
Proof.
  intros low high g Hlt. simpl.
  pose proof (Z.mod_pos_bound (Z.of_nat g) (high - low)). lia.
Qed.

Definition identity_unet : tensor R -> timestep_arg -> result (tensor R) :=
  fun x _ => Ok x.

(** The first channel of a [B, C, H, W] tensor. *)
Definition first_channel : tensor R -> timestep_arg -> result (tensor R) :=
  fun x _ =>
    match shape x with
    | [b; _; h; w] => Ok (tinit [b; 1; h; w] (fun idx => tget x idx))
    | _ => Ok x
    end.

Definition ones (s : list nat) : tensor R := Tensor s (replicate (numel s) 1%R).

(** A well-formed batch of two samples of 2 x 2 pixels. *)
Definition good_batch : gmap string (tensor R) :=
  <["image" := ones [2; 1; 2; 2]]>
    (<["label" := ones [2; 1; 2; 2]]> (<["unsup" := ones [2; 1; 2; 2]]> ∅)).

(** The same batch without its label. *)
Definition batch_without_label : gmap string (tensor R) :=
  <["image" := ones [2; 1; 2; 2]]> (<["unsup" := ones [2; 1; 2; 2]]> ∅).

(** A batch whose unsup tensor holds three samples where the image and the
    label hold two. *)
Definition mismatched_batch : gmap string (tensor R) :=
  <["image" := ones [2; 1; 2; 2]]>
    (<["label" := ones [2; 1; 2; 2]]> (<["unsup" := ones [3; 1; 2; 2]]> ∅)).

Definition two_with_cycle : DiffuserTwo.DDMMLightningModule :=
  DiffuserTwo.__init__ (DiffuserTwo.Hparams 0 1 0 3 2 2 true)
    identity_unet identity_unet identity_unet identity_unet.

Definition two_without_cycle : DiffuserTwo.DDMMLightningModule :=
  DiffuserTwo.__init__ (DiffuserTwo.Hparams 0 1 0 3 2 2 false)
    identity_unet identity_unet identity_unet identity_unet.

Definition one : DiffuserOne.DDMMLightningModule :=
  DiffuserOne.Module_ (DiffuserOne.Hparams 0 1 0 3 2 2)
    (DiffuserOne.ClassConditioned [[0; 0]; [1; 1]]%R 2 first_channel) 0.

Definition start : @world toy := @World toy 0 true [].

(** The step with cycle mode and the visualization returns on the
    well-formed batch, and what it returns is a loss. *)
Lemma total_loss_is_sum_of_terms_witness :
  exists loss,
    fst (@DiffuserTwo._common_step toy two_with_cycle good_batch 0 0 "train" start)
    = Ok {["loss" := loss]}.
Proof.
  destruct (@DiffuserTwo._common_step toy two_with_cycle good_batch 0 0 "train" start)
    as [[info|e] w1] eqn:E.
  - destruct (@total_loss_is_sum_of_terms toy _ _ _ _ _ _ _ _ E)
      as (image & label & unsup & bs & mid_i & mid_l & mid_u & est_i & est_l & est_u
          & pairs & loss & _ & _ & _ & _ & _ & _ & _ & _ & _ & _ & -> & _).
    exists loss. reflexivity.
  - exfalso.
    assert (is_ok (fst (@DiffuserTwo._common_step toy two_with_cycle good_batch
                          0 0 "train" start)) = true) as Hok by (vm_compute; reflexivity).
    rewrite E in Hok. discriminate.
Defined.

Lemma noise_and_timesteps_are_shared_witness :
  exists ts mid_i mid_l,
    length ts = 2 /\ Forall (fun t => (0 <= t < 3)%Z) ts
    /\ Forward DiffusionImage true mid_i (PerSample ts) None
       ∈ trace (snd (@DiffuserTwo._common_step toy two_without_cycle good_batch
                       1 0 "train" start))
    /\ Forward DiffusionLabel true mid_l (PerSample ts) None
       ∈ trace (snd (@DiffuserTwo._common_step toy two_without_cycle good_batch
                       1 0 "train" start)).
Proof.
  destruct (@DiffuserTwo._common_step toy two_without_cycle good_batch 1 0 "train" start)
    as [[info|e] w1] eqn:E.
  - destruct (@noise_and_timesteps_are_shared toy two_without_cycle one good_batch
                1 0 "train" start toy_uniform_int_in_range) as [Htwo _].
    destruct (Htwo info w1 E)
      as (image & label & unsup & bs & mid_i & mid_l & mid_u
          & Bi & _ & _ & Ebs & Hlen & Hrange & _ & _ & _ & Fi & Fl & _).
    assert (good_batch !! "image" = Some (ones [2; 1; 2; 2])) as Hl
      by (vm_compute; reflexivity).
    rewrite Hl in Bi. injection Bi as <-.
    assert (shape0 (ones [2; 1; 2; 2]) = Ok 2) as Hs by reflexivity.
    rewrite Hs in Ebs. injection Ebs as <-.
    eexists _, mid_i, mid_l. repeat split; [exact Hlen | exact Hrange | exact Fi | exact Fl].
  - exfalso.
    assert (is_ok (fst (@DiffuserTwo._common_step toy two_without_cycle good_batch
                          1 0 "train" start)) = true) as Hok by (vm_compute; reflexivity).
    rewrite E in Hok. discriminate.
Defined.

Lemma missing_key_fails_first_witness :
  exists k,
    first_missing_key batch_without_label = Some k
    /\ batch_without_label !! k = None
    /\ @DiffuserTwo._common_step toy two_with_cycle batch_without_label 0 0 "train" start
       = (Raise (KeyError k), start)
    /\ @DiffuserOne._common_step toy one batch_without_label 0 0 "train" start
       = (Raise (KeyError k), start).
Proof.
  apply (@missing_key_fails_first toy). right. left. reflexivity.
Defined.

(** The claim as the spec words it fails on the batch whose unsup tensor
    has three samples against two: the shapes mismatch, and the step of
    either module fails only in [add_noise] on the unsup tensor, after the
    denoising networks have run on the noised image and label. *)
Lemma shape_mismatch_reaches_networks :
  shape <$> mismatched_batch !! "unsup" <> shape <$> mismatched_batch !! "image"
  /\ fst (@DiffuserTwo._common_step toy two_without_cycle mismatched_batch 1 0 "train" start)
     = Raise (RuntimeError "The size of tensor a must match the size of tensor b")
  /\ invoked (trace (snd (@DiffuserTwo._common_step toy two_without_cycle
                            mismatched_batch 1 0 "train" start)))
     = [DiffusionImage; DiffusionLabel]
  /\ fst (@DiffuserOne._common_step toy one mismatched_batch 1 0 "train" start)
     = Raise (RuntimeError "The size of tensor a must match the size of tensor b")
  /\ invoked (trace (snd (@DiffuserOne._common_step toy one
                            mismatched_batch 1 0 "train" start)))
     = [Diffusion; Diffusion].
Proof.
  split; [vm_compute; congruence|].
  repeat split; vm_compute; reflexivity.
Qed.

End Example.

(** ** More about the record of a step *)

Module Traces.
Import Torch Runtime.

Section WithExternals.
Context `{Externals}.

(** Whatever way a computation ends, it has only added events to the
    record, all of them satisfying [P]. *)
Definition emits (P : event -> Prop) {A} (m : M world A) : Prop :=
  forall w r w1, m w = (r, w1) ->
    exists evs, trace w1 = trace w ++ evs /\ Forall P evs.

Lemma emits_pure P {A} (m : M world A) : (forall w, snd (m w) = w) -> emits P m.
Proof.
  intros Hm w r w1 E. specialize (Hm w). rewrite E in Hm. simpl in Hm. subst w1.
  exists []. rewrite app_nil_r. split; [reflexivity | constructor].
Qed.

Lemma emits_bind P {A B} (m : M world A) (f : A -> M world B) :
  emits P m -> (forall a, emits P (f a)) -> emits P (m ≫= f).
Proof.
  intros Hm Hf w r w2 E. unfold mbind, M_bind in E.
  destruct (m w) as [[a|e] w1] eqn:Em.
  - destruct (Hm _ _ _ Em) as (evs1 & T1 & F1).
    destruct (Hf a _ _ _ E) as (evs2 & T2 & F2).
    exists (evs1 ++ evs2). split; [rewrite T2, T1, app_assoc; reflexivity|].
    apply Forall_app. split; assumption.
  - injection E as <- <-. exact (Hm _ _ _ Em).
Qed.

Lemma emits_silent P {A} (m : M world A) :
  (forall w, trace (snd (m w)) = trace w) -> emits P m.
Proof.
  intros Hm w r w1 E. specialize (Hm w). rewrite E in Hm. simpl in Hm.
  exists []. rewrite app_nil_r. split; [exact Hm | constructor].
Qed.

Lemma emits_with_rng P {A} (f : generator -> A * generator) : emits P (with_rng f).
Proof. apply emits_silent. intros w. rewrite with_rng_run. reflexivity. Qed.

Lemma emits_randn_like P x : emits P (randn_like x).
Proof. apply emits_silent. intros w. rewrite randn_like_run. reflexivity. Qed.

Lemma emits_randint P low high n : emits P (randint low high n).
Proof.
  apply emits_silent. intros w. unfold randint.
  destruct (high <=? low)%Z; [reflexivity | rewrite with_rng_run; reflexivity].
Qed.

Lemma emits_emit (P : event -> Prop) e : P e -> emits P (emit e).
Proof.
  intros He w r w1 E. rewrite emit_run in E. injection E as <- <-.
  exists [e]. split; [reflexivity | constructor; [exact He | constructor]].
Qed.

Lemma emits_forward (P : event -> Prop) net f x t c :
  (forall g, P (Forward net g x t c)) -> emits P (forward net f x t c).
Proof.
  intros He w r w1 E. rewrite forward_run in E. injection E as <- <-.
  eexists. split; [reflexivity | constructor; [apply He | constructor]].
Qed.

Lemma emits_scheduler_step (P : event -> Prop) table out t sample :
  (forall g, P (SchedulerStep g out t sample)) ->
  emits P (scheduler_step table out t sample).
Proof.
  intros He w r w1 E. rewrite scheduler_step_run in E. injection E as <- <-.
  eexists. split; [reflexivity | constructor; [apply He | constructor]].
Qed.

Lemma emits_no_grad P {A} (body : M world A) : emits P body -> emits P (no_grad body).
Proof.
  intros Hb w r w1 E. unfold no_grad in E.
  destruct (body (World (rng w) false (trace w))) as [r' w'] eqn:Eb.
  injection E as <- <-. exact (Hb _ _ _ Eb).
Qed.

(** *** Two runs that differ in what they log

    Two worlds are akin when they agree on the generator and on the
    gradient mode; two computations agree when from akin worlds they end
    the same way and leave akin worlds. The record is free. *)
Definition akin (w w' : world) : Prop :=
  rng w = rng w' /\ grad_enabled w = grad_enabled w'.

Definition agree {A} (m m' : M world A) : Prop :=
  forall w w', akin w w' ->
    fst (m w) = fst (m' w') /\ akin (snd (m w)) (snd (m' w')).

Lemma agree_bind {A B} (m m' : M world A) (f f' : A -> M world B) :
  agree m m' -> (forall a, agree (f a) (f' a)) -> agree (m ≫= f) (m' ≫= f').
Proof.
  intros Hm Hf w w' Hw. destruct (Hm w w' Hw) as [Hr Hs]. unfold mbind, M_bind.
  destruct (m w) as [[a|e] w1], (m' w') as [[a'|e'] w1'];
    simpl in Hr, Hs; try discriminate.
  - injection Hr as <-. apply Hf, Hs.
  - injection Hr as <-. split; [reflexivity | exact Hs].
Qed.

Lemma agree_pure {A} (m : M world A) :
  (forall w w', fst (m w) = fst (m w')) -> (forall w, snd (m w) = w) -> agree m m.
Proof. intros H1 H2 w w' Hw. rewrite !H2. split; [apply H1 | exact Hw]. Qed.

Lemma agree_ret {A} (a : A) : agree (mret a : M world A) (mret a).
Proof. apply agree_pure; reflexivity. Qed.

Lemma agree_lift {A} (r : result A) : agree (lift r : M world A) (lift r).
Proof. apply agree_pure; reflexivity. Qed.

Lemma agree_raise {A} e : agree (raise e : M world A) (raise e).
Proof. apply agree_pure; reflexivity. Qed.

Lemma agree_with_rng {A} (f : generator -> A * generator) :
  agree (with_rng f) (with_rng f).
Proof.
  intros w w' [Hg Hm]. rewrite !with_rng_run. simpl. rewrite Hg.
  split; [reflexivity | split; [reflexivity | exact Hm]].
Qed.

Lemma agree_randn_like x : agree (randn_like x) (randn_like x).
Proof. apply agree_bind; [apply agree_with_rng | intros; apply agree_ret]. Qed.

Lemma agree_randint low high n : agree (randint low high n) (randint low high n).
Proof.
  unfold randint. destruct (high <=? low)%Z; [apply agree_raise | apply agree_with_rng].
Qed.

Lemma agree_emit e e' : agree (emit e) (emit e').
Proof. intros w w' Hw. rewrite !emit_run. split; [reflexivity | exact Hw]. Qed.

Lemma agree_forward net f x t c : agree (forward net f x t c) (forward net f x t c).
Proof. intros w w' Hw. rewrite !forward_run. split; [reflexivity | exact Hw]. Qed.

Lemma agree_scheduler_step table out t sample :
  agree (scheduler_step table out t sample) (scheduler_step table out t sample).
Proof.
  intros w w' [Hg Hm]. rewrite !scheduler_step_run. simpl. rewrite Hg.
  split; [reflexivity | split; [reflexivity | exact Hm]].
Qed.

Lemma agree_no_grad {A} (body body' : M world A) :
  agree body body' -> agree (no_grad body) (no_grad body').
Proof.
  intros Hb w w' [Hg Hm]. unfold no_grad.
  destruct (Hb (World (rng w) false (trace w)) (World (rng w') false (trace w')))
    as [Hr [Hs _]]; [split; [exact Hg | reflexivity]|].
  destruct (body (World (rng w) false (trace w))) as [r w1].
  destruct (body' (World (rng w') false (trace w'))) as [r' w1'].
  simpl in *. split; [exact Hr | split; [exact Hs | exact Hm]].
Qed.

End WithExternals.
End Traces.

(** ** What the steps of the two modules do and never do *)

Module StepFacts.
Import Torch Runtime Traces.

Section WithExternals.
Context `{Externals}.

Lemma emits_impl (P Q : event -> Prop) {A} (m : M world A) :
  (forall e, P e -> Q e) -> emits P m -> emits Q m.
Proof.
  intros HPQ Hm w r w1 E. destruct (Hm _ _ _ E) as (evs & Ht & Hf).
  exists evs. split; [exact Ht | exact (Forall_impl _ _ _ Hf HPQ)].
Qed.

Lemma emits_lift P {A} (r : result A) : emits P (lift r).
Proof. apply emits_pure. reflexivity. Qed.

Lemma emits_ret P {A} (a : A) : emits P (mret a).
Proof. apply emits_pure. reflexivity. Qed.

Lemma emits_raise P {A} e : emits P (raise e : M world A).
Proof. apply emits_pure. reflexivity. Qed.

Lemma emits_rand P n : emits P (rand n).
Proof. apply emits_with_rng. Qed.

(** The elements of a tensor lie in [0, 1]. *)
Definition in_unit (t : tensor R) : Prop :=
  Forall (fun v => (0 <= v <= 1)%R) (data t).

Lemma clamp01_in_unit t : in_unit (clamp01 t).
Proof.
  unfold in_unit, clamp01, tmap. apply tinit_data_Forall. intros idx _. split.
  - apply Rmax_l.
  - apply Rmax_lub; [lra | apply Rmin_r].
Qed.

(** The timesteps that were handed to the scheduler, the networks that
    were asked for a prediction at a single timestep, and the scalars that
    were logged, each in order. *)
Definition stepped (evs : list event) : list Z :=
  omap (fun e => match e with SchedulerStep _ _ t _ => Some t | _ => None end) evs.

Definition sampled (evs : list event) : list (network * Z) :=
  omap (fun e => match e with
                 | Forward net _ _ (Scalar t) _ => Some (net, t)
                 | _ => None
                 end) evs.

Definition logged (evs : list event) : list (string * R * bool) :=
  omap (fun e => match e with
                 | LogScalar name v on_step => Some (name, v, on_step)
                 | _ => None
                 end) evs.

(** *** The events of [segmentation_diffuser_two] *)

(** The networks that the module may call: the two denoisers, and the two
    translation networks in cycle mode only. *)
Definition may_call (self : DiffuserTwo.DDMMLightningModule) (net : network) : Prop :=
  net = DiffusionImage \/ net = DiffusionLabel
  \/ (DiffuserTwo.is_use_cycle (DiffuserTwo.hp self) = true
      /\ (net = FromImageToLabel \/ net = FromLabelToImage)).

Definition loss_event (self : DiffuserTwo.DDMMLightningModule) (stage : string)
    (e : event) : Prop :=
  match e with
  | Forward net _ _ (PerSample _) None => may_call self net
  | LogScalar name _ true =>
      name = stage +:+ "_super_loss" \/ name = stage +:+ "_unsup_loss"
  | _ => False
  end.

Definition sampling_event (self : DiffuserTwo.DDMMLightningModule) (steps : list Z)
    (e : event) : Prop :=
  match e with
  | Forward net _ _ (Scalar t) None => may_call self net /\ t ∈ steps
  | SchedulerStep _ _ t _ => t ∈ steps
  | _ => False
  end.

Definition image_event (name : string) (step : Z) (e : event) : Prop :=
  match e with
  | LogImage name' grid step' => name' = name /\ step' = step /\ in_unit grid
  | _ => False
  end.

Definition viz_event (self : DiffuserTwo.DDMMLightningModule) (stage : string)
    (e : event) : Prop :=
  sampling_event self (Scheduler.timesteps (DiffuserTwo.num_train_timesteps self)) e
  \/ image_event (stage +:+ "__samples") (DiffuserTwo.global_step self `div` 10) e.

Lemma emits_getattr P name o : emits P (DiffuserTwo.getattr name o).
Proof. destruct o; [apply emits_ret | apply emits_raise]. Qed.

Lemma emits_cycle_terms self stage image label mid_i mid_l ts :
  DiffuserTwo.is_use_cycle (DiffuserTwo.hp self) = true ->
  emits (loss_event self stage) (DiffuserTwo.cycle_terms self image label mid_i mid_l ts).
Proof.
  intros Hc. unfold DiffuserTwo.cycle_terms.
  apply emits_bind; [apply emits_getattr | intros f_il].
  apply emits_bind; [apply emits_forward; intros g; right; right; split; auto | intros pl].
  apply emits_bind; [apply emits_getattr | intros f_li].
  apply emits_bind; [apply emits_forward; intros g; right; right; split; auto | intros pi].
  repeat (apply emits_bind; [apply emits_lift | intros ?]).
  apply emits_ret.
Qed.

Lemma emits_losses self batch stage :
  emits (loss_event self stage) (DiffuserTwo.losses self batch stage).
Proof.
  unfold DiffuserTwo.losses.
  do 3 (apply emits_bind; [apply emits_lift | intros ?]).
  do 2 (apply emits_bind; [apply emits_randn_like | intros ?]).
  apply emits_bind; [apply emits_lift | intros bs].
  apply emits_bind; [apply emits_randint | intros ts].
  do 2 (apply emits_bind; [apply emits_lift | intros ?]).
  apply emits_bind; [apply emits_forward; intros g; left; reflexivity | intros est_i].
  apply emits_bind; [apply emits_forward; intros g; right; left; reflexivity | intros est_l].
  do 4 (apply emits_bind; [apply emits_lift | intros ?]).
  apply emits_bind.
  { destruct (DiffuserTwo.is_use_cycle (DiffuserTwo.hp self)) eqn:Hc; [|apply emits_ret].
    apply emits_bind; [apply emits_cycle_terms; exact Hc | intros c; apply emits_ret]. }
  intros super_loss.
  apply emits_bind; [apply emits_lift | intros mid_u].
  apply emits_bind; [apply emits_forward; intros g; left; reflexivity | intros est_u].
  do 2 (apply emits_bind; [apply emits_lift | intros ?]).
  apply emits_bind; [apply emits_emit; left; reflexivity | intros ?].
  apply emits_bind; [apply emits_emit; right; reflexivity | intros ?].
  apply emits_ret.
Qed.

Lemma sampling_event_cons self t steps e :
  sampling_event self steps e -> sampling_event self (t :: steps) e.
Proof.
  destruct e as [net g x [ts|t'] [c|]| | |]; simpl; try tauto.
  - intros [Hn Ht]. split; [exact Hn | apply elem_of_cons; right; exact Ht].
  - intros Ht. apply elem_of_cons. right. exact Ht.
Qed.

Lemma emits_sample_loop self steps : forall sam_i sam_l cycle,
  emits (sampling_event self steps) (DiffuserTwo.sample_loop self steps sam_i sam_l cycle).
Proof.
  induction steps as [|t steps IH]; intros sam_i sam_l cycle; simpl.
  - apply emits_ret.
  - assert (t ∈ t :: steps) as Ht by (apply elem_of_cons; left; reflexivity).
    apply emits_bind;
      [apply emits_forward; intros g; split; [left; reflexivity | exact Ht] | intros res_i].
    apply emits_bind;
      [apply emits_forward; intros g; split; [right; left; reflexivity | exact Ht]
      | intros res_l].
    apply emits_bind.
    + destruct (DiffuserTwo.is_use_cycle (DiffuserTwo.hp self)) eqn:Hc; [|apply emits_ret].
      apply emits_bind; [apply emits_getattr | intros f_li].
      apply emits_bind;
        [apply emits_forward; intros g; split; [right; right; split; auto | exact Ht]
        | intros ci].
      apply emits_bind; [apply emits_getattr | intros f_il].
      apply emits_bind;
        [apply emits_forward; intros g; split; [right; right; split; auto | exact Ht]
        | intros cl].
      apply emits_ret.
    + intros cycle'.
      apply emits_bind; [apply emits_scheduler_step; intros g; exact Ht | intros sam_i'].
      apply emits_bind; [apply emits_scheduler_step; intros g; exact Ht | intros sam_l'].
      apply (emits_impl (sampling_event self steps)); [apply sampling_event_cons | apply IH].
Qed.

Lemma emits_visualize self image label unsup stage :
  emits (viz_event self stage) (DiffuserTwo.visualize self image label unsup stage).
Proof.
  unfold DiffuserTwo.visualize.
  apply emits_bind.
  { unfold DiffuserTwo.sample. apply emits_no_grad.
    apply emits_bind; [apply emits_randn_like | intros rng0].
    apply emits_bind.
    - apply (emits_impl (sampling_event self
               (Scheduler.timesteps (DiffuserTwo.num_train_timesteps self))));
        [intros e He; left; exact He | apply emits_sample_loop].
    - intros [[sam_i sam_l] cycle]. apply emits_ret. }
  intros [[sam_i sam_l] cycle].
  apply emits_bind.
  { destruct (DiffuserTwo.is_use_cycle (DiffuserTwo.hp self)); [|apply emits_ret].
    destruct cycle as [[ci cl]|]; [apply emits_ret | apply emits_raise]. }
  intros tensors.
  do 3 (apply emits_bind; [apply emits_lift | intros ?]).
  apply emits_emit. right. split; [reflexivity|]. split; [reflexivity|].
  apply clamp01_in_unit.
Qed.

Lemma emits_common_step self batch batch_idx optimizer_idx stage :
  emits (fun e => loss_event self stage e \/ viz_event self stage e)
        (DiffuserTwo._common_step self batch batch_idx optimizer_idx stage).
Proof.
  unfold DiffuserTwo._common_step.
  apply emits_bind.
  { apply (emits_impl (loss_event self stage)); [tauto | apply emits_losses]. }
  intros [[[image label] unsup] loss].
  apply emits_bind; [|intros ?; apply emits_ret].
  destruct (batch_idx =? 0)%Z; [|apply emits_ret].
  apply (emits_impl (viz_event self stage)); [tauto | apply emits_visualize].
Qed.

(** *** The events of [segmentation_diffuser_one] *)

(** The class labels of a forward pass: 0 for every sample, or 1 for every
    sample. *)
Definition one_class (cls : list Z) : Prop :=
  Forall (fun c => c = 0%Z) cls \/ Forall (fun c => c = 1%Z) cls.

Definition loss_event_one (stage : string) (e : event) : Prop :=
  match e with
  | Forward Diffusion _ _ (PerSample _) (Some cls) => one_class cls
  | LogScalar name _ on_step =>
      on_step = bool_decide (stage = "train")
      /\ (name = stage +:+ "_super_loss" \/ name = stage +:+ "_unsup_loss")
  | _ => False
  end.

Definition sampling_event_one (steps : list Z) (e : event) : Prop :=
  match e with
  | Forward Diffusion _ _ (Scalar t) (Some cls) => one_class cls /\ t ∈ steps
  | SchedulerStep _ _ t _ => t ∈ steps
  | _ => False
  end.

Definition viz_event_one (self : DiffuserOne.DDMMLightningModule) (stage : string)
    (e : event) : Prop :=
  sampling_event_one (Scheduler.timesteps (DiffuserOne.num_train_timesteps self)) e
  \/ image_event (stage +:+ "_samples") (DiffuserOne.global_step self `div` 10) e.

Lemma zeros_like_one_class gamma : one_class (DiffuserOne.zeros_like gamma).
Proof. left. apply Forall_map, Forall_forall. reflexivity. Qed.

Lemma ones_like_one_class gamma : one_class (DiffuserOne.ones_like gamma).
Proof. right. apply Forall_map, Forall_forall. reflexivity. Qed.

Lemma emits_losses_one self batch stage :
  emits (loss_event_one stage) (DiffuserOne.losses self batch stage).
Proof.
  unfold DiffuserOne.losses.
  do 3 (apply emits_bind; [apply emits_lift | intros ?]).
  do 2 (apply emits_bind; [apply emits_randn_like | intros ?]).
  apply emits_bind; [apply emits_lift | intros bs].
  apply emits_bind; [apply emits_randint | intros ts].
  apply emits_bind; [apply emits_rand | intros gamma].
  do 2 (apply emits_bind; [apply emits_lift | intros ?]).
  apply emits_bind;
    [apply emits_forward; intros g; apply zeros_like_one_class | intros est_i].
  apply emits_bind;
    [apply emits_forward; intros g; apply ones_like_one_class | intros est_l].
  do 3 (apply emits_bind; [apply emits_lift | intros ?]).
  apply emits_bind;
    [apply emits_forward; intros g; apply zeros_like_one_class | intros est_u].
  apply emits_bind; [apply emits_lift | intros ?].
  apply emits_bind; [apply emits_emit; split; [reflexivity | left; reflexivity] | intros ?].
  apply emits_bind; [apply emits_emit; split; [reflexivity | right; reflexivity] | intros ?].
  apply emits_ret.
Qed.

Lemma sampling_event_one_cons t steps e :
  sampling_event_one steps e -> sampling_event_one (t :: steps) e.
Proof.
  destruct e as [[] g x [ts|t'] [c|]| | |]; simpl; try tauto.
  - intros [Hn Ht]. split; [exact Hn | apply elem_of_cons; right; exact Ht].
  - intros Ht. apply elem_of_cons. right. exact Ht.
Qed.

Lemma emits_sample_loop_one self steps cls_i cls_l :
  one_class cls_i -> one_class cls_l ->
  forall sam_i sam_l,
  emits (sampling_event_one steps)
        (DiffuserOne.sample_loop self steps cls_i cls_l sam_i sam_l).
Proof.
  intros Hi Hl. induction steps as [|t steps IH]; intros sam_i sam_l; simpl.
  - apply emits_ret.
  - assert (t ∈ t :: steps) as Ht by (apply elem_of_cons; left; reflexivity).
    apply emits_bind; [apply emits_forward; intros g; split; assumption | intros res_i].
    apply emits_bind; [apply emits_forward; intros g; split; assumption | intros res_l].
    apply emits_bind; [apply emits_scheduler_step; intros g; exact Ht | intros sam_i'].
    apply emits_bind; [apply emits_scheduler_step; intros g; exact Ht | intros sam_l'].
    apply (emits_impl (sampling_event_one steps));
      [apply sampling_event_one_cons | apply IH].
Qed.

Lemma emits_visualize_one self image label unsup cls_i cls_l stage :
  one_class cls_i -> one_class cls_l ->
  emits (viz_event_one self stage)
        (DiffuserOne.visualize self image label unsup cls_i cls_l stage).
Proof.
  intros Hi Hl. unfold DiffuserOne.visualize.
  apply emits_bind.
  { unfold DiffuserOne.sample. apply emits_no_grad.
    apply emits_bind; [apply emits_randn_like | intros rng0].
    apply emits_bind.
    - apply (emits_impl (sampling_event_one
               (Scheduler.timesteps (DiffuserOne.num_train_timesteps self))));
        [intros e He; left; exact He | apply emits_sample_loop_one; assumption].
    - intros [sam_i sam_l]. apply emits_ret. }
  intros [sam_i sam_l].
  do 3 (apply emits_bind; [apply emits_lift | intros ?]).
  apply emits_emit. right. split; [reflexivity|]. split; [reflexivity|].
  apply clamp01_in_unit.
Qed.

Lemma losses_classes self batch stage w image label unsup cls_i cls_l loss w0 :
  DiffuserOne.losses self batch stage w
  = (Ok (image, label, unsup, cls_i, cls_l, loss), w0) ->
  one_class cls_i /\ one_class cls_l.
Proof.
  intros El. apply DiffuserOne.losses_Ok_one in El
    as (bs & mid_i & mid_l & mid_u & est_i & est_l & est_u & a1 & a2 & ul
        & _ & _ & _ & _ & _ & _ & _ & _ & -> & -> & _).
  split; [apply zeros_like_one_class | apply ones_like_one_class].
Qed.

Lemma emits_common_step_one self batch batch_idx optimizer_idx stage :
  emits (fun e => loss_event_one stage e
                  \/ (DiffuserOne.visualizes stage batch_idx = true
                      /\ viz_event_one self stage e))
        (DiffuserOne._common_step self batch batch_idx optimizer_idx stage).
Proof.
  intros w r w1 E. rewrite DiffuserOne.common_step_unfold_one in E.
  destruct (DiffuserOne.losses self batch stage w)
    as [[[[[[[image label] unsup] cls_i] cls_l] loss]|e] w0] eqn:El.
  - destruct (emits_losses_one _ _ _ _ _ _ El) as (evs1 & T1 & F1).
    destruct (losses_classes _ _ _ _ _ _ _ _ _ _ _ El) as [Hi Hl].
    destruct (DiffuserOne.visualizes stage batch_idx) eqn:Hv.
    + destruct (DiffuserOne.visualize self image label unsup cls_i cls_l stage w0)
        as [r2 w2] eqn:Ev.
      destruct (emits_visualize_one _ _ _ _ _ _ _ Hi Hl _ _ _ Ev) as (evs2 & T2 & F2).
      assert (w1 = w2) as -> by (destruct r2; congruence).
      exists (evs1 ++ evs2). split; [rewrite T2, T1, app_assoc; reflexivity|].
      apply Forall_app. split.
      * exact (Forall_impl _ _ _ F1 (fun e He => or_introl He)).
      * exact (Forall_impl _ _ _ F2 (fun e He => or_intror (conj eq_refl He))).
    + injection E as <- <-. exists evs1. split; [exact T1|].
      exact (Forall_impl _ _ _ F1 (fun e He => or_introl He)).
  - injection E as <- <-. destruct (emits_losses_one _ _ _ _ _ _ El) as (evs1 & T1 & F1).
    exists evs1. split; [exact T1|].
    exact (Forall_impl _ _ _ F1 (fun e He => or_introl He)).
Qed.

Lemma emits_snd P {A} (m : M world A) :
  emits P m -> forall w, exists evs, trace (snd (m w)) = trace w ++ evs /\ Forall P evs.
Proof. intros Hm w. destruct (m w) as [r w1] eqn:E. exact (Hm _ _ _ E). Qed.

(** X1. With cycle mode off, a step of the dual/quad-network module never
    calls a translation network, in the loss computation or in the
    sampling, whether the step returns or raises: the only networks in
    what it adds to the record are the image and the label denoisers. *)
Theorem no_translation_without_cycle (self : DiffuserTwo.DDMMLightningModule)
    (batch : gmap string (tensor R)) (batch_idx optimizer_idx : Z) (stage : string)
    (w : world) :
  DiffuserTwo.is_use_cycle (DiffuserTwo.hp self) = false ->
  exists evs,
    trace (snd (DiffuserTwo._common_step self batch batch_idx optimizer_idx stage w))
    = trace w ++ evs
    /\ Forall (fun net => net = DiffusionImage \/ net = DiffusionLabel) (invoked evs).
Proof.
  intros Hc.
  destruct (emits_snd _ _ (emits_common_step self batch batch_idx optimizer_idx stage) w)
    as (evs & Ht & Hf).
  exists evs. split; [exact Ht|].
  assert (forall net, may_call self net -> net = DiffusionImage \/ net = DiffusionLabel)
    as Hnet.
  { intros net [E|[E|[E _]]]; [left; exact E | right; exact E | congruence]. }
  clear Ht. induction Hf as [|e evs He Hf IH]; [constructor|].
  unfold invoked in *. cbn [omap list_omap].
  destruct e as [net g x t c| | |]; cbn; try exact IH.
  constructor; [|exact IH]. apply Hnet.
  destruct He as [He|[He|He]]; simpl in He.
  - destruct t, c; tauto.
  - destruct t, c; tauto.
  - contradiction.
Qed.

(** X2. Whatever a step of either module logs as an image has every
    element in [0, 1] (the grid is clamped before it is logged); it is
    logged under the name of the stage followed by [__samples] in the
    dual/quad-network module and by [_samples] in the class-conditioned
    one, at the step index [global_step // 10]. *)
Theorem logged_images_are_clamped
    (two : DiffuserTwo.DDMMLightningModule) (one : DiffuserOne.DDMMLightningModule)
    (batch : gmap string (tensor R)) (batch_idx optimizer_idx : Z) (stage : string)
    (w : world) :
  (exists evs,
     trace (snd (DiffuserTwo._common_step two batch batch_idx optimizer_idx stage w))
     = trace w ++ evs
     /\ forall name grid step, LogImage name grid step ∈ evs ->
          name = stage +:+ "__samples"
          /\ step = (DiffuserTwo.global_step two `div` 10)%Z /\ in_unit grid)
  /\ (exists evs,
     trace (snd (DiffuserOne._common_step one batch batch_idx optimizer_idx stage w))
     = trace w ++ evs
     /\ forall name grid step, LogImage name grid step ∈ evs ->
          name = stage +:+ "_samples"
          /\ step = (DiffuserOne.global_step one `div` 10)%Z /\ in_unit grid).
Proof.
  split.
  - destruct (emits_snd _ _ (emits_common_step two batch batch_idx optimizer_idx stage) w)
      as (evs & Ht & Hf).
    exists evs. split; [exact Ht|]. intros name grid step Hin.
    rewrite Forall_forall in Hf. destruct (Hf _ Hin) as [He|[He|He]]; simpl in He;
      [contradiction | contradiction | exact He].
  - destruct (emits_snd _ _
                (emits_common_step_one one batch batch_idx optimizer_idx stage) w)
      as (evs & Ht & Hf).
    exists evs. split; [exact Ht|]. intros name grid step Hin.
    rewrite Forall_forall in Hf. destruct (Hf _ Hin) as [He|[_ [He|He]]]; simpl in He;
      [contradiction | contradiction | exact He].
Qed.

(** X3. Every forward pass that a step of the class-conditioned module
    makes, in the loss computation or in the sampling, is one of the single
    network [diffusion] and is given class labels: 0 for every sample, or 1
    for every sample. *)
Theorem class_labels_are_zero_or_one (self : DiffuserOne.DDMMLightningModule)
    (batch : gmap string (tensor R)) (batch_idx optimizer_idx : Z) (stage : string)
    (w : world) :
  exists evs,
    trace (snd (DiffuserOne._common_step self batch batch_idx optimizer_idx stage w))
    = trace w ++ evs
    /\ forall net g x t c, Forward net g x t c ∈ evs ->
         net = Diffusion /\ exists cls, c = Some cls /\ one_class cls.
Proof.
  destruct (emits_snd _ _
              (emits_common_step_one self batch batch_idx optimizer_idx stage) w)
    as (evs & Ht & Hf).
  exists evs. split; [exact Ht|]. intros net g x t c Hin.
  rewrite Forall_forall in Hf.
  destruct (Hf _ Hin) as [He|[_ [He|He]]]; simpl in He; [| |contradiction].
  - destruct net, t, c as [cls|]; try contradiction. split; [reflexivity|]. eauto.
  - destruct net, t, c as [cls|]; try contradiction. split; [reflexivity|].
    exists cls. tauto.
Qed.

(** X4. The class-conditioned module samples only in training, at every
    tenth batch: at any other stage or batch index a step hands nothing to
    the scheduler, asks no network for a prediction at a single timestep and
    logs no image. *)
Theorem one_samples_only_when_training (self : DiffuserOne.DDMMLightningModule)
    (batch : gmap string (tensor R)) (batch_idx optimizer_idx : Z) (stage : string)
    (w : world) :
  stage <> "train" \/ (batch_idx `mod` 10 <> 0)%Z ->
  exists evs,
    trace (snd (DiffuserOne._common_step self batch batch_idx optimizer_idx stage w))
    = trace w ++ evs
    /\ stepped evs = [] /\ sampled evs = []
    /\ forall name grid step, LogImage name grid step ∉ evs.
Proof.
  intros Hno.
  assert (DiffuserOne.visualizes stage batch_idx = false) as Hv.
  { unfold DiffuserOne.visualizes. destruct Hno as [Hs|Hb].
    - rewrite bool_decide_eq_false_2 by exact Hs. reflexivity.
    - apply andb_false_iff. right. apply Z.eqb_neq. exact Hb. }
  destruct (emits_snd _ _
              (emits_common_step_one self batch batch_idx optimizer_idx stage) w)
    as (evs & Ht & Hf).
  exists evs. split; [exact Ht|].
  assert (Forall (loss_event_one stage) evs) as Hl.
  { apply (Forall_impl _ _ _ Hf). intros e [He|[He _]]; [exact He | congruence]. }
  clear Hf Ht. split; [|split].
  - induction Hl as [|e evs He Hl IH]; [reflexivity|].
    unfold stepped in *. cbn [omap list_omap].
    destruct e; simpl in He; [exact IH | contradiction | exact IH | contradiction].
  - induction Hl as [|e evs He Hl IH]; [reflexivity|].
    unfold sampled in *. cbn [omap list_omap].
    destruct e as [net g x [ts|t] c| | |]; simpl in He; try exact IH; try contradiction.
    destruct net, c; contradiction.
  - intros name grid step Hin. rewrite Forall_forall in Hl.
    exact (Hl _ Hin).
Qed.

(** *** The two phases of a step and the gradient mode *)

Lemma keeps_mode_randint low high n : keeps_mode (randint low high n).
Proof.
  unfold randint. destruct (high <=? low)%Z;
    [apply keeps_mode_raise | apply keeps_mode_with_rng].
Qed.

Lemma keeps_mode_losses self batch stage : keeps_mode (DiffuserTwo.losses self batch stage).
Proof.
  unfold DiffuserTwo.losses.
  do 3 (apply keeps_mode_bind; [apply keeps_mode_lift | intros ?]).
  do 2 (apply keeps_mode_bind; [apply keeps_mode_randn_like | intros ?]).
  apply keeps_mode_bind; [apply keeps_mode_lift | intros bs].
  apply keeps_mode_bind; [apply keeps_mode_randint | intros ts].
  do 2 (apply keeps_mode_bind; [apply keeps_mode_lift | intros ?]).
  do 2 (apply keeps_mode_bind; [apply keeps_mode_forward | intros ?]).
  do 4 (apply keeps_mode_bind; [apply keeps_mode_lift | intros ?]).
  apply keeps_mode_bind.
  { destruct (DiffuserTwo.is_use_cycle (DiffuserTwo.hp self)); [|apply keeps_mode_ret].
    apply keeps_mode_bind; [|intros c; apply keeps_mode_ret].
    unfold DiffuserTwo.cycle_terms.
    apply keeps_mode_bind; [apply DiffuserTwo.keeps_mode_getattr | intros ?].
    apply keeps_mode_bind; [apply keeps_mode_forward | intros ?].
    apply keeps_mode_bind; [apply DiffuserTwo.keeps_mode_getattr | intros ?].
    apply keeps_mode_bind; [apply keeps_mode_forward | intros ?].
    do 4 (apply keeps_mode_bind; [apply keeps_mode_lift | intros ?]).
    apply keeps_mode_ret. }
  intros super_loss.
  apply keeps_mode_bind; [apply keeps_mode_lift | intros ?].
  apply keeps_mode_bind; [apply keeps_mode_forward | intros ?].
  do 2 (apply keeps_mode_bind; [apply keeps_mode_lift | intros ?]).
  do 2 (apply keeps_mode_bind; [apply keeps_mode_emit_log | intros ?]).
  apply keeps_mode_ret.
Qed.

Lemma keeps_mode_losses_one self batch stage :
  keeps_mode (DiffuserOne.losses self batch stage).
Proof.
  unfold DiffuserOne.losses.
  do 3 (apply keeps_mode_bind; [apply keeps_mode_lift | intros ?]).
  do 2 (apply keeps_mode_bind; [apply keeps_mode_randn_like | intros ?]).
  apply keeps_mode_bind; [apply keeps_mode_lift | intros bs].
  apply keeps_mode_bind; [apply keeps_mode_randint | intros ts].
  apply keeps_mode_bind; [apply keeps_mode_with_rng | intros gamma].
  do 2 (apply keeps_mode_bind; [apply keeps_mode_lift | intros ?]).
  do 2 (apply keeps_mode_bind; [apply keeps_mode_forward | intros ?]).
  do 3 (apply keeps_mode_bind; [apply keeps_mode_lift | intros ?]).
  apply keeps_mode_bind; [apply keeps_mode_forward | intros ?].
  apply keeps_mode_bind; [apply keeps_mode_lift | intros ?].
  do 2 (apply keeps_mode_bind; [apply keeps_mode_emit_log | intros ?]).
  apply keeps_mode_ret.
Qed.

(** What a step adds to the record falls into the events of the loss
    computation, made in the gradient mode of the caller, followed by the
    events of the sampling, made with the mode off. *)
Definition in_two_phases (loss_ev viz_ev : event -> Prop) (w w1 : world) : Prop :=
  grad_enabled w1 = grad_enabled w
  /\ exists evs_loss evs_viz,
       trace w1 = trace w ++ evs_loss ++ evs_viz
       /\ Forall (fun e => loss_ev e /\ event_grad_is (grad_enabled w) e) evs_loss
       /\ Forall (fun e => viz_ev e /\ event_grad_is false e) evs_viz.

Lemma Forall_both {A} (P Q : A -> Prop) l :
  Forall P l -> Forall Q l -> Forall (fun x => P x /\ Q x) l.
Proof. intros HP HQ. apply Forall_and. split; assumption. Qed.

Lemma loss_phase P {A} (m : M world A) w r w0 :
  emits P m -> keeps_mode m -> m w = (r, w0) ->
  grad_enabled w0 = grad_enabled w
  /\ exists evs, trace w0 = trace w ++ evs
       /\ Forall (fun e => P e /\ event_grad_is (grad_enabled w) e) evs.
Proof.
  intros He Hk E. destruct (He _ _ _ E) as (evs & T & F).
  destruct (Hk _ _ _ E) as (G & evs' & T' & F').
  assert (evs' = evs) as -> by (apply (app_inv_head (trace w)); congruence).
  split; [exact G|]. exists evs. split; [exact T | apply Forall_both; assumption].
Qed.

Lemma viz_phase P {A} (m : M world A) w r w0 :
  emits P m -> quiet m -> m w = (r, w0) ->
  grad_enabled w0 = grad_enabled w
  /\ exists evs, trace w0 = trace w ++ evs
       /\ Forall (fun e => P e /\ event_grad_is false e) evs.
Proof.
  intros He Hk E. destruct (He _ _ _ E) as (evs & T & F).
  destruct (Hk _ _ _ E) as (G & evs' & T' & F').
  assert (evs' = evs) as -> by (apply (app_inv_head (trace w)); congruence).
  split; [exact G|]. exists evs. split; [exact T | apply Forall_both; assumption].
Qed.

(** X5. A step of either module runs in two phases, whether it returns or
    raises. First the loss computation: forward passes on whole batches of
    per-sample timesteps and the two logged scalars, every pass made in the
    gradient mode in which the step was called. Then, if at all, the
    sampling: passes at a single timestep, scheduler steps and the logged
    image, every pass and scheduler step made with the gradient mode off.
    Afterwards the gradient mode is the one of the caller again. *)
Theorem step_runs_in_two_phases
    (two : DiffuserTwo.DDMMLightningModule) (one : DiffuserOne.DDMMLightningModule)
    (batch : gmap string (tensor R)) (batch_idx optimizer_idx : Z) (stage : string)
    (w : world) :
  in_two_phases (loss_event two stage) (viz_event two stage) w
    (snd (DiffuserTwo._common_step two batch batch_idx optimizer_idx stage w))
  /\ in_two_phases (loss_event_one stage) (viz_event_one one stage) w
       (snd (DiffuserOne._common_step one batch batch_idx optimizer_idx stage w)).
Proof.
  split.
  - rewrite DiffuserTwo.common_step_unfold.
    destruct (DiffuserTwo.losses two batch stage w)
      as [r0 w0] eqn:El.
    destruct (loss_phase _ _ _ _ _ (emits_losses two batch stage)
                (keeps_mode_losses two batch stage) El) as (G0 & evs1 & T1 & F1).
    assert (in_two_phases (loss_event two stage) (viz_event two stage) w w0) as Hstop.
    { split; [exact G0|]. exists evs1, []. rewrite app_nil_r.
      split; [exact T1|]. split; [exact F1 | constructor]. }
    destruct r0 as [[[[image label] unsup] loss]|e]; [|exact Hstop].
    destruct (batch_idx =? 0)%Z; [|exact Hstop].
    destruct (DiffuserTwo.visualize two image label unsup stage w0) as [r2 w2] eqn:Ev.
    destruct (viz_phase _ _ _ _ _ (emits_visualize two image label unsup stage)
                (DiffuserTwo.quiet_visualize two image label unsup stage) Ev)
      as (G2 & evs2 & T2 & F2).
    assert (in_two_phases (loss_event two stage) (viz_event two stage) w w2) as Hall.
    { split; [congruence|]. exists evs1, evs2.
      split; [rewrite T2, T1, app_assoc; reflexivity|]. split; assumption. }
    destruct r2; exact Hall.
  - rewrite DiffuserOne.common_step_unfold_one.
    destruct (DiffuserOne.losses one batch stage w) as [r0 w0] eqn:El.
    destruct (loss_phase _ _ _ _ _ (emits_losses_one one batch stage)
                (keeps_mode_losses_one one batch stage) El) as (G0 & evs1 & T1 & F1).
    assert (in_two_phases (loss_event_one stage) (viz_event_one one stage) w w0) as Hstop.
    { split; [exact G0|]. exists evs1, []. rewrite app_nil_r.
      split; [exact T1|]. split; [exact F1 | constructor]. }
    destruct r0 as [[[[[[image label] unsup] cls_i] cls_l] loss]|e]; [|exact Hstop].
    destruct (losses_classes _ _ _ _ _ _ _ _ _ _ _ El) as [Hi Hl].
    destruct (DiffuserOne.visualizes stage batch_idx); [|exact Hstop].
    destruct (DiffuserOne.visualize one image label unsup cls_i cls_l stage w0)
      as [r2 w2] eqn:Ev.
    destruct (viz_phase _ _ _ _ _
                (emits_visualize_one one image label unsup cls_i cls_l stage Hi Hl)
                (DiffuserOne.quiet_visualize_one one image label unsup cls_i cls_l stage) Ev)
      as (G2 & evs2 & T2 & F2).
    assert (in_two_phases (loss_event_one stage) (viz_event_one one stage) w w2) as Hall.
    { split; [congruence|]. exists evs1, evs2.
      split; [rewrite T2, T1, app_assoc; reflexivity|]. split; assumption. }
    destruct r2; exact Hall.
Qed.

(** *** The loss and the logged scalars *)

Lemma smooth_l1_nonneg beta x y : (0 < beta)%R -> (0 <= smooth_l1 beta x y)%R.
Proof.
  intros Hb. unfold smooth_l1. pose proof (Rabs_pos (x - y)) as Hd.
  destruct (Rlt_dec (Rabs (x - y)) beta) as [Hlt|Hge]; [|lra].
  unfold Rdiv. apply Rmult_le_pos; [nra | left; apply Rinv_0_lt_compat; exact Hb].
Qed.

Lemma sumR_nonneg (l : list R) : Forall (fun x => (0 <= x)%R) l -> (0 <= sumR l)%R.
Proof. induction 1 as [|x l Hx Hl IH]; simpl; lra. Qed.

Lemma tmean_tinit_nonneg s f :
  (forall idx, in_range s idx -> (0 <= f idx)%R) -> (0 <= tmean (tinit s f))%R.
Proof.
  intros Hf. unfold tmean.
  pose proof (sumR_nonneg _ (tinit_data_Forall (fun x => (0 <= x)%R) s f Hf)) as Hs.
  change (shape (tinit s f)) with s. unfold Rdiv.
  destruct (numel s) as [|n] eqn:En.
  - simpl. rewrite Rinv_0. lra.
  - apply Rmult_le_pos; [exact Hs|]. left. apply Rinv_0_lt_compat.
    apply lt_0_INR. lia.
Qed.

Lemma SmoothL1Loss_nonneg beta a b v :
  (0 < beta)%R -> SmoothL1Loss beta a b = Ok v -> (0 <= v)%R.
Proof.
  intros Hb. unfold SmoothL1Loss, tbin.
  destruct (bshape (shape a) (shape b)) as [s|]; [|discriminate].
  cbn. intros [= <-]. apply tmean_tinit_nonneg. intros idx _.
  apply smooth_l1_nonneg, Hb.
Qed.

Lemma l1_loss_nonneg a b v : DiffuserTwo.l1_loss a b = Ok v -> (0 <= v)%R.
Proof. apply SmoothL1Loss_nonneg. lra. Qed.

Lemma sum_of_losses_nonneg pairs v :
  DiffuserTwo.sum_of_losses pairs = Ok v -> (0 <= v)%R.
Proof.
  unfold DiffuserTwo.sum_of_losses.
  destruct (mapM (fun p => DiffuserTwo.l1_loss p.1 p.2) pairs) as [vs|] eqn:E;
    [|discriminate].
  cbn. intros [= <-]. apply sumR_nonneg.
  revert vs E. induction pairs as [|p pairs IH]; intros vs E.
  - injection E as <-. constructor.
  - cbn in E. destruct (DiffuserTwo.l1_loss p.1 p.2) as [x|] eqn:Ex; [|discriminate].
    cbn in E. fold (mapM (fun p => DiffuserTwo.l1_loss p.1 p.2) pairs) in E.
    destruct (mapM (fun p => DiffuserTwo.l1_loss p.1 p.2) pairs) as [xs|]; [|discriminate].
    injection E as <-. constructor; [exact (l1_loss_nonneg _ _ _ Ex) | apply IH; reflexivity].
Qed.

Lemma logged_app evs1 evs2 : logged (evs1 ++ evs2) = logged evs1 ++ logged evs2.
Proof. apply omap_app. Qed.

Lemma stepped_app evs1 evs2 : stepped (evs1 ++ evs2) = stepped evs1 ++ stepped evs2.
Proof. apply omap_app. Qed.

Lemma sampled_app evs1 evs2 : sampled (evs1 ++ evs2) = sampled evs1 ++ sampled evs2.
Proof. apply omap_app. Qed.

Lemma viz_events_log_no_scalar self stage evs :
  Forall (viz_event self stage) evs -> logged evs = [].
Proof.
  induction 1 as [|e evs He Hf IH]; [reflexivity|].
  unfold logged in *. cbn [omap list_omap].
  destruct e; try exact IH. destruct He as [He|He]; simpl in He; contradiction.
Qed.

Lemma viz_events_log_no_scalar_one self stage evs :
  Forall (viz_event_one self stage) evs -> logged evs = [].
Proof.
  induction 1 as [|e evs He Hf IH]; [reflexivity|].
  unfold logged in *. cbn [omap list_omap].
  destruct e; try exact IH. destruct He as [He|He]; simpl in He; contradiction.
Qed.

(** X7. A step that returns has logged exactly two scalars, in this
    order: the supervised loss under the name of the stage followed by
    [_super_loss] and the unsupervised loss under the name of the stage
    followed by [_unsup_loss]; the loss it returns is their sum. The
    dual/quad-network module logs them per step at every stage, the
    class-conditioned module per step in training only. *)
Theorem logged_scalars_sum_to_loss
    (two : DiffuserTwo.DDMMLightningModule) (one : DiffuserOne.DDMMLightningModule)
    (batch : gmap string (tensor R)) (batch_idx optimizer_idx : Z) (stage : string)
    (w : world) :
  (forall info w1,
     DiffuserTwo._common_step two batch batch_idx optimizer_idx stage w = (Ok info, w1) ->
     exists super_loss unsup_loss evs,
       trace w1 = trace w ++ evs
       /\ logged evs = [(stage +:+ "_super_loss", super_loss, true);
                        (stage +:+ "_unsup_loss", unsup_loss, true)]
       /\ info = {["loss" := (super_loss + unsup_loss)%R]})
  /\ (forall info w1,
     DiffuserOne._common_step one batch batch_idx optimizer_idx stage w = (Ok info, w1) ->
     exists super_loss unsup_loss evs,
       trace w1 = trace w ++ evs
       /\ logged evs = [(stage +:+ "_super_loss", super_loss, bool_decide (stage = "train"));
                        (stage +:+ "_unsup_loss", unsup_loss, bool_decide (stage = "train"))]
       /\ info = {["loss" := (super_loss + unsup_loss)%R]}).
Proof.
  split; intros info w1 Hstep.
  - rewrite DiffuserTwo.common_step_unfold in Hstep.
    destruct (DiffuserTwo.losses two batch stage w)
      as [[[[[image label] unsup] loss]|e] w0] eqn:El; [|discriminate].
    apply DiffuserTwo.losses_Ok in El
      as (bs & mid_i & mid_l & mid_u & est_i & est_l & est_u & cp & ce & sl & ul
          & _ & _ & _ & _ & _ & _ & _ & _ & _ & _ & _ & Hcb & _ & _ & -> & ->).
    assert (logged ce = []) as Hce.
    { unfold DiffuserTwo.cycle_branch in Hcb.
      destruct (DiffuserTwo.is_use_cycle (DiffuserTwo.hp two)).
      - destruct Hcb as (? & ? & ? & ? & _ & _ & _ & _ & _ & ->). reflexivity.
      - destruct Hcb as [_ ->]. reflexivity. }
    exists sl, ul.
    destruct (batch_idx =? 0)%Z.
    + destruct (DiffuserTwo.visualize two image label unsup stage _) as [[u|e] w2] eqn:Ev;
        [|discriminate].
      injection Hstep as <- <-.
      destruct (emits_visualize _ _ _ _ _ _ _ _ Ev) as (evs2 & T2 & F2).
      cbn [trace] in T2. eexists. split; [rewrite T2, <- app_assoc; reflexivity|].
      split; [|reflexivity].
      rewrite !logged_app, Hce, (viz_events_log_no_scalar _ _ _ F2). reflexivity.
    + injection Hstep as <- <-. cbn [trace]. eexists. split; [reflexivity|].
      split; [|reflexivity]. unfold logged in *. cbn [omap list_omap].
      rewrite omap_app, Hce. reflexivity.
  - rewrite DiffuserOne.common_step_unfold_one in Hstep.
    destruct (DiffuserOne.losses one batch stage w)
      as [[[[[[[image label] unsup] cls_i] cls_l] loss]|e] w0] eqn:El; [|discriminate].
    pose proof (losses_classes _ _ _ _ _ _ _ _ _ _ _ El) as [Hi Hl].
    apply DiffuserOne.losses_Ok_one in El
      as (bs & mid_i & mid_l & mid_u & est_i & est_l & est_u & a1 & a2 & ul
          & _ & _ & _ & _ & _ & _ & _ & _ & _ & _ & _ & _ & _ & _ & _ & _ & -> & ->).
    exists (a1 + a2)%R, ul.
    destruct (DiffuserOne.visualizes stage batch_idx).
    + destruct (DiffuserOne.visualize one image label unsup cls_i cls_l stage _)
        as [[u|e] w2] eqn:Ev; [|discriminate].
      injection Hstep as <- <-.
      destruct (emits_visualize_one _ _ _ _ _ _ _ Hi Hl _ _ _ Ev) as (evs2 & T2 & F2).
      cbn [trace] in T2. eexists. split; [rewrite T2, <- app_assoc; reflexivity|].
      split; [|reflexivity].
      rewrite !logged_app, (viz_events_log_no_scalar_one _ _ _ F2). reflexivity.
    + injection Hstep as <- <-. cbn [trace]. eexists. split; [reflexivity|].
      split; reflexivity.
Qed.

(** What a step that returned has logged, with the signs of the two
    logged losses. *)
Lemma returned_step_logs (self : DiffuserTwo.DDMMLightningModule) batch batch_idx
    optimizer_idx stage w info w1 :
  DiffuserTwo._common_step self batch batch_idx optimizer_idx stage w = (Ok info, w1) ->
  exists super_loss unsup_loss evs,
    trace w1 = trace w ++ evs
    /\ logged evs = [(stage +:+ "_super_loss", super_loss, true);
                     (stage +:+ "_unsup_loss", unsup_loss, true)]
    /\ info = {["loss" := (super_loss + unsup_loss)%R]}
    /\ (0 <= super_loss)%R /\ (0 <= unsup_loss)%R.
Proof.
  intros Hstep. rewrite DiffuserTwo.common_step_unfold in Hstep.
  destruct (DiffuserTwo.losses self batch stage w)
    as [[[[[image label] unsup] loss]|e] w0] eqn:El; [|discriminate].
  apply DiffuserTwo.losses_Ok in El
    as (bs & mid_i & mid_l & mid_u & est_i & est_l & est_u & cp & ce & sl & ul
        & _ & _ & _ & _ & _ & _ & _ & _ & _ & _ & _ & Hcb & Ssl & Sul & -> & ->).
  assert (logged ce = []) as Hce.
  { unfold DiffuserTwo.cycle_branch in Hcb.
    destruct (DiffuserTwo.is_use_cycle (DiffuserTwo.hp self)).
    - destruct Hcb as (? & ? & ? & ? & _ & _ & _ & _ & _ & ->). reflexivity.
    - destruct Hcb as [_ ->]. reflexivity. }
  pose proof (sum_of_losses_nonneg _ _ Ssl) as Hs.
  pose proof (sum_of_losses_nonneg _ _ Sul) as Hu.
  exists sl, ul.
  destruct (batch_idx =? 0)%Z.
  - destruct (DiffuserTwo.visualize self image label unsup stage _) as [[u|e] w2] eqn:Ev;
      [|discriminate].
    injection Hstep as <- <-.
    destruct (emits_visualize _ _ _ _ _ _ _ _ Ev) as (evs2 & T2 & F2).
    cbn [trace] in T2. eexists. split; [rewrite T2, <- app_assoc; reflexivity|].
    split; [|repeat split; assumption].
    rewrite !logged_app, Hce, (viz_events_log_no_scalar _ _ _ F2). reflexivity.
  - injection Hstep as <- <-. cbn [trace]. eexists. split; [reflexivity|].
    split; [|repeat split; assumption]. unfold logged in *. cbn [omap list_omap].
    rewrite omap_app, Hce. reflexivity.
Qed.

Lemma returned_step_logs_one (self : DiffuserOne.DDMMLightningModule) batch batch_idx
    optimizer_idx stage w info w1 :
  DiffuserOne._common_step self batch batch_idx optimizer_idx stage w = (Ok info, w1) ->
  exists super_loss unsup_loss evs,
    trace w1 = trace w ++ evs
    /\ logged evs = [(stage +:+ "_super_loss", super_loss, bool_decide (stage = "train"));
                     (stage +:+ "_unsup_loss", unsup_loss, bool_decide (stage = "train"))]
    /\ info = {["loss" := (super_loss + unsup_loss)%R]}
    /\ (0 <= super_loss)%R /\ (0 <= unsup_loss)%R.
Proof.
  intros Hstep. rewrite DiffuserOne.common_step_unfold_one in Hstep.
  destruct (DiffuserOne.losses self batch stage w)
    as [[[[[[[image label] unsup] cls_i] cls_l] loss]|e] w0] eqn:El; [|discriminate].
  pose proof (losses_classes _ _ _ _ _ _ _ _ _ _ _ El) as [Hi Hl].
  apply DiffuserOne.losses_Ok_one in El
    as (bs & mid_i & mid_l & mid_u & est_i & est_l & est_u & a1 & a2 & ul
        & _ & _ & _ & _ & _ & _ & _ & _ & _ & _ & _ & _ & _ & L1 & L2 & L3 & -> & ->).
  pose proof (SmoothL1Loss_nonneg 0.02 _ _ _ ltac:(lra) L1) as H1.
  pose proof (SmoothL1Loss_nonneg 0.02 _ _ _ ltac:(lra) L2) as H2.
  pose proof (SmoothL1Loss_nonneg 0.02 _ _ _ ltac:(lra) L3) as H3.
  assert (0 <= a1 + a2)%R as Hs by lra.
  exists (a1 + a2)%R, ul.
  destruct (DiffuserOne.visualizes stage batch_idx).
  - destruct (DiffuserOne.visualize self image label unsup cls_i cls_l stage _)
      as [[u|e] w2] eqn:Ev; [|discriminate].
    injection Hstep as <- <-.
    destruct (emits_visualize_one _ _ _ _ _ _ _ Hi Hl _ _ _ Ev) as (evs2 & T2 & F2).
    cbn [trace] in T2. eexists. split; [rewrite T2, <- app_assoc; reflexivity|].
    split; [|repeat split; assumption].
    rewrite !logged_app, (viz_events_log_no_scalar_one _ _ _ F2). reflexivity.
  - injection Hstep as <- <-. cbn [trace]. eexists. split; [reflexivity|].
    split; [reflexivity | repeat split; assumption].
Qed.

(** X6. The loss that a step of either module returns is never negative,
    and neither is any of its two parts: the supervised loss, which the
    step logs under the name of the stage followed by [_super_loss], and the
    unsupervised loss, which it logs under the name of the stage followed by
    [_unsup_loss], are both at least 0, and the returned loss is their
    sum. *)
Theorem step_loss_is_nonnegative
    (two : DiffuserTwo.DDMMLightningModule) (one : DiffuserOne.DDMMLightningModule)
    (batch : gmap string (tensor R)) (batch_idx optimizer_idx : Z) (stage : string)
    (w : world) :
  (forall info w1,
     DiffuserTwo._common_step two batch batch_idx optimizer_idx stage w = (Ok info, w1) ->
     exists super_loss unsup_loss evs,
       trace w1 = trace w ++ evs
       /\ logged evs = [(stage +:+ "_super_loss", super_loss, true);
                        (stage +:+ "_unsup_loss", unsup_loss, true)]
       /\ info = {["loss" := (super_loss + unsup_loss)%R]}
       /\ (0 <= super_loss)%R /\ (0 <= unsup_loss)%R
       /\ (0 <= super_loss + unsup_loss)%R)
  /\ (forall info w1,
     DiffuserOne._common_step one batch batch_idx optimizer_idx stage w = (Ok info, w1) ->
     exists super_loss unsup_loss evs,
       trace w1 = trace w ++ evs
       /\ logged evs = [(stage +:+ "_super_loss", super_loss, bool_decide (stage = "train"));
                        (stage +:+ "_unsup_loss", unsup_loss, bool_decide (stage = "train"))]
       /\ info = {["loss" := (super_loss + unsup_loss)%R]}
       /\ (0 <= super_loss)%R /\ (0 <= unsup_loss)%R
       /\ (0 <= super_loss + unsup_loss)%R).
Proof.
  split; intros info w1 Hstep.
  - destruct (returned_step_logs _ _ _ _ _ _ _ _ Hstep)
      as (sl & ul & evs & Ht & Hl & Hi & Hs & Hu).
    exists sl, ul, evs. repeat split; try assumption. lra.
  - destruct (returned_step_logs_one _ _ _ _ _ _ _ _ Hstep)
      as (sl & ul & evs & Ht & Hl & Hi & Hs & Hu).
    exists sl, ul, evs. repeat split; try assumption. lra.
Qed.

(** *** The stage of a step *)

Lemma agree_getattr name o : agree (DiffuserTwo.getattr name o) (DiffuserTwo.getattr name o).
Proof. destruct o; [apply agree_ret | apply agree_raise]. Qed.

Lemma agree_losses self batch stage stage' :
  agree (DiffuserTwo.losses self batch stage) (DiffuserTwo.losses self batch stage').
Proof.
  unfold DiffuserTwo.losses.
  do 3 (apply agree_bind; [apply agree_lift | intros ?]).
  do 2 (apply agree_bind; [apply agree_randn_like | intros ?]).
  apply agree_bind; [apply agree_lift | intros bs].
  apply agree_bind; [apply agree_randint | intros ts].
  do 2 (apply agree_bind; [apply agree_lift | intros ?]).
  do 2 (apply agree_bind; [apply agree_forward | intros ?]).
  do 4 (apply agree_bind; [apply agree_lift | intros ?]).
  apply agree_bind.
  { destruct (DiffuserTwo.is_use_cycle (DiffuserTwo.hp self)); [|apply agree_ret].
    apply agree_bind; [|intros c; apply agree_ret].
    unfold DiffuserTwo.cycle_terms.
    apply agree_bind; [apply agree_getattr | intros ?].
    apply agree_bind; [apply agree_forward | intros ?].
    apply agree_bind; [apply agree_getattr | intros ?].
    apply agree_bind; [apply agree_forward | intros ?].
    do 4 (apply agree_bind; [apply agree_lift | intros ?]).
    apply agree_ret. }
  intros super_loss.
  apply agree_bind; [apply agree_lift | intros ?].
  apply agree_bind; [apply agree_forward | intros ?].
  do 2 (apply agree_bind; [apply agree_lift | intros ?]).
  do 2 (apply agree_bind; [apply agree_emit | intros ?]).
  apply agree_ret.
Qed.

Lemma agree_sample_loop self steps : forall sam_i sam_l cycle,
  agree (DiffuserTwo.sample_loop self steps sam_i sam_l cycle)
        (DiffuserTwo.sample_loop self steps sam_i sam_l cycle).
Proof.
  induction steps as [|t steps IH]; intros sam_i sam_l cycle; simpl.
  - apply agree_ret.
  - do 2 (apply agree_bind; [apply agree_forward | intros ?]).
    apply agree_bind.
    + destruct (DiffuserTwo.is_use_cycle (DiffuserTwo.hp self)); [|apply agree_ret].
      apply agree_bind; [apply agree_getattr | intros ?].
      apply agree_bind; [apply agree_forward | intros ?].
      apply agree_bind; [apply agree_getattr | intros ?].
      apply agree_bind; [apply agree_forward | intros ?].
      apply agree_ret.
    + intros cycle'.
      do 2 (apply agree_bind; [apply agree_scheduler_step | intros ?]).
      apply IH.
Qed.

Lemma agree_visualize self image label unsup stage stage' :
  agree (DiffuserTwo.visualize self image label unsup stage)
        (DiffuserTwo.visualize self image label unsup stage').
Proof.
  unfold DiffuserTwo.visualize.
  apply agree_bind.
  { unfold DiffuserTwo.sample. apply agree_no_grad.
    apply agree_bind; [apply agree_randn_like | intros rng0].
    apply agree_bind; [apply agree_sample_loop | intros [[sam_i sam_l] cycle]].
    apply agree_ret. }
  intros [[sam_i sam_l] cycle].
  apply agree_bind.
  { destruct (DiffuserTwo.is_use_cycle (DiffuserTwo.hp self)); [|apply agree_ret].
    destruct cycle as [[ci cl]|]; [apply agree_ret | apply agree_raise]. }
  intros tensors.
  do 3 (apply agree_bind; [apply agree_lift | intros ?]).
  apply agree_emit.
Qed.

Lemma agree_losses_one self batch stage stage' :
  agree (DiffuserOne.losses self batch stage) (DiffuserOne.losses self batch stage').
Proof.
  unfold DiffuserOne.losses.
  do 3 (apply agree_bind; [apply agree_lift | intros ?]).
  do 2 (apply agree_bind; [apply agree_randn_like | intros ?]).
  apply agree_bind; [apply agree_lift | intros bs].
  apply agree_bind; [apply agree_randint | intros ts].
  apply agree_bind; [apply agree_with_rng | intros gamma].
  do 2 (apply agree_bind; [apply agree_lift | intros ?]).
  do 2 (apply agree_bind; [apply agree_forward | intros ?]).
  do 3 (apply agree_bind; [apply agree_lift | intros ?]).
  apply agree_bind; [apply agree_forward | intros ?].
  apply agree_bind; [apply agree_lift | intros ?].
  do 2 (apply agree_bind; [apply agree_emit | intros ?]).
  apply agree_ret.
Qed.

Lemma agree_sample_loop_one self steps cls_i cls_l : forall sam_i sam_l,
  agree (DiffuserOne.sample_loop self steps cls_i cls_l sam_i sam_l)
        (DiffuserOne.sample_loop self steps cls_i cls_l sam_i sam_l).
Proof.
  induction steps as [|t steps IH]; intros sam_i sam_l; simpl.
  - apply agree_ret.
  - do 2 (apply agree_bind; [apply agree_forward | intros ?]).
    do 2 (apply agree_bind; [apply agree_scheduler_step | intros ?]).
    apply IH.
Qed.

Lemma agree_visualize_one self image label unsup cls_i cls_l stage stage' :
  agree (DiffuserOne.visualize self image label unsup cls_i cls_l stage)
        (DiffuserOne.visualize self image label unsup cls_i cls_l stage').
Proof.
  unfold DiffuserOne.visualize.
  apply agree_bind.
  { unfold DiffuserOne.sample. apply agree_no_grad.
    apply agree_bind; [apply agree_randn_like | intros rng0].
    apply agree_bind; [apply agree_sample_loop_one | intros [sam_i sam_l]].
    apply agree_ret. }
  intros [sam_i sam_l].
  do 3 (apply agree_bind; [apply agree_lift | intros ?]).
  apply agree_emit.
Qed.

Lemma akin_refl (w : world) : akin w w.
Proof. split; reflexivity. Qed.

(** Two runs end alike: with the same result, the same generator state
    and the same gradient mode. *)
Definition end_alike {A} (r r' : result A * world) : Prop :=
  fst r = fst r' /\ rng (snd r) = rng (snd r') /\ grad_enabled (snd r) = grad_enabled (snd r').

(** X8. The stage of a step only names what is logged. In the
    dual/quad-network module a step computes the same loss, fails in the
    same way and leaves the generator in the same state whatever the stage:
    a validation or test step is the training step under other log names,
    sampling included. In the class-conditioned module the same holds for
    two stages at which the step takes the same decision on whether to
    sample. *)
Theorem stage_only_names_the_logs
    (two : DiffuserTwo.DDMMLightningModule) (one : DiffuserOne.DDMMLightningModule)
    (batch : gmap string (tensor R)) (batch_idx optimizer_idx : Z)
    (stage stage' : string) (w : world) :
  end_alike (DiffuserTwo._common_step two batch batch_idx optimizer_idx stage w)
            (DiffuserTwo._common_step two batch batch_idx optimizer_idx stage' w)
  /\ (DiffuserOne.visualizes stage batch_idx = DiffuserOne.visualizes stage' batch_idx ->
      end_alike (DiffuserOne._common_step one batch batch_idx optimizer_idx stage w)
                (DiffuserOne._common_step one batch batch_idx optimizer_idx stage' w)).
Proof.
  assert (forall A (m m' : M world A), agree m m' -> end_alike (m w) (m' w)) as Hend.
  { intros A m m' Hm. destruct (Hm w w (akin_refl w)) as (Hr & Hg & Hd).
    split; [exact Hr | split; assumption]. }
  split.
  - apply Hend. unfold DiffuserTwo._common_step.
    apply agree_bind; [apply agree_losses | intros [[[image label] unsup] loss]].
    apply agree_bind; [|intros ?; apply agree_ret].
    destruct (batch_idx =? 0)%Z; [apply agree_visualize | apply agree_ret].
  - intros Hv. apply Hend. unfold DiffuserOne._common_step.
    apply agree_bind;
      [apply agree_losses_one | intros [[[[[image label] unsup] cls_i] cls_l] loss]].
    apply agree_bind; [|intros ?; apply agree_ret].
    rewrite <- Hv.
    destruct (DiffuserOne.visualizes stage batch_idx);
      [apply agree_visualize_one | apply agree_ret].
Qed.

(** *** The order of the sampling *)

(** The networks asked at timestep [t], in order: the translation
    networks come after the two denoisers, label-to-image first. *)
Definition passes_at (self : DiffuserTwo.DDMMLightningModule) (t : Z)
  : list (network * Z) :=
  [(DiffusionImage, t); (DiffusionLabel, t)]
  ++ (if DiffuserTwo.is_use_cycle (DiffuserTwo.hp self)
      then [(FromLabelToImage, t); (FromImageToLabel, t)] else []).

Definition twice (t : Z) : list Z := [t; t].

Lemma scheduler_step_Ok table out t sample w y w1 :
  scheduler_step table out t sample w = (Ok y, w1) ->
  trace w1 = trace w ++ [SchedulerStep (grad_enabled w) out t sample].
Proof. rewrite scheduler_step_run. intros [= _ <-]. reflexivity. Qed.

Lemma sample_loop_order self steps : forall sam_i sam_l cycle w r w1,
  DiffuserTwo.sample_loop self steps sam_i sam_l cycle w = (Ok r, w1) ->
  exists evs, trace w1 = trace w ++ evs
    /\ stepped evs = flat_map twice steps
    /\ sampled evs = flat_map (passes_at self) steps.
Proof.
  induction steps as [|t steps IH]; intros sam_i sam_l cycle w r w1 E; simpl in E.
  - apply ret_Ok in E as [_ ->]. exists []. rewrite app_nil_r. repeat split.
  - apply bind_Ok in E as (res_i & w2 & E1 & E).
    apply DiffuserTwo.unet_forward_Ok in E1 as [_ ->].
    apply bind_Ok in E as (res_l & w2 & E2 & E).
    apply DiffuserTwo.unet_forward_Ok in E2 as [_ ->].
    apply bind_Ok in E as (cycle' & w2 & Ec & E).
    assert (exists ce, trace w2
                       = trace w ++ [Forward DiffusionImage (grad_enabled w) sam_i (Scalar t) None;
                                     Forward DiffusionLabel (grad_enabled w) sam_l (Scalar t) None]
                         ++ ce
                       /\ stepped ce = []
                       /\ sampled ce
                          = if DiffuserTwo.is_use_cycle (DiffuserTwo.hp self)
                            then [(FromLabelToImage, t); (FromImageToLabel, t)] else [])
      as (ce & Tc & Sc & Pc).
    { destruct (DiffuserTwo.is_use_cycle (DiffuserTwo.hp self)).
      - apply bind_Ok in Ec as (f_li & w3 & G1 & Ec).
        apply DiffuserTwo.getattr_Ok in G1 as [_ ->].
        apply bind_Ok in Ec as (ci & w3 & F1 & Ec).
        apply DiffuserTwo.unet_forward_Ok in F1 as [_ ->].
        apply bind_Ok in Ec as (f_il & w3 & G2 & Ec).
        apply DiffuserTwo.getattr_Ok in G2 as [_ ->].
        apply bind_Ok in Ec as (cl & w3 & F2 & Ec).
        apply DiffuserTwo.unet_forward_Ok in F2 as [_ ->].
        apply ret_Ok in Ec as [_ ->]. cbn [trace grad_enabled].
        eexists. split; [rewrite <- !app_assoc; reflexivity|]. split; reflexivity.
      - apply ret_Ok in Ec as [_ ->]. cbn [trace]. exists [].
        split; [rewrite <- !app_assoc; reflexivity|]. split; reflexivity. }
    apply bind_Ok in E as (sam_i' & w3 & S1 & E). apply scheduler_step_Ok in S1.
    apply bind_Ok in E as (sam_l' & w4 & S2 & E). apply scheduler_step_Ok in S2.
    destruct (IH _ _ _ _ _ _ E) as (evs & Te & Se & Pe).
    eexists. split.
    { rewrite Te, S2, S1, Tc, <- !app_assoc. reflexivity. }
    split.
    + rewrite !stepped_app, Sc, Se. reflexivity.
    + rewrite !sampled_app, Pc, Pe. unfold passes_at.
      destruct (DiffuserTwo.is_use_cycle (DiffuserTwo.hp self)); reflexivity.
Qed.

Lemma sample_loop_order_one self steps cls_i cls_l : forall sam_i sam_l w r w1,
  DiffuserOne.sample_loop self steps cls_i cls_l sam_i sam_l w = (Ok r, w1) ->
  exists evs, trace w1 = trace w ++ evs
    /\ stepped evs = flat_map twice steps
    /\ sampled evs = flat_map (fun t => [(Diffusion, t); (Diffusion, t)]) steps.
Proof.
  induction steps as [|t steps IH]; intros sam_i sam_l w r w1 E; simpl in E.
  - apply ret_Ok in E as [_ ->]. exists []. rewrite app_nil_r. repeat split.
  - apply bind_Ok in E as (res_i & w2 & E1 & E).
    apply DiffuserOne.diffusion_forward_Ok in E1 as [_ ->].
    apply bind_Ok in E as (res_l & w2 & E2 & E).
    apply DiffuserOne.diffusion_forward_Ok in E2 as [_ ->].
    apply bind_Ok in E as (sam_i' & w3 & S1 & E). apply scheduler_step_Ok in S1.
    apply bind_Ok in E as (sam_l' & w4 & S2 & E). apply scheduler_step_Ok in S2.
    destruct (IH _ _ _ _ _ E) as (evs & Te & Se & Pe).
    eexists. split.
    { rewrite Te, S2, S1. cbn [trace]. rewrite <- !app_assoc. reflexivity. }
    split.
    + rewrite !stepped_app, Se. reflexivity.
    + rewrite !sampled_app, Pe. reflexivity.
Qed.

Lemma no_grad_Ok {A} (body : M world A) w r w1 :
  no_grad body w = (Ok r, w1) ->
  exists w', body (World (rng w) false (trace w)) = (Ok r, w') /\ trace w1 = trace w'.
Proof.
  unfold no_grad. destruct (body (World (rng w) false (trace w))) as [r' w'].
  intros [= -> <-]. exists w'. split; reflexivity.
Qed.

Lemma visualize_order self image label unsup stage w u w1 :
  DiffuserTwo.visualize self image label unsup stage w = (Ok u, w1) ->
  exists evs, trace w1 = trace w ++ evs
    /\ stepped evs
       = flat_map twice (Scheduler.timesteps (DiffuserTwo.num_train_timesteps self))
    /\ sampled evs
       = flat_map (passes_at self)
                  (Scheduler.timesteps (DiffuserTwo.num_train_timesteps self)).
Proof.
  intros E. unfold DiffuserTwo.visualize in E.
  apply bind_Ok in E as ([[sam_i sam_l] cycle] & w2 & Es & E).
  unfold DiffuserTwo.sample in Es. apply no_grad_Ok in Es as (w' & Es & Tw).
  apply bind_Ok in Es as (rng0 & w3 & Er & Es). rewrite randn_like_run in Er.
  injection Er as <- <-.
  apply bind_Ok in Es as ([[si sl] cy] & w3 & El & Es).
  apply sample_loop_order in El as (evs & Te & Se & Pe). cbn [trace] in Te.
  apply ret_Ok in Es as [_ ->].
  apply bind_Ok in E as (tensors & w4 & Et & E).
  assert (w4 = w2) as ->.
  { destruct (DiffuserTwo.is_use_cycle (DiffuserTwo.hp self));
      [destruct cycle as [[ci cl]|]; [|discriminate]|];
      apply ret_Ok in Et as [_ ->]; reflexivity. }
  run_lift E cat. run_lift E viz2d. run_lift E grid.
  rewrite emit_run in E. injection E as _ <-. cbn [trace].
  eexists. split; [rewrite Tw, Te, <- app_assoc; reflexivity|].
  split; [rewrite stepped_app, Se | rewrite sampled_app, Pe]; apply app_nil_r.
Qed.

Lemma visualize_order_one self image label unsup cls_i cls_l stage w u w1 :
  DiffuserOne.visualize self image label unsup cls_i cls_l stage w = (Ok u, w1) ->
  exists evs, trace w1 = trace w ++ evs
    /\ stepped evs
       = flat_map twice (Scheduler.timesteps (DiffuserOne.num_train_timesteps self))
    /\ sampled evs
       = flat_map (fun t => [(Diffusion, t); (Diffusion, t)])
                  (Scheduler.timesteps (DiffuserOne.num_train_timesteps self)).
Proof.
  intros E. unfold DiffuserOne.visualize in E.
  apply bind_Ok in E as ([sam_i sam_l] & w2 & Es & E).
  unfold DiffuserOne.sample in Es. apply no_grad_Ok in Es as (w' & Es & Tw).
  apply bind_Ok in Es as (rng0 & w3 & Er & Es). rewrite randn_like_run in Er.
  injection Er as <- <-.
  apply bind_Ok in Es as ([si sl] & w3 & El & Es).
  apply sample_loop_order_one in El as (evs & Te & Se & Pe). cbn [trace] in Te.
  apply ret_Ok in Es as [_ ->].
  run_lift E cat. run_lift E viz2d. run_lift E grid.
  rewrite emit_run in E. injection E as _ <-. cbn [trace].
  eexists. split; [rewrite Tw, Te, <- app_assoc; reflexivity|].
  split; [rewrite stepped_app, Se | rewrite sampled_app, Pe]; apply app_nil_r.
Qed.

Lemma loss_events_do_not_sample self stage evs :
  Forall (loss_event self stage) evs -> stepped evs = [] /\ sampled evs = [].
Proof.
  induction 1 as [|e evs He Hf [IH1 IH2]]; [split; reflexivity|].
  unfold stepped, sampled in *. cbn [omap list_omap].
  destruct e as [net g x [ts|t] c| | |]; simpl in He; try contradiction;
    split; assumption.
Qed.

Lemma loss_events_do_not_sample_one stage evs :
  Forall (loss_event_one stage) evs -> stepped evs = [] /\ sampled evs = [].
Proof.
  induction 1 as [|e evs He Hf [IH1 IH2]]; [split; reflexivity|].
  unfold stepped, sampled in *. cbn [omap list_omap].
  destruct e as [net g x [ts|t] c| | |]; simpl in He;
    try (destruct net; contradiction); try contradiction; split; assumption.
Qed.

(** X9. A step that samples and returns has gone through the timesteps
    of the scheduler once, in the scheduler's order. At each timestep the
    dual/quad-network module asks the image denoiser, then the label
    denoiser, then in cycle mode the label-to-image and the image-to-label
    network, and hands two predictions to the scheduler; the
    class-conditioned module asks its one network twice and hands two
    predictions to the scheduler. No scheduler step and no pass at a single
    timestep happens outside this loop. *)
Theorem sampling_visits_every_timestep
    (two : DiffuserTwo.DDMMLightningModule) (one : DiffuserOne.DDMMLightningModule)
    (batch : gmap string (tensor R)) (batch_idx optimizer_idx : Z) (stage : string)
    (w : world) :
  (forall info w1,
     DiffuserTwo._common_step two batch 0 optimizer_idx stage w = (Ok info, w1) ->
     exists evs, trace w1 = trace w ++ evs
       /\ stepped evs
          = flat_map twice (Scheduler.timesteps (DiffuserTwo.num_train_timesteps two))
       /\ sampled evs
          = flat_map (passes_at two)
                     (Scheduler.timesteps (DiffuserTwo.num_train_timesteps two)))
  /\ (forall info w1,
     DiffuserOne.visualizes stage batch_idx = true ->
     DiffuserOne._common_step one batch batch_idx optimizer_idx stage w = (Ok info, w1) ->
     exists evs, trace w1 = trace w ++ evs
       /\ stepped evs
          = flat_map twice (Scheduler.timesteps (DiffuserOne.num_train_timesteps one))
       /\ sampled evs
          = flat_map (fun t => [(Diffusion, t); (Diffusion, t)])
                     (Scheduler.timesteps (DiffuserOne.num_train_timesteps one))).
Proof.
  split.
  - intros info w1 Hstep. rewrite DiffuserTwo.common_step_unfold in Hstep.
    destruct (DiffuserTwo.losses two batch stage w)
      as [[[[[image label] unsup] loss]|e] w0] eqn:El; [|discriminate].
    destruct (emits_losses _ _ _ _ _ _ El) as (evs1 & T1 & F1).
    apply loss_events_do_not_sample in F1 as [S1 P1].
    cbn [Z.eqb] in Hstep.
    destruct (DiffuserTwo.visualize two image label unsup stage w0) as [[u|e] w2] eqn:Ev;
      [|discriminate].
    injection Hstep as _ <-.
    apply visualize_order in Ev as (evs2 & T2 & S2 & P2).
    exists (evs1 ++ evs2). split; [rewrite T2, T1, app_assoc; reflexivity|].
    rewrite stepped_app, sampled_app, S1, P1, S2, P2. split; reflexivity.
  - intros info w1 Hv Hstep. rewrite DiffuserOne.common_step_unfold_one in Hstep.
    destruct (DiffuserOne.losses one batch stage w)
      as [[[[[[[image label] unsup] cls_i] cls_l] loss]|e] w0] eqn:El; [|discriminate].
    destruct (emits_losses_one _ _ _ _ _ _ El) as (evs1 & T1 & F1).
    apply loss_events_do_not_sample_one in F1 as [S1 P1].
    rewrite Hv in Hstep.
    destruct (DiffuserOne.visualize one image label unsup cls_i cls_l stage w0)
      as [[u|e] w2] eqn:Ev; [|discriminate].
    injection Hstep as _ <-.
    apply visualize_order_one in Ev as (evs2 & T2 & S2 & P2).
    exists (evs1 ++ evs2). split; [rewrite T2, T1, app_assoc; reflexivity|].
    rewrite stepped_app, sampled_app, S1, P1, S2, P2. split; reflexivity.
Qed.

End WithExternals.
End StepFacts.

(** ** More about [dice_coef_loss] *)

Module DiceFacts.
Import Torch DiceLoss.

Lemma tmean_tinit_ext s (f f' : list nat -> R) :
  (forall idx, in_range s idx -> f idx = f' idx) ->
  tmean (tinit s f) = tmean (tinit s f').
Proof.
  intros E. unfold tmean, tinit. simpl. f_equal. f_equal.
  apply map_ext_in. intros k Hk. apply in_seq in Hk.
  apply E, unravel_in_range. lia.
Qed.

Lemma rsum2_ext H W (f f' : nat -> nat -> R) :
  (forall h w, h < H -> w < W -> f h w = f' h w) ->
  rsum H (fun h => rsum W (f h)) = rsum H (fun h => rsum W (f' h)).
Proof.
  intros E. apply rsum_ext. intros h Hh. apply rsum_ext. intros w Hw. apply E; assumption.
Qed.

(** *** The loss in closed form *)

Section Logits.
Variables (p : tensor R) (g : tensor Z) (B C H W : nat) (smooth : R).

(** The softmax over the classes at a pixel, and whether the pixel is of
    class [c]. *)
Definition denominator (b h w : nat) : R :=
  rsum C (fun k => exp (tget p [b; k; h; w])).

Definition prob (b c h w : nat) : R :=
  (exp (tget p [b; c; h; w]) / denominator b h w)%R.

Definition hit (b c h w : nat) : R :=
  if decide (tget g [b; h; w] = Z.of_nat c) then 1%R else 0%R.

(** The Dice coefficient of sample [b] and class [c], with the sums over
    the pixels of [dims = (1, 2)]. *)
Definition dice_at (idx : list nat) : R :=
  match idx with
  | [b; c] =>
      ((2.0 * rsum H (fun h => rsum W (fun w => prob b c h w * hit b c h w)) + smooth)
       / (rsum H (fun h => rsum W (fun w => prob b c h w))
          + rsum H (fun h => rsum W (fun w => hit b c h w)) + smooth))%R
  | _ => 0%R
  end.

(** The negative log-likelihood of the true class at a pixel. *)
Definition nll_at (idx : list nat) : R :=
  match idx with
  | [b; h; w] =>
      (- (tget p [b; Z.to_nat (tget g [b; h; w]); h; w] - ln (denominator b h w)))%R
  | _ => 0%R
  end.

Hypothesis Hp : shape p = [B; C; H; W].
Hypothesis Hg : shape g = [B; H; W].
Hypothesis Hcls : Forall (fun v => (0 <= v < Z.of_nat C)%Z) (data g).

Lemma closed_form :
  dice_coef_loss p g C [1; 2] smooth
  = Ok ((1.0 - tmean (tinit [B; C] dice_at)) + tmean (tinit [B; H; W] nll_at))%R.
Proof using Hp Hg Hcls.
  destruct (one_hot_is g C Hcls) as (oh & Eoh & Soh & Goh).
  rewrite Hg in Soh, Goh. cbn [app] in Soh, Goh.
  destruct (softmax_is p 1 C) as (sm & Esm & Ssm & Gsm); [rewrite Hp; reflexivity|].
  rewrite Hp in Ssm, Gsm.
  destruct (permute_channels_last sm B C H W Ssm) as (pn & Epn & Spn & Gpn).
  destruct (tbin_is (fun x o => (x * IZR o)%R) pn oh _ Spn Soh) as (prod & Eprod & Sprod & Gprod).
  destruct (tsum_12 prod B H W C Sprod) as (inter & Einter & Sinter & Ginter).
  destruct (tsum_12 pn B H W C Spn) as (sum_p & Esum_p & Ssum_p & Gsum_p).
  destruct (tsum_int_12 oh B H W C Soh) as (sum_g & Esum_g & Ssum_g & Gsum_g).
  destruct (tbin_is (fun x o => (x + IZR o)%R) sum_p sum_g _ Ssum_p Ssum_g)
    as (summation & Esummation & Ssummation & Gsummation).
  unfold dice_coef_loss.
  rewrite Eoh. cbn [mbind result_bind]. rewrite Esm. cbn [mbind result_bind].
  rewrite Epn. cbn [mbind result_bind]. rewrite Eprod. cbn [mbind result_bind].
  rewrite Einter. cbn [mbind result_bind]. rewrite Esum_p. cbn [mbind result_bind].
  rewrite Esum_g. cbn [mbind result_bind]. rewrite Esummation. cbn [mbind result_bind].
  rewrite (tbin_same _ _ _ [B; C]) by (cbn; assumption).
  cbn [mbind result_bind].
  unfold F.cross_entropy. rewrite Hp, Hg.
  rewrite !bool_decide_eq_true_2 by reflexivity.
  assert (forallb (fun v => (0 <=? v)%Z && (v <? Z.of_nat C)%Z) (data g) = true) as ->.
  { apply forallb_forall. intros v Hv. rewrite Forall_forall in Hcls.
    apply list_elem_of_In, Hcls in Hv. lia. }
  cbn [mbind result_bind].
  assert (Hpn : forall b h w c, b < B -> h < H -> w < W -> c < C ->
            tget pn [b; h; w; c] = prob b c h w).
  { intros b h w c Hb Hh Hw_ Hc. rewrite Gpn by assumption.
    rewrite Gsm by (repeat constructor; assumption). reflexivity. }
  assert (Hoh : forall b h w c, b < B -> h < H -> w < W -> c < C ->
            IZR (tget oh [b; h; w; c]) = hit b c h w).
  { intros b h w c Hb Hh Hw_ Hc. rewrite Goh by (repeat constructor; assumption).
    unfold hit. change (removelast [b; h; w; c]) with [b; h; w].
    change (default 0 (last [b; h; w; c])) with c.
    destruct (decide (tget g [b; h; w] = Z.of_nat c)); reflexivity. }
  rewrite (tmean_tinit_ext [B; C] _ dice_at).
  - rewrite (tmean_tinit_ext (B :: [H; W]) _ nll_at); [reflexivity|].
    intros idx Hr.
    inversion Hr as [|b ? idx1 ? Hb Hr1]; subst.
    inversion Hr1 as [|h ? idx2 ? Hh Hr2]; subst.
    inversion Hr2 as [|w ? idx3 ? Hw_ Hr3]; subst.
    inversion Hr3; subst. reflexivity.
  - intros idx Hr. rewrite bidx_same by exact Hr.
    rewrite (proj2 (tmap_is (fun x => (2.0 * x + smooth)%R) inter))
      by (rewrite Sinter; exact Hr).
    rewrite (proj2 (tmap_is (fun x => (x + smooth)%R) summation))
      by (rewrite Ssummation; exact Hr).
    rewrite Gsummation by exact Hr.
    inversion Hr as [|b ? idx1 ? Hb Hr1]; subst.
    inversion Hr1 as [|c ? idx2 ? Hc Hr2]; subst.
    inversion Hr2; subst.
    rewrite Ginter, Gsum_p, Gsum_g by assumption. unfold dice_at.
    rewrite (rsum2_ext H W (fun h w => tget prod [b; h; w; c])
                           (fun h w => (prob b c h w * hit b c h w)%R)).
    2:{ intros h w Hh Hw_. rewrite Gprod by (repeat constructor; assumption).
        rewrite Hpn, Hoh by assumption. reflexivity. }
    rewrite (rsum2_ext H W (fun h w => tget pn [b; h; w; c]) (fun h w => prob b c h w))
      by (intros; apply Hpn; assumption).
    rewrite (rsum2_ext H W (fun h w => IZR (tget oh [b; h; w; c]))
                           (fun h w => hit b c h w))
      by (intros; apply Hoh; assumption).
    reflexivity.
Qed.

End Logits.
Lemma class_of_pixel (g : tensor Z) B C H W b h w :
  shape g = [B; H; W] -> wf g ->
  Forall (fun v => (0 <= v < Z.of_nat C)%Z) (data g) ->
  b < B -> h < H -> w < W -> (0 <= tget g [b; h; w] < Z.of_nat C)%Z.
Proof.
  intros Hg Hwf Hcls Hb Hh Hw.
  assert (tget g [b; h; w] ∈ data g) as Hin
    by (apply tget_in_data; [exact Hwf | rewrite Hg; repeat constructor; assumption]).
  rewrite Forall_forall in Hcls. apply Hcls, Hin.
Qed.

(** X10. [dice_coef_loss] with [dims = (1, 2)] on logits of shape
    [B, C, H, W] and a class map of shape [B, H, W] with classes in
    [0, C) returns [1 - mean Dice + mean NLL]: the Dice coefficient of a
    sample and a class is taken between the softmax probabilities of the
    class and the indicator of the class over the pixels of the sample,
    smoothed in numerator and denominator, and averaged over samples and
    classes; the second term is the negative log-likelihood of the true
    class under the same softmax, averaged over all pixels. *)
Theorem dice_coef_loss_closed_form (p : tensor R) (g : tensor Z)
    (B C H W : nat) (smooth : R) :
  shape p = [B; C; H; W] ->
  shape g = [B; H; W] ->
  Forall (fun v => (0 <= v < Z.of_nat C)%Z) (data g) ->
  dice_coef_loss p g C [1; 2] smooth
  = Ok ((1.0 - tmean (tinit [B; C] (dice_at p g C H W smooth)))
        + tmean (tinit [B; H; W] (nll_at p g C)))%R.
Proof. apply closed_form. Qed.

(** X12. With a single class the loss is exactly 0 for every prediction
    (a non-empty batch of non-empty images, [smooth > 0]): the softmax over
    one channel is 1 everywhere, so the Dice coefficient is 1 and the
    cross-entropy is 0. *)
Theorem dice_coef_loss_single_class (p : tensor R) (g : tensor Z)
    (B H W : nat) (smooth : R) :
  shape p = [B; 1; H; W] ->
  shape g = [B; H; W] ->
  wf g ->
  Forall (fun v => (0 <= v < 1)%Z) (data g) ->
  0 < B -> 0 < H -> 0 < W -> (0 < smooth)%R ->
  dice_coef_loss p g 1 [1; 2] smooth = Ok 0%R.
Proof.
  intros Hp Hg Hwf Hcls HB HH HW Hs.
  rewrite (closed_form p g B 1 H W smooth Hp Hg Hcls).
  assert (forall b h w, prob p 1 b 0 h w = 1%R) as Hprob.
  { intros b h w. unfold prob, denominator. simpl rsum.
    pose proof (exp_pos (tget p [b; 0; h; w])). field. lra. }
  assert (forall b h w, b < B -> h < H -> w < W -> hit g b 0 h w = 1%R) as Hhit.
  { intros b h w Hb Hh Hw_. unfold hit.
    pose proof (class_of_pixel g B 1 H W b h w Hg Hwf Hcls Hb Hh Hw_) as Hc.
    rewrite decide_True by lia. reflexivity. }
  rewrite (tmean_tinit_const [B; 1] _ 1%R); [|simpl; lia|].
  - rewrite (tmean_tinit_const [B; H; W] _ 0%R); [f_equal; lra | simpl; nia|].
    intros idx Hr.
    inversion Hr as [|b ? idx1 ? Hb Hr1]; subst.
    inversion Hr1 as [|h ? idx2 ? Hh Hr2]; subst.
    inversion Hr2 as [|w ? idx3 ? Hw_ Hr3]; subst.
    inversion Hr3; subst. unfold nll_at, denominator. simpl rsum.
    pose proof (class_of_pixel g B 1 H W b h w Hg Hwf Hcls Hb Hh Hw_) as Hc.
    replace (tget g [b; h; w]) with 0%Z by lia. change (Z.to_nat 0) with 0.
    rewrite Rplus_0_l, ln_exp. lra.
  - intros idx Hr.
    inversion Hr as [|b ? idx1 ? Hb Hr1]; subst.
    inversion Hr1 as [|c ? idx2 ? Hc Hr2]; subst.
    inversion Hr2; subst. assert (c = 0) as -> by lia. unfold dice_at.
    rewrite (rsum2_ext H W (fun h w => (prob p 1 b 0 h w * hit g b 0 h w)%R)
                           (fun _ _ => 1%R))
      by (intros h w Hh Hw_; rewrite Hprob, Hhit by assumption; lra).
    rewrite (rsum2_ext H W (fun h w => prob p 1 b 0 h w) (fun _ _ => 1%R))
      by (intros; apply Hprob).
    rewrite (rsum2_ext H W (fun h w => hit g b 0 h w) (fun _ _ => 1%R))
      by (intros; apply Hhit; assumption).
    set (X := rsum H (fun _ => rsum W (fun _ => 1%R))).
    assert (0 <= X)%R by (apply rsum2_nonneg; intros; lra).
    replace (2.0 * X + smooth)%R with (X + X + smooth)%R by lra.
    field. lra.
Qed.

(** X13. A class map with a value outside [0, num_classes) is refused by
    the one-hot encoding, the first statement of the function: the loss
    raises a [RuntimeError] whatever the predictions, the dimensions and the
    smoothing are. *)
Theorem dice_coef_loss_rejects_unknown_class (p : tensor R) (g : tensor Z)
    (C : nat) (dims : list nat) (smooth : R) :
  Exists (fun v => (v < 0 \/ Z.of_nat C <= v)%Z) (data g) ->
  exists msg, dice_coef_loss p g C dims smooth = Raise (RuntimeError msg).
Proof.
  intros Hbad. unfold dice_coef_loss, F.one_hot.
  destruct (forallb (fun v => (0 <=? v)%Z && (v <? Z.of_nat C)%Z) (data g)) eqn:E.
  - exfalso. apply Exists_exists in Hbad as (v & Hin & Hv).
    rewrite forallb_forall in E. apply list_elem_of_In, E in Hin. lia.
  - cbn. eauto.
Qed.

(** X14. The loss never returns for predictions that do not have exactly
    four dimensions: the permutation to channels-last (or, below two
    dimensions, the softmax over dimension 1) raises. *)
Theorem dice_coef_loss_needs_four_dimensions (p : tensor R) (g : tensor Z)
    (C : nat) (dims : list nat) (smooth : R) :
  length (shape p) <> 4 ->
  exists e, dice_coef_loss p g C dims smooth = Raise e.
Proof.
  intros Hrank. unfold dice_coef_loss.
  destruct (F.one_hot g C) as [oh|e]; [|cbn; eauto]. cbn [mbind result_bind].
  unfold F.softmax. destruct (shape p !! 1) as [n|]; [|cbn; eauto].
  cbn [mbind result_bind]. unfold permute. cbn [shape tinit].
  rewrite bool_decide_eq_false_2; [cbn; eauto|].
  intros [Hl _]. simpl in Hl. lia.
Qed.

(** A pixel of class 0 with the logits [1, 0], and a single-channel
    prediction for the same pixel. *)
Definition one_channel : tensor R := Tensor [1; 1; 1; 1] [5%R].
Definition flat_predictions : tensor R := Tensor [2; 1; 1] [1%R; 0%R].
Definition unknown_class : tensor Z := Tensor [1; 1; 1] [2%Z].

Definition tiny_dice_mean : R :=
  tmean (tinit [1; 2] (dice_at tiny_predictions tiny_ground_truths 2 1 1 default_smooth)).

Definition tiny_nll_mean : R :=
  tmean (tinit [1; 1; 1] (nll_at tiny_predictions tiny_ground_truths 2)).

Lemma dice_coef_loss_closed_form_witness :
  dice_coef_loss tiny_predictions tiny_ground_truths 2 [1; 2] default_smooth
  = Ok ((1.0 - tiny_dice_mean) + tiny_nll_mean)%R.
Proof.
  apply (dice_coef_loss_closed_form tiny_predictions tiny_ground_truths 1 2 1 1).
  - reflexivity.
  - reflexivity.
  - constructor; [lia | constructor].
Defined.

Lemma dice_coef_loss_single_class_witness :
  dice_coef_loss one_channel tiny_ground_truths 1 [1; 2] default_smooth = Ok 0%R.
Proof.
  apply (dice_coef_loss_single_class one_channel tiny_ground_truths 1 1 1).
  - reflexivity.
  - reflexivity.
  - reflexivity.
  - constructor; [lia | constructor].
  - lia.
  - lia.
  - lia.
  - unfold default_smooth. lra.
Defined.

Lemma dice_coef_loss_rejects_unknown_class_witness :
  exists msg,
    dice_coef_loss tiny_predictions unknown_class 2 [1; 2] default_smooth
    = Raise (RuntimeError msg).
Proof.
  apply dice_coef_loss_rejects_unknown_class.
  constructor. right. simpl. lia.
Defined.

Lemma dice_coef_loss_needs_four_dimensions_witness :
  exists e,
    dice_coef_loss flat_predictions tiny_ground_truths 2 [1; 2] default_smooth = Raise e.
Proof.
  apply dice_coef_loss_needs_four_dimensions. simpl. lia.
Defined.

End DiceFacts.

(** ** More about [PairedAndUnsupervisedDataset] *)

Module DatasetFacts.

Section Facts.
Variable rstate : Type.
Variable np_seed : Z -> rstate.
Variable np_randint : Z -> Z -> rstate -> Z * rstate.
Variable obj : Type.
Variable tenv : Type.

Abbreviation world := (Dataset.world rstate tenv).
Abbreviation dataset := (Dataset.dataset obj tenv).
Abbreviation R_seed := (Dataset.R_seed rstate np_seed tenv).
Abbreviation R_randint := (Dataset.R_randint rstate np_randint tenv).
Abbreviation len_of := (Dataset.len_of rstate obj tenv).
Abbreviation data_at := (Dataset.data_at rstate obj tenv).
Abbreviation select := (Dataset.select rstate np_seed np_randint obj tenv).
Abbreviation _transform := (Dataset._transform rstate np_seed np_randint obj tenv).

(** [__len__]: the size of the smallest pool unless a length was given;
    [min] of no pools raises. *)
Definition __len__ (self : dataset) : result nat :=
  match Dataset.length_ obj tenv self with
  | None =>
      match map length (Dataset.data obj tenv self) with
      | [] => Raise (ValueError "min() arg is an empty sequence")
      | n :: ns => Ok (foldl Nat.min n ns)
      end
  | Some n => Ok n
  end.

(** [randint(low, high)] of numpy returns an integer of [low, high). *)
Definition randint_in_range : Prop :=
  forall low high r, (low < high)%Z -> (low <= fst (np_randint low high r) < high)%Z.

Lemma getitem_in_range {A} (l : list A) (i : Z) :
  (0 <= i < Z.of_nat (length l))%Z ->
  exists x, l !! Z.to_nat i = Some x /\ getitem l i = Ok x.
Proof.
  intros Hi. unfold getitem. cbn zeta.
  destruct (Z.ltb_spec i 0) as [E|E]; [lia|].
  destruct (Z.ltb_spec i 0) as [E'|E']; [lia|].
  destruct (l !! Z.to_nat i) as [x|] eqn:El; [eauto|].
  apply lookup_ge_None in El. lia.
Qed.

Lemma getitem_at {A} (l : list A) (n : nat) x :
  l !! n = Some x -> getitem l (Z.of_nat n) = Ok x.
Proof.
  intros El. pose proof (lookup_lt_Some _ _ _ El) as Hn.
  destruct (getitem_in_range l (Z.of_nat n)) as (y & Hy & ->); [lia|].
  rewrite Nat2Z.id in Hy. congruence.
Qed.

Lemma R_seed_run index (w : world) :
  (0 <= index < 2 ^ 32)%Z ->
  R_seed index w = (Ok tt, Dataset.World rstate tenv (np_seed index) (Dataset.T _ _ w)).
Proof.
  intros Hi. unfold Dataset.R_seed.
  destruct (Z.ltb_spec index 0); [lia|]. destruct (Z.leb_spec (2 ^ 32) index); [lia|].
  reflexivity.
Qed.

Lemma R_randint_run low high (w : world) :
  (low < high)%Z ->
  R_randint low high w
  = (Ok (fst (np_randint low high (Dataset.R _ _ w))),
     Dataset.World rstate tenv (snd (np_randint low high (Dataset.R _ _ w)))
                   (Dataset.T _ _ w)).
Proof.
  intros Hlt. unfold Dataset.R_randint. destruct (Z.leb_spec high low); [lia|].
  destruct (np_randint low high (Dataset.R _ _ w)). reflexivity.
Qed.

Lemma len_of_run (self : dataset) (k : nat) d (w : world) :
  Dataset.data _ _ self !! k = Some d ->
  len_of self (Z.of_nat k) w = (Ok (Z.of_nat (length d)), w).
Proof.
  intros Hd. unfold Dataset.len_of.
  rewrite (bind_run _ _ _ d w); [reflexivity|].
  unfold lift. rewrite (getitem_at _ _ _ Hd). reflexivity.
Qed.

Lemma data_at_run (self : dataset) (k : nat) d i x (w : world) :
  Dataset.data _ _ self !! k = Some d -> getitem d i = Ok x ->
  data_at self (Z.of_nat k) i w = (Ok x, w).
Proof.
  intros Hd Hx. unfold Dataset.data_at.
  rewrite (bind_run _ _ _ d w); [unfold lift; rewrite Hx; reflexivity|].
  unfold lift. rewrite (getitem_at _ _ _ Hd). reflexivity.
Qed.

Lemma lift_run {S A} (r : result A) (a : A) (s : S) : r = Ok a -> lift r s = (Ok a, s).
Proof. intros ->. reflexivity. Qed.

(** X15. When the selection of [_transform] succeeds: for a dataset with
    three keys and three pools, a paired pool that is not empty and not
    longer than the label pool, an unsup pool that is not empty, and an index
    that numpy accepts as a seed, the selection returns. It returns the
    image and the label found at one and the same position of their pools
    and an unsup entry of the third pool; under three different keys each of
    them is found in the returned dict under its key. *)
Theorem select_succeeds (self : dataset) (index : Z) (w : world)
    (k0 k1 k2 : string) (d0 d1 d2 : list obj) :
  randint_in_range ->
  Dataset.keys _ _ self !! 0 = Some k0 ->
  Dataset.keys _ _ self !! 1 = Some k1 ->
  Dataset.keys _ _ self !! 2 = Some k2 ->
  Dataset.data _ _ self !! 0 = Some d0 ->
  Dataset.data _ _ self !! 1 = Some d1 ->
  Dataset.data _ _ self !! 2 = Some d2 ->
  (0 <= index < 2 ^ 32)%Z ->
  0 < length d0 <= length d1 ->
  0 < length d2 ->
  exists i j image label unsup d,
    d0 !! i = Some image /\ d1 !! i = Some label /\ d2 !! j = Some unsup
    /\ fst (select self index w) = Ok d
    /\ d = <[k2 := unsup]> (<[k1 := label]> (<[k0 := image]> ∅))
    /\ (k0 <> k1 -> k0 <> k2 -> k1 <> k2 ->
        d !! k0 = Some image /\ d !! k1 = Some label /\ d !! k2 = Some unsup).
Proof.
  intros Hr Hk0 Hk1 Hk2 Hd0 Hd1 Hd2 Hidx Hl0 Hl2.
  unfold Dataset.select.
  rewrite (bind_run _ _ _ _ _ (R_seed_run index w Hidx)).
  rewrite (bind_run _ _ _ _ _ (len_of_run self 0 d0 _ Hd0)).
  assert (0 < Z.of_nat (length d0))%Z as Hp0 by lia.
  rewrite (bind_run _ _ _ _ _ (R_randint_run 0 _ _ Hp0)).
  cbn [Dataset.R Dataset.T].
  pose proof (Hr 0%Z _ (np_seed index) Hp0) as Hi.
  set (i := fst (np_randint 0 (Z.of_nat (length d0)) (np_seed index))) in *.
  set (r1 := snd (np_randint 0 (Z.of_nat (length d0)) (np_seed index))).
  rewrite (bind_run _ _ _ _ _ (lift_run _ _ _ (getitem_at _ 0 _ Hk0))).
  destruct (getitem_in_range d0 i) as (image & Li & Gi); [lia|].
  rewrite (bind_run _ _ _ _ _ (data_at_run self 0 d0 i image _ Hd0 Gi)).
  rewrite (bind_run _ _ _ _ _ (lift_run _ _ _ (getitem_at _ 1 _ Hk1))).
  destruct (getitem_in_range d1 i) as (label & Ll & Gl); [lia|].
  rewrite (bind_run _ _ _ _ _ (data_at_run self 1 d1 i label _ Hd1 Gl)).
  rewrite (bind_run _ _ _ _ _ (len_of_run self 2 d2 _ Hd2)).
  assert (0 < Z.of_nat (length d2))%Z as Hp2 by lia.
  rewrite (bind_run _ _ _ _ _ (R_randint_run 0 _ _ Hp2)).
  cbn [Dataset.R Dataset.T].
  pose proof (Hr 0%Z _ r1 Hp2) as Hj.
  set (j := fst (np_randint 0 (Z.of_nat (length d2)) r1)) in *.
  rewrite (bind_run _ _ _ _ _ (lift_run _ _ _ (getitem_at _ 2 _ Hk2))).
  destruct (getitem_in_range d2 j) as (unsup & Lu & Gu); [lia|].
  rewrite (bind_run _ _ _ _ _ (data_at_run self 2 d2 j unsup _ Hd2 Gu)).
  exists (Z.to_nat i), (Z.to_nat j), image, label, unsup. eexists.
  split; [exact Li|]. split; [exact Ll|]. split; [exact Lu|].
  split; [reflexivity|]. split; [reflexivity|].
  intros H01 H02 H12. split; [|split].
  - rewrite lookup_insert_ne by congruence. rewrite lookup_insert_ne by congruence.
    apply lookup_insert_eq.
  - rewrite lookup_insert_ne by congruence. apply lookup_insert_eq.
  - apply lookup_insert_eq.
Qed.

(** X16. What [_transform] refuses before it selects anything. An index
    outside [0, 2^32) is no seed: the call raises [ValueError] and leaves the
    generator and the transforms as they were. With an index in that range
    and an empty paired pool the call raises a [ValueError] (whose wording is
    numpy's) at the first [randint], the generator having been re-seeded and
    nothing drawn. *)
Theorem transform_refuses_bad_seed_and_empty_pool (self : dataset) (index : Z) (w : world) :
  ((index < 0 \/ 2 ^ 32 <= index)%Z ->
     _transform self index w
     = (Raise (ValueError "Seed must be between 0 and 2**32 - 1"), w))
  /\ ((0 <= index < 2 ^ 32)%Z ->
      Dataset.data _ _ self !! 0 = Some [] ->
      exists msg,
        _transform self index w
        = (Raise (ValueError msg),
           Dataset.World rstate tenv (np_seed index) (Dataset.T _ _ w))).
Proof.
  split.
  - intros Hbad. unfold Dataset._transform, Dataset.select.
    apply bind_raise. apply bind_raise. unfold Dataset.R_seed.
    destruct (Z.ltb_spec index 0) as [E|E]; [reflexivity|].
    destruct (Z.leb_spec (2 ^ 32) index) as [E'|E']; [reflexivity | lia].
  - intros Hidx Hd0. eexists. unfold Dataset._transform, Dataset.select.
    apply bind_raise.
    rewrite (bind_run _ _ _ _ _ (R_seed_run index w Hidx)).
    rewrite (bind_run _ _ _ _ _ (len_of_run self 0 [] _ Hd0)).
    apply bind_raise. reflexivity.
Qed.

Lemma foldl_min_le ns : forall n, foldl Nat.min n ns <= n.
Proof.
  induction ns as [|m ns IH]; intros n; simpl; [lia|].
  specialize (IH (Nat.min n m)). lia.
Qed.

Lemma foldl_min_lower ns : forall n, Forall (fun m => foldl Nat.min n ns <= m) ns.
Proof.
  induction ns as [|m ns IH]; intros n; simpl; constructor.
  - pose proof (foldl_min_le ns (Nat.min n m)). lia.
  - apply IH.
Qed.

Lemma foldl_min_attained ns : forall n, foldl Nat.min n ns = n \/ foldl Nat.min n ns ∈ ns.
Proof.
  induction ns as [|m ns IH]; intros n; simpl; [left; reflexivity|].
  destruct (IH (Nat.min n m)) as [E|E].
  - destruct (Nat.min_spec n m) as [[_ E']|[_ E']].
    + left. rewrite E. exact E'.
    + right. rewrite E, E'. apply elem_of_cons. left. reflexivity.
  - right. apply elem_of_cons. right. exact E.
Qed.

(** X17. [__len__] without a given length is the size of the smallest
    pool: no pool is shorter and some pool has exactly that size; without
    any pool it raises [ValueError]. A given length is returned as it is,
    whatever the pools hold. *)
Theorem len_is_smallest_pool (self : dataset) :
  match Dataset.length_ _ _ self with
  | Some n => __len__ self = Ok n
  | None =>
      match Dataset.data _ _ self with
      | [] => exists msg, __len__ self = Raise (ValueError msg)
      | _ :: _ =>
          exists n, __len__ self = Ok n
            /\ Forall (fun d => n <= length d) (Dataset.data _ _ self)
            /\ Exists (fun d => length d = n) (Dataset.data _ _ self)
      end
  end.
Proof.
  unfold __len__. destruct (Dataset.length_ _ _ self) as [n|]; [reflexivity|].
  destruct (Dataset.data _ _ self) as [|d ds]; [simpl; eauto|].
  cbn [map]. eexists. split; [reflexivity|]. split.
  - constructor; [apply foldl_min_le|].
    apply Forall_map. apply foldl_min_lower.
  - destruct (foldl_min_attained (map length ds) (length d)) as [E|E].
    + apply Exists_cons_hd. symmetry. exact E.
    + apply Exists_cons_tl. apply list_elem_of_fmap in E as (d' & E & Hin).
      apply Exists_exists. exists d'. split; [exact Hin | symmetry; exact E].
Qed.

End Facts.

(** A dataset of two pairs and one unsup entry, with a counter as
    generator. *)
Definition toy_seed (index : Z) : Z := index.
Definition toy_randint (low high r : Z) : Z * Z :=
  ((low + r `mod` (high - low))%Z, (r + 1)%Z).

Definition toy_dataset : Dataset.dataset nat unit :=
  Dataset.Dataset nat unit ["image"; "label"; "unsup"] [[10; 11]; [20; 21]; [30]] None None 1.

Definition no_pairs : Dataset.dataset nat unit :=
  Dataset.Dataset nat unit ["image"; "label"; "unsup"] [[]; []; [30]] None None 1.

Definition toy_world : Dataset.world Z unit := Dataset.World Z unit 0%Z tt.

Lemma toy_randint_in_range : randint_in_range Z toy_randint.
Proof.
  intros low high r Hlt. simpl.
  pose proof (Z.mod_pos_bound r (high - low)). lia.
Qed.

Lemma select_succeeds_witness :
  exists i j image label unsup d,
    [10; 11] !! i = Some image /\ [20; 21] !! i = Some label /\ [30] !! j = Some unsup
    /\ fst (Dataset.select Z toy_seed toy_randint nat unit toy_dataset 7 toy_world) = Ok d
    /\ d = <["unsup" := unsup]> (<["label" := label]> (<["image" := image]> ∅))
    /\ ("image" <> "label" -> "image" <> "unsup" -> "label" <> "unsup" ->
        d !! "image" = Some image /\ d !! "label" = Some label
        /\ d !! "unsup" = Some unsup).
Proof.
  apply (select_succeeds Z toy_seed toy_randint nat unit toy_dataset 7 toy_world
           "image" "label" "unsup" [10; 11] [20; 21] [30]).
  - exact toy_randint_in_range.
  - reflexivity.
  - reflexivity.
  - reflexivity.
  - reflexivity.
  - reflexivity.
  - reflexivity.
  - lia.
  - simpl. lia.
  - simpl. lia.
Defined.

Lemma transform_refuses_bad_seed_and_empty_pool_witness :
  Dataset._transform Z toy_seed toy_randint nat unit toy_dataset (-1) toy_world
  = (Raise (ValueError "Seed must be between 0 and 2**32 - 1"), toy_world)
  /\ exists msg,
       Dataset._transform Z toy_seed toy_randint nat unit no_pairs 7 toy_world
       = (Raise (ValueError msg), Dataset.World Z unit 7%Z tt).
Proof.
  destruct (transform_refuses_bad_seed_and_empty_pool Z toy_seed toy_randint nat unit
              toy_dataset (-1) toy_world) as [Hbad _].
  destruct (transform_refuses_bad_seed_and_empty_pool Z toy_seed toy_randint nat unit
              no_pairs 7 toy_world) as [_ Hempty].
  split; [apply Hbad; lia | apply Hempty; [lia | reflexivity]].
Defined.

End DatasetFacts.

(** ** More about [ClassConditionedUNet.forward] *)

Module ConditionedFacts.
Import Torch Runtime DiffuserOne.

Lemma embedding_cons table l labels :
  embedding table (l :: labels)
  = (row ← (if (l <? 0)%Z then Raise IndexError else getitem table l);
     rows ← embedding table labels; Ok (row :: rows)).
Proof. reflexivity. Qed.

Lemma embedding_Ok table labels :
  Forall (fun l => (0 <= l < Z.of_nat (length table))%Z) labels ->
  exists rows,
    embedding table labels = Ok rows
    /\ length rows = length labels
    /\ forall b l, labels !! b = Some l -> rows !! b = table !! Z.to_nat l.
Proof.
  induction 1 as [|l labels Hl Hf (rows & E & Hlen & Hrows)].
  - exists []. repeat split. intros b l Hb. discriminate.
  - destruct (DatasetFacts.getitem_in_range table l Hl) as (row & Lr & Gr).
    exists (row :: rows). rewrite embedding_cons.
    destruct (Z.ltb_spec l 0); [lia|]. rewrite Gr. cbn [mbind result_bind].
    rewrite E. cbn [mbind result_bind]. split; [reflexivity|].
    split; [simpl; rewrite Hlen; reflexivity|].
    intros [|b] l' Hb; simpl in Hb.
    + injection Hb as <-. simpl. symmetry. exact Lr.
    + simpl. apply Hrows, Hb.
Qed.

Lemma embedding_out_of_range table labels :
  Exists (fun l => (l < 0 \/ Z.of_nat (length table) <= l)%Z) labels ->
  embedding table labels = Raise IndexError.
Proof.
  induction labels as [|l labels IH]; intros Hbad; [inversion Hbad|].
  rewrite embedding_cons.
  destruct (Z.ltb_spec l 0) as [Hneg|Hpos]; [reflexivity|].
  unfold getitem. cbn zeta.
  destruct (Z.ltb_spec l 0) as [E|E]; [lia|].
  destruct (Z.ltb_spec l 0) as [E'|E']; [lia|].
  destruct (table !! Z.to_nat l) as [row|] eqn:Lr; [|reflexivity].
  cbn [mbind result_bind].
  apply lookup_lt_Some in Lr.
  inversion Hbad as [? ? Hl|? ? Ht]; subst; [lia|].
  rewrite (IH Ht). reflexivity.
Qed.

(** The value of the class embedding of sample [b] at position [k]. *)
Definition class_value (table : list (list R)) (labels : list Z) (b k : nat) : R :=
  default 0%R (l ← labels !! b; row ← table !! Z.to_nat l; row !! k).

(** X18. What the class-conditioned network hands to its inner model:
    for an input of shape [bs, ch, w, h] (an empty batch included) and one
    class label per sample, each a row of the embedding table, the inner
    model is called, with the same timestep, on a tensor of shape
    [bs, ch + emb, w, h], [emb] being the width of the table, whose first
    [ch] channels are the input and whose other channels hold, at every
    spatial position alike, the embedding of the class of the sample. *)
Theorem forward_conditioned_input (net : ClassConditionedUNet) (x : tensor R)
    (t : timestep_arg) (class_labels : list Z) (bs ch w h : nat) :
  shape x = [bs; ch; w; h] ->
  length class_labels = bs ->
  Forall (fun l => (0 <= l < Z.of_nat (length (class_emb net)))%Z) class_labels ->
  exists net_input,
    forward_conditioned net x t class_labels = model net net_input t
    /\ shape net_input = [bs; ch + class_emb_size net; w; h]
    /\ forall b c i j, b < bs -> c < ch + class_emb_size net -> i < w -> j < h ->
         tget net_input [b; c; i; j]
         = if c <? ch then tget x [b; c; i; j]
           else class_value (class_emb net) class_labels b (c - ch).
Proof.
  intros Hx Hlen Hlab.
  destruct (embedding_Ok _ _ Hlab) as (rows & E & Hl & Hr).
  unfold forward_conditioned. rewrite Hx, E. cbn [mbind result_bind].
  rewrite Hl, Hlen, Nat.eqb_refl.
  eexists. split; [reflexivity|]. split; [reflexivity|].
  intros b c i j Hb Hc Hi Hj.
  rewrite tget_tinit by (repeat constructor; assumption).
  destruct (c <? ch); [reflexivity|].
  unfold class_value.
  destruct (class_labels !! b) as [l|] eqn:Lb.
  - rewrite (Hr b l Lb). reflexivity.
  - apply lookup_ge_None in Lb. lia.
Qed.

(** X19. What the class-conditioned network refuses, before its inner
    model is called: an input that does not have exactly four dimensions
    ([ValueError], at the unpacking of the shape); for a four-dimensional
    input, a class label that is no row of the embedding table
    ([IndexError]); and, with labels that are rows of a table of positive
    width, a number of labels other than the batch size, no label at all
    included ([RuntimeError], at the view of the embedding). *)
Theorem forward_conditioned_refuses (net : ClassConditionedUNet) (x : tensor R)
    (t : timestep_arg) (class_labels : list Z) :
  (length (shape x) <> 4 ->
     exists msg, forward_conditioned net x t class_labels = Raise (ValueError msg))
  /\ (length (shape x) = 4 ->
      Exists (fun l => (l < 0 \/ Z.of_nat (length (class_emb net)) <= l)%Z) class_labels ->
      forward_conditioned net x t class_labels = Raise IndexError)
  /\ (forall bs ch w h,
      shape x = [bs; ch; w; h] ->
      Forall (fun l => (0 <= l < Z.of_nat (length (class_emb net)))%Z) class_labels ->
      0 < class_emb_size net ->
      length class_labels <> bs ->
      exists msg, forward_conditioned net x t class_labels = Raise (RuntimeError msg)).
Proof.
  split; [|split].
  - intros Hrank. unfold forward_conditioned.
    destruct (shape x) as [|bs [|ch [|w [|h [|? ?]]]]]; simpl in Hrank; try lia; eauto.
  - intros Hrank Hbad. unfold forward_conditioned.
    destruct (shape x) as [|bs [|ch [|w [|h [|? ?]]]]]; simpl in Hrank; try lia.
    rewrite (embedding_out_of_range _ _ Hbad). reflexivity.
  - intros bs ch w h Hx Hlab Hemb Hlen.
    destruct (embedding_Ok _ _ Hlab) as (rows & E & Hl & Hr).
    unfold forward_conditioned. rewrite Hx, E. cbn [mbind result_bind].
    rewrite Hl.
    destruct (Nat.eqb_spec (length class_labels * class_emb_size net)
                           (bs * class_emb_size net)) as [Eq|Ne]; [nia|].
    eauto.
Qed.

(** A table of two classes, embedded in two numbers each. *)
Definition two_classes : ClassConditionedUNet :=
  ClassConditioned [[0; 0]; [1; 1]]%R 2 (fun x _ => Ok x).

Definition one_pixel : tensor R := Tensor [1; 1; 1; 1] [5%R].
Definition one_row : tensor R := Tensor [1; 1; 1] [5%R].
Definition no_sample : tensor R := Tensor [0; 1; 1; 1] [].

Lemma forward_conditioned_input_witness :
  (exists net_input,
     forward_conditioned two_classes one_pixel (Scalar 0) [1%Z]
     = model two_classes net_input (Scalar 0)
     /\ shape net_input = [1; 1 + 2; 1; 1]
     /\ forall b c i j, b < 1 -> c < 1 + 2 -> i < 1 -> j < 1 ->
          tget net_input [b; c; i; j]
          = if c <? 1 then tget one_pixel [b; c; i; j]
            else class_value (class_emb two_classes) [1%Z] b (c - 1))
  /\ (exists net_input,
     forward_conditioned two_classes no_sample (Scalar 0) []
     = model two_classes net_input (Scalar 0)
     /\ shape net_input = [0; 1 + 2; 1; 1]).
Proof.
  split.
  - apply (forward_conditioned_input two_classes one_pixel (Scalar 0) [1%Z] 1 1 1 1).
    + reflexivity.
    + reflexivity.
    + constructor; [simpl; lia | constructor].
  - destruct (forward_conditioned_input two_classes no_sample (Scalar 0) [] 0 1 1 1)
      as (net_input & E & Hs & _).
    + reflexivity.
    + reflexivity.
    + constructor.
    + exists net_input. split; [exact E | exact Hs].
Defined.

Lemma forward_conditioned_refuses_witness :
  (exists msg, forward_conditioned two_classes one_row (Scalar 0) [1%Z]
               = Raise (ValueError msg))
  /\ forward_conditioned two_classes one_pixel (Scalar 0) [2%Z] = Raise IndexError
  /\ (exists msg, forward_conditioned two_classes one_pixel (Scalar 0) []
                  = Raise (RuntimeError msg)).
Proof.
  destruct (forward_conditioned_refuses two_classes one_row (Scalar 0) [1%Z])
    as (Hrank & _ & _).
  destruct (forward_conditioned_refuses two_classes one_pixel (Scalar 0) [2%Z])
    as (_ & Hlabel & _).
  destruct (forward_conditioned_refuses two_classes one_pixel (Scalar 0) [])
    as (_ & _ & Hview).
  split; [apply Hrank; simpl; lia|]. split.
  - apply Hlabel; [reflexivity|]. constructor. right. simpl. lia.
  - apply (Hview 1 1 1 1).
    + reflexivity.
    + constructor.
    + simpl. lia.
    + simpl. lia.
Defined.

End ConditionedFacts.

(** ** The end of an epoch (both diffuser files, the same code) *)

Module EpochEnd.
Import Torch Runtime.

(** [torch.stack] of scalars: a vector; no scalars is an error. *)
Definition stack (losses : list R) : result (tensor R) :=
  match losses with
  | [] => Raise (RuntimeError "stack expects a non-empty TensorList")
  | _ :: _ => Ok (Tensor [length losses] losses)
  end.

(** The losses that the outputs of the steps hold. *)
Definition losses_of (outputs : list (gmap string R)) : list R :=
  omap (fun x => x !! "loss") outputs.

Section WithExternals.
Context `{Externals}.

(** [_common_epoch_end(outputs, stage)]:
    [loss = torch.stack([x['loss'] for x in outputs]).mean()], logged as
    [{stage}_loss_epoch] with [on_step=False]. *)
Definition _common_epoch_end (outputs : list (gmap string R)) (stage : string)
  : M world unit :=
  losses ← lift (mapM (fun x => dict_get x "loss") outputs);
  stacked ← lift (stack losses);
  log (stage +:+ "_loss_epoch") (tmean stacked) false.

Definition train_epoch_end outputs := _common_epoch_end outputs "train".
Definition validation_epoch_end outputs := _common_epoch_end outputs "validation".
Definition test_epoch_end outputs := _common_epoch_end outputs "test".

End WithExternals.

Lemma mapM_result_cons {A B} (f : A -> result B) (a : A) (l : list A) :
  mapM f (a :: l) = (b ← f a; bs ← mapM f l; Ok (b :: bs)).
Proof. reflexivity. Qed.

Lemma collect_losses (outputs : list (gmap string R)) :
  Forall (fun x => is_Some (x !! "loss")) outputs ->
  mapM (fun x => dict_get x "loss") outputs = Ok (losses_of outputs)
  /\ length (losses_of outputs) = length outputs.
Proof.
  induction 1 as [|x outputs [v Hv] Hf [IH Hlen]]; [split; reflexivity|].
  rewrite mapM_result_cons, IH. unfold dict_get, losses_of in *.
  cbn [omap list_omap]. rewrite Hv. cbn [mbind result_bind].
  split; [reflexivity | simpl; rewrite Hlen; reflexivity].
Qed.

Lemma missing_loss (outputs : list (gmap string R)) :
  Exists (fun x => x !! "loss" = None) outputs ->
  mapM (fun x => dict_get x "loss") outputs = Raise (KeyError "loss").
Proof.
  induction outputs as [|x outputs IH]; intros Hm; [inversion Hm|].
  rewrite mapM_result_cons.
  destruct (x !! "loss") as [v|] eqn:Hv.
  - assert (dict_get x "loss" = Ok v) as ->
      by (unfold dict_get; rewrite Hv; reflexivity).
    cbn [mbind result_bind].
    inversion Hm as [? ? Hx|? ? Ht]; subst; [congruence|].
    rewrite (IH Ht). reflexivity.
  - assert (dict_get x "loss" = Raise (KeyError "loss")) as ->
      by (unfold dict_get; rewrite Hv; reflexivity).
    reflexivity.
Qed.

Lemma sumR_between (l : list R) lo hi :
  Forall (fun v => (lo <= v <= hi)%R) l ->
  (INR (length l) * lo <= sumR l <= INR (length l) * hi)%R.
Proof.
  induction 1 as [|v l Hv Hl IH]; [simpl; lra|].
  change (length (v :: l)) with (S (length l)). rewrite S_INR.
  change (sumR (v :: l)) with (v + sumR l)%R.
  destruct IH, Hv. split; nra.
Qed.

Lemma mean_between (l : list R) lo hi :
  l <> [] -> Forall (fun v => (lo <= v <= hi)%R) l ->
  (lo <= sumR l / INR (length l) <= hi)%R.
Proof.
  intros Hne Hl. pose proof (sumR_between l lo hi Hl) as Hs.
  assert (0 < INR (length l))%R as Hn
    by (apply lt_0_INR; destruct l; [congruence | simpl; lia]).
  pose proof (Rinv_0_lt_compat _ Hn) as Hi.
  destruct Hs as [Hlo Hhi]. unfold Rdiv. split.
  - apply (Rmult_le_compat_r _ _ _ (Rlt_le _ _ Hi)) in Hlo.
    replace (INR (length l) * lo * / INR (length l))%R with lo in Hlo by (field; lra).
    exact Hlo.
  - apply (Rmult_le_compat_r _ _ _ (Rlt_le _ _ Hi)) in Hhi.
    replace (INR (length l) * hi * / INR (length l))%R with hi in Hhi by (field; lra).
    exact Hhi.
Qed.

Section Properties.
Context `{Externals}.

(** X20. The end of an epoch over the outputs of its steps, at least one
    and each holding a loss: exactly one scalar is logged, per epoch and
    not per step, under the name of the stage followed by [_loss_epoch]; it
    is the arithmetic mean of the losses of the steps, so it lies between
    the smallest and the largest of them. Nothing else changes. *)
Theorem epoch_loss_is_mean_of_step_losses (outputs : list (gmap string R))
    (stage : string) (w : world) (lo hi : R) :
  outputs <> [] ->
  Forall (fun x => exists v, x !! "loss" = Some v /\ (lo <= v <= hi)%R) outputs ->
  exists mean,
    _common_epoch_end outputs stage w
    = (Ok tt, World (rng w) (grad_enabled w)
                    (trace w ++ [LogScalar (stage +:+ "_loss_epoch") mean false]))
    /\ mean = (sumR (losses_of outputs) / INR (length outputs))%R
    /\ (lo <= mean <= hi)%R.
Proof.
  intros Hne Hall.
  assert (Forall (fun x => is_Some (x !! "loss")) outputs) as Hsome.
  { apply (Forall_impl _ _ _ Hall). intros x (v & Hv & _). eauto. }
  destruct (collect_losses outputs Hsome) as [Hm Hlen].
  assert (Forall (fun v => (lo <= v <= hi)%R) (losses_of outputs)) as Hb.
  { clear Hm Hlen Hsome Hne. unfold losses_of.
    induction Hall as [|x outputs (v & Hv & Hr) Hf IH]; [constructor|].
    cbn. rewrite Hv. cbn. constructor; assumption. }
  assert (losses_of outputs <> []) as Hne'.
  { intros E. rewrite E in Hlen. destruct outputs; [congruence | discriminate]. }
  exists (sumR (losses_of outputs) / INR (length outputs))%R.
  split; [|split; [reflexivity | rewrite <- Hlen; apply mean_between; assumption]].
  unfold _common_epoch_end.
  rewrite (bind_run _ _ _ (losses_of outputs) w) by (unfold lift; rewrite Hm; reflexivity).
  assert (stack (losses_of outputs)
          = Ok (Tensor [length (losses_of outputs)] (losses_of outputs))) as Hs
    by (unfold stack; destruct (losses_of outputs); [congruence | reflexivity]).
  rewrite (bind_run _ _ _ _ w) by (unfold lift; rewrite Hs; reflexivity).
  rewrite log_run. unfold tmean. cbn [shape data numel foldr].
  rewrite Nat.mul_1_r, Hlen. reflexivity.
Qed.

(** X21. The end of an epoch refuses, before it logs anything: no
    outputs at all ([RuntimeError] of [torch.stack]), and an output without
    the key [loss] ([KeyError]). *)
Theorem epoch_end_refuses (outputs : list (gmap string R)) (stage : string) (w : world) :
  (outputs = [] ->
     exists msg, _common_epoch_end outputs stage w = (Raise (RuntimeError msg), w))
  /\ (Exists (fun x => x !! "loss" = None) outputs ->
      _common_epoch_end outputs stage w = (Raise (KeyError "loss"), w)).
Proof.
  split.
  - intros ->. eexists. reflexivity.
  - intros Hm. unfold _common_epoch_end. apply bind_raise.
    unfold lift. rewrite (missing_loss outputs Hm). reflexivity.
Qed.

End Properties.
End EpochEnd.

(** ** The small run, continued *)

Module MoreExamples.
Import Torch Runtime Example StepFacts.

Lemma no_translation_without_cycle_witness :
  exists evs,
    trace (snd (@DiffuserTwo._common_step toy two_without_cycle good_batch 0 0 "train" start))
    = trace start ++ evs
    /\ Forall (fun net => net = DiffusionImage \/ net = DiffusionLabel) (invoked evs).
Proof.
  apply (@no_translation_without_cycle toy two_without_cycle good_batch 0 0 "train" start).
  reflexivity.
Defined.

Lemma one_samples_only_when_training_witness :
  exists evs,
    trace (snd (@DiffuserOne._common_step toy one good_batch 0 0 "validation" start))
    = trace start ++ evs
    /\ stepped evs = [] /\ sampled evs = []
    /\ forall name grid step, LogImage name grid step ∉ evs.
Proof.
  apply (@one_samples_only_when_training toy one good_batch 0 0 "validation" start).
  left. discriminate.
Defined.

Lemma two_returns :
  is_ok (fst (@DiffuserTwo._common_step toy two_with_cycle good_batch 0 0 "train" start))
  = true.
Proof. vm_compute. reflexivity. Qed.

Lemma one_returns :
  is_ok (fst (@DiffuserOne._common_step toy one good_batch 0 0 "train" start)) = true.
Proof. vm_compute. reflexivity. Qed.

Lemma step_loss_is_nonnegative_witness :
  (exists super_loss unsup_loss,
     logged (trace (snd (@DiffuserTwo._common_step toy two_with_cycle good_batch
                           0 0 "train" start)))
     = [("train_super_loss", super_loss, true); ("train_unsup_loss", unsup_loss, true)]
     /\ fst (@DiffuserTwo._common_step toy two_with_cycle good_batch 0 0 "train" start)
        = Ok {["loss" := (super_loss + unsup_loss)%R]}
     /\ (0 <= super_loss)%R /\ (0 <= unsup_loss)%R)
  /\ (exists super_loss unsup_loss,
     logged (trace (snd (@DiffuserOne._common_step toy one good_batch
                           0 0 "train" start)))
     = [("train_super_loss", super_loss, true); ("train_unsup_loss", unsup_loss, true)]
     /\ fst (@DiffuserOne._common_step toy one good_batch 0 0 "train" start)
        = Ok {["loss" := (super_loss + unsup_loss)%R]}
     /\ (0 <= super_loss)%R /\ (0 <= unsup_loss)%R).
Proof.
  destruct (@step_loss_is_nonnegative toy two_with_cycle one good_batch 0 0 "train" start)
    as [Htwo Hone].
  split.
  - pose proof two_returns as Hok.
    destruct (@DiffuserTwo._common_step toy two_with_cycle good_batch 0 0 "train" start)
      as [[info|e] w1] eqn:E; [|discriminate].
    destruct (Htwo info w1 eq_refl) as (sl & ul & evs & Ht & Hl & -> & Hs & Hu & _).
    exists sl, ul. simpl. rewrite Ht. repeat split; assumption.
  - pose proof one_returns as Hok.
    destruct (@DiffuserOne._common_step toy one good_batch 0 0 "train" start)
      as [[info|e] w1] eqn:E; [|discriminate].
    destruct (Hone info w1 eq_refl) as (sl & ul & evs & Ht & Hl & -> & Hs & Hu & _).
    exists sl, ul. simpl. rewrite Ht. repeat split; assumption.
Defined.

Lemma logged_scalars_sum_to_loss_witness :
  (exists super_loss unsup_loss,
     logged (trace (snd (@DiffuserTwo._common_step toy two_with_cycle good_batch
                           0 0 "train" start)))
     = [("train_super_loss", super_loss, true); ("train_unsup_loss", unsup_loss, true)]
     /\ fst (@DiffuserTwo._common_step toy two_with_cycle good_batch 0 0 "train" start)
        = Ok {["loss" := (super_loss + unsup_loss)%R]})
  /\ (exists super_loss unsup_loss,
     logged (trace (snd (@DiffuserOne._common_step toy one good_batch
                           0 0 "train" start)))
     = [("train_super_loss", super_loss, true); ("train_unsup_loss", unsup_loss, true)]
     /\ fst (@DiffuserOne._common_step toy one good_batch 0 0 "train" start)
        = Ok {["loss" := (super_loss + unsup_loss)%R]}).
Proof.
  destruct (@logged_scalars_sum_to_loss toy two_with_cycle one good_batch 0 0 "train" start)
    as [Htwo Hone].
  split.
  - pose proof two_returns as Hok.
    destruct (@DiffuserTwo._common_step toy two_with_cycle good_batch 0 0 "train" start)
      as [[info|e] w1] eqn:E; [|discriminate].
    destruct (Htwo info w1 eq_refl) as (sl & ul & evs & Ht & Hl & ->).
    exists sl, ul. simpl. rewrite Ht. split; [exact Hl | reflexivity].
  - pose proof one_returns as Hok.
    destruct (@DiffuserOne._common_step toy one good_batch 0 0 "train" start)
      as [[info|e] w1] eqn:E; [|discriminate].
    destruct (Hone info w1 eq_refl) as (sl & ul & evs & Ht & Hl & ->).
    exists sl, ul. simpl. rewrite Ht. split; [exact Hl | reflexivity].
Defined.

Lemma stage_only_names_the_logs_witness :
  end_alike (@DiffuserTwo._common_step toy two_with_cycle good_batch 0 0 "train" start)
            (@DiffuserTwo._common_step toy two_with_cycle good_batch 0 0 "test" start)
  /\ end_alike (@DiffuserOne._common_step toy one good_batch 0 0 "validation" start)
               (@DiffuserOne._common_step toy one good_batch 0 0 "test" start).
Proof.
  split.
  - apply (@stage_only_names_the_logs toy two_with_cycle one good_batch 0 0
             "train" "test" start).
  - apply (@stage_only_names_the_logs toy two_with_cycle one good_batch 0 0
             "validation" "test" start).
    reflexivity.
Defined.

Lemma sampling_visits_every_timestep_witness :
  stepped (trace (snd (@DiffuserTwo._common_step toy two_with_cycle good_batch
                         0 0 "train" start)))
  = [2; 2; 1; 1; 0; 0]%Z
  /\ sampled (trace (snd (@DiffuserOne._common_step toy one good_batch
                            0 0 "train" start)))
     = [(Diffusion, 2); (Diffusion, 2); (Diffusion, 1); (Diffusion, 1);
        (Diffusion, 0); (Diffusion, 0)]%Z.
Proof.
  destruct (@sampling_visits_every_timestep toy two_with_cycle one good_batch 0 0
              "train" start) as [Htwo Hone].
  split.
  - pose proof two_returns as Hok.
    destruct (@DiffuserTwo._common_step toy two_with_cycle good_batch 0 0 "train" start)
      as [[info|e] w1] eqn:E; [|discriminate].
    destruct (Htwo info w1 eq_refl) as (evs & Ht & Hs & _).
    simpl. rewrite Ht. exact Hs.
  - pose proof one_returns as Hok.
    destruct (@DiffuserOne._common_step toy one good_batch 0 0 "train" start)
      as [[info|e] w1] eqn:E; [|discriminate].
    destruct (Hone info w1 eq_refl eq_refl) as (evs & Ht & _ & Hp).
    simpl. rewrite Ht. exact Hp.
Defined.

(** The outputs of two steps, with the losses 1 and 3. *)
Definition two_outputs : list (gmap string R) := [{["loss" := 1%R]}; {["loss" := 3%R]}].

Lemma epoch_loss_is_mean_of_step_losses_witness :
  exists mean,
    @EpochEnd._common_epoch_end toy two_outputs "train" start
    = (Ok tt, @World toy 0 true [LogScalar "train_loss_epoch" mean false])
    /\ mean = (sumR (EpochEnd.losses_of two_outputs) / INR 2)%R
    /\ (1 <= mean <= 3)%R.
Proof.
  apply (@EpochEnd.epoch_loss_is_mean_of_step_losses toy two_outputs "train" start 1 3).
  - discriminate.
  - constructor; [|constructor; [|constructor]].
    + exists 1%R. split; [apply lookup_singleton_eq | lra].
    + exists 3%R. split; [apply lookup_singleton_eq | lra].
Defined.

Lemma epoch_end_refuses_witness :
  (exists msg, @EpochEnd._common_epoch_end toy [] "train" start
               = (Raise (RuntimeError msg), start))
  /\ @EpochEnd._common_epoch_end toy [∅] "train" start = (Raise (KeyError "loss"), start).
Proof.
  destruct (@EpochEnd.epoch_end_refuses toy [] "train" start) as [Hnone _].
  destruct (@EpochEnd.epoch_end_refuses toy [∅] "train" start) as [_ Hkey].
  split; [apply Hnone; reflexivity|].
  apply Hkey. constructor. apply lookup_empty.
Defined.

End MoreExamples.
